(** * Gaugid SDK (TypeScript): connection-token lifecycle

    A shallow embedding of the token store ([TokenStorage]), the connection
    manager ([ConnectionManager]), the shared error parser
    ([parseGaugidError]) and the OAuth helper ([OAuthFlow]) of the TypeScript
    SDK, with the properties the specification states about them.

    Conventions of the embedding.
    - A JavaScript object used as a dictionary is a finite map over its own
      keys ([gmap string _]) together with the members it inherits from
      [Object.prototype]: a lookup by a key the caller chooses finds both.
    - Numbers that hold instants or durations are integers ([Z]): epoch
      seconds for [expiresAt], milliseconds for the clock. Fractions are not
      part of the model; the limits of [Date] are.
    - Strings are sequences of bytes, the UTF-8 form of the text.
    - An [async] function is a computation over an explicit world (file
      system, clock, console; network and random source); [await] is
      sequencing. A thrown value is the [Thrown] outcome.
    - What the platform does ([fs], [JSON], [URL], [URLSearchParams],
      [fetch], [crypto], [zod]) is modelled by its effect on the world or by
      a function written after its documented behaviour. *)

From Stdlib Require Import ZArith Ascii String List Lia Bool.
From Stdlib.Strings Require Byte.
From stdpp Require Import base gmap strings list fin_maps pretty.

Local Open Scope string_scope.
Local Open Scope Z_scope.

(** ** JSON values

    The values [JSON.parse] produces. A parsed object holds each key once. *)

#[warnings="-register-all"]
Inductive json : Type :=
| JNull
| JBool (b : bool)
| JNum (n : Z)
| JStr (s : string)
| JArr (items : list json)
| JObj (fields : list (string * json)).

(** Own-property lookup in the field list of an object. *)
Fixpoint assoc {A : Type} (k : string) (fields : list (string * A)) : option A :=
  match fields with
  | [] => None
  | (k', v) :: rest => if String.eqb k k' then Some v else assoc k rest
  end.

(** [v.k] for a parsed JSON value [v] that is not [null]: [undefined] (here
    [None]) unless [v] is an object with that key. *)
Definition prop (k : string) (v : json) : option json :=
  match v with
  | JObj fields => assoc k fields
  | _ => None
  end.

(** JavaScript truthiness of a JSON value. *)
Definition truthy (v : json) : bool :=
  match v with
  | JNull => false
  | JBool b => b
  | JNum n => negb (n =? 0)
  | JStr s => negb (String.eqb s "")
  | JArr _ | JObj _ => true
  end.

(** [typeof v === "object"], for a truthy [v]. *)
Definition is_object (v : json) : bool :=
  match v with
  | JArr _ | JObj _ => true
  | _ => false
  end.

Fixpoint join (sep : string) (parts : list string) : string :=
  match parts with
  | [] => ""
  | [p] => p
  | p :: rest => p +:+ sep +:+ join sep rest
  end.

(** [String(v)]: the conversion the [Error] constructor and template
    literals apply. An array prints its items joined by commas, [null]
    items as the empty string. *)
Fixpoint js_String (v : json) : string :=
  match v with
  | JNull => "null"
  | JBool true => "true"
  | JBool false => "false"
  | JNum n => pretty n
  | JStr s => s
  | JArr items =>
      join "," (map (fun i => match i with JNull => "" | _ => js_String i end) items)
  | JObj _ => "[object Object]"
  end.

(** ** Thrown values *)

(** A native error: [SyntaxError], [TypeError], [ZodError], [AbortError]... *)
Record NativeError : Type := mkNativeError {
  err_name : string;
  err_message : string;
}.

(** [`${error}`] for a native error, as [Error.prototype.toString] prints it. *)
Definition NativeError_toString (e : NativeError) : string :=
  if String.eqb (err_name e) "" then err_message e
  else if String.eqb (err_message e) "" then err_name e
  else err_name e +:+ ": " +:+ err_message e.

(** The SDK's error classes (types.ts) next to the native errors. The
    [code] is kept as the JSON value found in the response. *)
#[warnings="-register-all"]
Inductive Exn : Type :=
| GaugidAPIError (message : string) (code : option json) (statusCode : Z)
                 (response : option json)
| GaugidAuthError (message : string) (code : option json)
| GaugidConnectionError (message : string) (originalError : Exn)
| Native (e : NativeError).

(** [error.name] *)
Definition Exn_name (e : Exn) : string :=
  match e with
  | GaugidAPIError _ _ _ _ => "GaugidAPIError"
  | GaugidAuthError _ _ => "GaugidAuthError"
  | GaugidConnectionError _ _ => "GaugidConnectionError"
  | Native n => err_name n
  end.

(** [`${error}`] *)
Definition Exn_toString (e : Exn) : string :=
  match e with
  | GaugidAPIError m _ _ _ => "GaugidAPIError: " +:+ m
  | GaugidAuthError m _ => "GaugidAuthError: " +:+ m
  | GaugidConnectionError m _ => "GaugidConnectionError: " +:+ m
  | Native n => NativeError_toString n
  end.

Inductive Outcome (A : Type) : Type :=
| Returned (a : A)
| Thrown (e : Exn).
Arguments Returned {A} a.
Arguments Thrown {A} e.

(** ** Objects used as dictionaries

    An object written [{...}] or made by [JSON.parse] has [Object.prototype]
    as its prototype: reading [obj[key]] finds the object's own entry, or
    else the member of [Object.prototype] of that name. *)

Definition Object_prototype : list string :=
  [ "constructor"; "__defineGetter__"; "__defineSetter__"; "hasOwnProperty";
    "__lookupGetter__"; "__lookupSetter__"; "isPrototypeOf";
    "propertyIsEnumerable"; "toString"; "valueOf"; "__proto__";
    "toLocaleString" ].

(** [key] names a member of [Object.prototype]. *)
Definition inherited (key : string) : bool := existsb (String.eqb key) Object_prototype.

(** [String(member)] for the member of [Object.prototype] under [key], as
    V8 prints it: [__proto__] reads the prototype itself, [constructor] the
    function [Object], every other name a function of that name. *)
Definition Object_prototype_text (key : string) : string :=
  if String.eqb key "__proto__" then "[object Object]"
  else if String.eqb key "constructor" then "function Object() { [native code] }"
  else "function " +:+ key +:+ "() { [native code] }".

(** ** Token records (types.ts, connection.ts) *)

(** [z.record(z.unknown())], holding JSON values. *)
Definition Profile : Type := list (string * json).

(** [ConnectionTokenInfo] as a caller passes it. [scopes] is optional on
    the way in (the schema defaults it), every other field but [token] is
    optional throughout. *)
Record ConnectionTokenInfo : Type := mkInfo {
  token : string;
  expiresAt : option Z;
  scopes : option (list string);
  connectionId : option string;
  userDid : option string;
  profiles : option (list Profile);
}.

(** One entry of tokens.json: the fields [saveToken] writes. A field that
    is [undefined] is dropped by [JSON.stringify] and reads back as
    [undefined]: [None] on both sides. [savedAt] holds the instant whose
    ISO-8601 form is written. *)
Record StoredToken : Type := mkStored {
  st_token : string;
  st_expiresAt : option Z;
  st_scopes : option (list string);
  st_connectionId : option string;
  st_userDid : option string;
  st_profiles : option (list Profile);
  st_savedAt : Z;
}.

(** What [tokens[connectionId]] finds: an entry of the file, or a member
    of [Object.prototype]. Both are truthy. *)
Inductive TokenData : Type :=
| Entry (r : StoredToken)
| Member (key : string).

(** [tokens[id]] *)
Definition tokens_get (tokens : gmap string StoredToken) (id : string) : option TokenData :=
  match tokens !! id with
  | Some r => Some (Entry r)
  | None => if inherited id then Some (Member id) else None
  end.

(** [tokens[id] = record]. Under [__proto__] an object with no entry of
    that name of its own runs the setter of [Object.prototype]: the record
    becomes the prototype of [tokens] and nothing is stored. *)
Definition tokens_set (tokens : gmap string StoredToken) (id : string)
    (record : StoredToken) : gmap string StoredToken :=
  if String.eqb id "__proto__" && negb (bool_decide (is_Some (tokens !! id)))
  then tokens
  else <[id := record]> tokens.

(** The object [getToken] returns: the six fields read off what was found.
    A member of [Object.prototype] has none of them: they read
    [undefined], here [None]. *)
Record RetrievedToken : Type := mkRetrieved {
  r_token : option string;
  r_expiresAt : option Z;
  r_scopes : list string;
  r_connectionId : option string;
  r_userDid : option string;
  r_profiles : option (list Profile);
}.

(** ** The world of the token store *)

(** What is found at [storagePath] when it exists: text [JSON.parse]
    rejects (with the [SyntaxError] it raises), or text that parses to the
    object of entries the source casts it to, as [saveTokens] writes it. A
    file that holds other JSON ([null], an array, entries that are not
    records) is not among the states of the store here. *)
Inductive FileContent : Type :=
| Unparsable (syntaxError : string)
| Tokens (tokens : gmap string StoredToken).

(** The call of [saveTokens] that fails, if one does, with the error it
    ends with. A [writeFile] that fails leaves at [storagePath] what the
    platform left there. *)
Inductive WriteFault : Type :=
| MkdirFails (e : NativeError)
| WriteFileFails (e : NativeError) (remains : option FileContent).

Inductive LogLevel : Type := DEBUG | INFO | WARN | ERROR.

(** [LOG_LEVELS] *)
Definition LOG_LEVELS (l : LogLevel) : Z :=
  match l with DEBUG => 0 | INFO => 1 | WARN => 2 | ERROR => 3 end.

(** A line on the console: [`[${timestamp}] [${level}] [${name}] ${message}`]. *)
Record LogLine : Type := mkLogLine {
  line_timestamp : Z;
  line_level : LogLevel;
  line_name : string;
  line_message : string;
}.

Record World : Type := mkWorld {
  dir_present : bool;            (* the directory of [storagePath] exists *)
  file : option FileContent;     (* [storagePath]; [None]: it does not exist *)
  write_fault : option WriteFault;
                                 (* what fails when the store is written, if
                                    anything: permission denied, disk full, a
                                    path without a directory part... *)
  now : Z;                       (* the clock, milliseconds since the epoch *)
  logger_level : LogLevel;       (* the level of the module's logger *)
  console : list LogLine;        (* lines printed so far, oldest first *)
}.

(** ** Computations *)

Definition M (W A : Type) : Type := W -> Outcome A * W.

Definition ret {W A} (a : A) : M W A := fun w => (Returned a, w).

Definition throw {W A} (e : Exn) : M W A := fun w => (Thrown e, w).

Definition bind {W A B} (c : M W A) (k : A -> M W B) : M W B :=
  fun w =>
    match c w with
    | (Returned a, w') => k a w'
    | (Thrown e, w') => (Thrown e, w')
    end.

(** [try { c } catch (error) { handler(error) }] *)
Definition try_catch {W A} (c : M W A) (handler : Exn -> M W A) : M W A :=
  fun w =>
    match c w with
    | (Returned a, w') => (Returned a, w')
    | (Thrown e, w') => handler e w'
    end.

(** A function that returns or throws without touching the world. *)
Definition lift {W A} (o : Outcome A) : M W A := fun w => (o, w).

Notation "x <- c1 ;; c2" := (bind c1 (fun x => c2))
  (at level 100, c1 at next level, right associativity).
Notation "c1 ;; c2" := (bind c1 (fun _ => c2))
  (at level 100, right associativity).

Definition result {W A} (c : M W A) (w : W) : Outcome A := fst (c w).
Definition after {W A} (c : M W A) (w : W) : W := snd (c w).

(** *** Environment calls *)

(** [new Date()] *)
Definition Date_now : M World Z := fun w => (Returned (now w), w).

(** The largest time value of a [Date], in milliseconds either side of the
    epoch. *)
Definition Date_limit : Z := 8640000000000000.

(** [new Date(ms)]: the time value of the date, [None] for the Invalid Date
    a number beyond the limits gives. *)
Definition Date_new (ms : Z) : option Z :=
  if (- Date_limit <=? ms) && (ms <=? Date_limit) then Some ms else None.

(** [now >= date]: a comparison with an Invalid Date is false. *)
Definition Date_ge (now : Z) (date : option Z) : bool :=
  match date with
  | Some t => t <=? now
  | None => false
  end.

(** [existsSync(this.storagePath)] *)
Definition existsSync_storagePath : M World bool :=
  fun w => (Returned (bool_decide (is_Some (file w))), w).

(** [existsSync(dir)], where [dir] is [storagePath] up to its last [/]. *)
Definition existsSync_dir : M World bool := fun w => (Returned (dir_present w), w).

(** [mkdir(dir, { mode: 0o700, recursive: true })] *)
Definition mkdir_dir : M World unit :=
  fun w =>
    match write_fault w with
    | Some (MkdirFails e) => (Thrown (Native e), w)
    | _ =>
        (Returned tt,
         {| dir_present := true; file := file w; write_fault := write_fault w;
            now := now w; logger_level := logger_level w; console := console w |})
    end.

(** [JSON.parse(await readFile(this.storagePath, "utf-8"))] *)
Definition readFile_JSON_parse : M World (gmap string StoredToken) :=
  fun w =>
    match file w with
    | Some (Tokens tokens) => (Returned tokens, w)
    | Some (Unparsable msg) => (Thrown (Native (mkNativeError "SyntaxError" msg)), w)
    | None =>
        (Thrown (Native (mkNativeError "Error"
                   "ENOENT: no such file or directory")), w)
    end.

(** [writeFile(this.storagePath, JSON.stringify(tokens, null, 2),
    { mode: 0o600, encoding: "utf-8" })]: when it goes through, the file
    holds text that parses back to [tokens]. *)
Definition writeFile_JSON_stringify (tokens : gmap string StoredToken) : M World unit :=
  fun w =>
    match write_fault w with
    | Some (WriteFileFails e remains) =>
        (Thrown (Native e),
         {| dir_present := dir_present w; file := remains;
            write_fault := write_fault w; now := now w;
            logger_level := logger_level w; console := console w |})
    | _ =>
        (Returned tt,
         {| dir_present := dir_present w; file := Some (Tokens tokens);
            write_fault := write_fault w; now := now w;
            logger_level := logger_level w; console := console w |})
    end.

(** *** logger.ts *)

Definition shouldLog (current level : LogLevel) : bool :=
  LOG_LEVELS current <=? LOG_LEVELS level.

Definition logger_warn (name message : string) : M World unit :=
  fun w =>
    if shouldLog (logger_level w) WARN then
      (Returned tt,
       {| dir_present := dir_present w; file := file w;
          write_fault := write_fault w; now := now w;
          logger_level := logger_level w;
          console := console w ++ [mkLogLine (now w) WARN name message] |})
    else (Returned tt, w).

(** ** TokenStorage (connection.ts) *)

Module TokenStorage.

(** The caller's [connectionId] argument is written [id]: the name is taken
    by the field of [ConnectionTokenInfo]. *)

Definition loadTokens : M World (gmap string StoredToken) :=
  ex <- existsSync_storagePath ;;
  if negb ex then ret ∅
  else
    try_catch readFile_JSON_parse
      (fun error =>
         logger_warn "gaugid.connection"
           ("Failed to load tokens: " +:+ Exn_toString error) ;;
         ret ∅).

Definition saveTokens (tokens : gmap string StoredToken) : M World unit :=
  ex <- existsSync_dir ;;
  (if negb ex then mkdir_dir else ret tt) ;;
  writeFile_JSON_stringify tokens.

Definition saveToken (id : string) (tokenInfo : ConnectionTokenInfo) : M World unit :=
  tokens <- loadTokens ;;
  savedAt <- Date_now ;;
  let tokens :=
    tokens_set tokens id
      {| st_token := token tokenInfo;
         st_expiresAt := expiresAt tokenInfo;
         st_scopes := scopes tokenInfo;
         st_connectionId := connectionId tokenInfo;
         st_userDid := userDid tokenInfo;
         st_profiles := profiles tokenInfo;
         st_savedAt := savedAt |} in
  saveTokens tokens.

Definition getToken (id : string) : M World (option RetrievedToken) :=
  tokens <- loadTokens ;;
  match tokens_get tokens id with
  | None => ret None
  | Some (Entry tokenData) =>
      ret (Some {| r_token := Some (st_token tokenData);
                   r_expiresAt := st_expiresAt tokenData;
                   r_scopes := default [] (st_scopes tokenData);
                   r_connectionId := st_connectionId tokenData;
                   r_userDid := st_userDid tokenData;
                   r_profiles := st_profiles tokenData |})
  | Some (Member _) =>
      ret (Some {| r_token := None;
                   r_expiresAt := None;
                   r_scopes := [];
                   r_connectionId := None;
                   r_userDid := None;
                   r_profiles := None |})
  end.

(** [delete tokens[id]] removes an entry of the object's own and nothing
    else. *)
Definition deleteToken (id : string) : M World unit :=
  tokens <- loadTokens ;;
  let tokens := delete id tokens in
  saveTokens tokens.

(** [Object.keys(tokens)]: the names of the entries of the object's own;
    the order is not significant. *)
Definition listConnections : M World (list string) :=
  tokens <- loadTokens ;;
  ret (elements (dom tokens)).

Definition isTokenExpired (id : string) : M World bool :=
  tokenInfo <- getToken id ;;
  match tokenInfo with
  | None => ret true
  | Some tokenInfo =>
      match r_expiresAt tokenInfo with
      | None => ret true
      | Some e =>
          (* [!tokenInfo.expiresAt] also holds for the number 0 *)
          if e =? 0 then ret true
          else
            let expiresAt := Date_new (e * 1000) in
            now <- Date_now ;;
            ret (Date_ge now expiresAt)
      end
  end.

End TokenStorage.

(** ** ConnectionManager (connection.ts) *)

Module ConnectionManager.

Definition saveConnection (id : string) (tokenInfo : ConnectionTokenInfo) : M World unit :=
  TokenStorage.saveToken id tokenInfo.

(** [None] is [null]. The [undefined] token of a member of
    [Object.prototype] would be [None] too, but is never returned: such a
    member has no [expiresAt] and counts as expired. *)
Definition getConnectionToken (id : string) : M World (option string) :=
  tokenInfo <- TokenStorage.getToken id ;;
  match tokenInfo with
  | None => ret None
  | Some tokenInfo =>
      expired <- TokenStorage.isTokenExpired id ;;
      if expired then ret None else ret (r_token tokenInfo)
  end.

Definition deleteConnection (id : string) : M World unit :=
  TokenStorage.deleteToken id.

Definition listConnections : M World (list string) :=
  TokenStorage.listConnections.

Definition getConnectionInfo (id : string) : M World (option RetrievedToken) :=
  TokenStorage.getToken id.

End ConnectionManager.

(** ** HTTP responses *)

(** The body of a response as [response.json()] sees it: text that does
    not parse (with the [SyntaxError] raised), or the value it parses to. *)
Inductive Body : Type :=
| NotJson (syntaxError : string)
| Json (v : json).

Record Response : Type := mkResponse {
  status : Z;
  statusText : string;
  body : Body;
}.

(** [response.ok] *)
Definition ok (r : Response) : bool := (200 <=? status r) && (status r <=? 299).

(** [response.json()] *)
Definition Response_json (r : Response) : Outcome json :=
  match body r with
  | Json v => Returned v
  | NotJson msg => Thrown (Native (mkNativeError "SyntaxError" msg))
  end.

(** ** Error parsing (types.ts) *)

Definition ERROR_CODES : list (string * string) :=
  [ ("A2P000", "Internal server error");
    ("A2P001", "Not authorized");
    ("A2P002", "Invalid public key format");
    ("A2P003", "Profile not found");
    ("A2P006", "Invalid request");
    ("A2P009", "User already exists");
    ("A2P013", "Authenticated DID must match");
    ("A2P014", "Service not found");
    ("A2P015", "Invalid redirect_uri");
    ("A2P016", "Invalid scopes");
    ("A2P017", "Invalid authorization code");
    ("A2P018", "Authorization code expired");
    ("A2P019", "Invalid or expired connection token");
    ("A2P020", "Connection has been revoked");
    ("A2P021", "Connection token required");
    ("A2P022", "Service DID mismatch");
    ("A2P023", "Rate limit exceeded");
    ("A2P024", "Export limit exceeded");
    ("A2P025", "Import limit exceeded");
    ("A2P026", "Data import completed with errors") ].

(** [s.includes(sub)] on strings. *)
Fixpoint includes (s sub : string) : bool :=
  String.prefix sub s ||
  match s with
  | EmptyString => false
  | String _ s' => includes s' sub
  end.

(** [a || b] on strings. *)
Definition or_else (a b : string) : string :=
  if String.eqb a "" then b else a.

(** A string or [null] that is truthy: a string that is not empty. *)
Definition nonempty (v : option string) : option string :=
  match v with
  | Some s => if String.eqb s "" then None else Some s
  | None => None
  end.

(** [v || fallback] where [v] is a property that may be [undefined]. *)
Definition json_or_else (v : option json) (fallback : json) : json :=
  match v with
  | Some x => if truthy x then x else fallback
  | None => fallback
  end.

(** What [ERROR_CODES[code]] finds: a description of the table, or the
    member of [Object.prototype] of that name. *)
Inductive Looked : Type :=
| Description (d : string)
| Inherited (key : string).

(** [code && ERROR_CODES[code]], when truthy: the key is [code] converted
    to a string. *)
Definition ERROR_CODES_at (code : option json) : option Looked :=
  match code with
  | Some c =>
      if truthy c then
        let key := js_String c in
        match assoc key ERROR_CODES with
        | Some d => if String.eqb d "" then None else Some (Description d)
        | None => if inherited key then Some (Inherited key) else None
        end
      else None
  | None => None
  end.

(** [String(description)], as a template literal and the [includes] of
    strings convert it. *)
Definition Looked_text (description : Looked) : string :=
  match description with
  | Description d => d
  | Inherited key => Object_prototype_text key
  end.

(** [message.includes(description)]: the string method on a string, the
    array method on an array (no item of a parsed body is a member of
    [Object.prototype]), and no such method on anything else a JSON body
    can hold. *)
Definition message_includes (message : json) (description : Looked) : Outcome bool :=
  match message with
  | JStr s => Returned (includes s (Looked_text description))
  | JArr items =>
      Returned (match description with
                | Description d =>
                    existsb (fun i => match i with
                                      | JStr s => String.eqb s d
                                      | _ => false
                                      end) items
                | Inherited _ => false
                end)
  | _ => Thrown (Native (mkNativeError "TypeError" "message.includes is not a function"))
  end.

(** [code === "A2P001" || code === "A2P019" || code === "A2P020" || code === "A2P021"] *)
Definition is_auth_code (code : option json) : bool :=
  match code with
  | Some (JStr c) =>
      String.eqb c "A2P001" || String.eqb c "A2P019" ||
      String.eqb c "A2P020" || String.eqb c "A2P021"
  | _ => false
  end.

(** The function returns the error object it builds; a [Thrown] outcome is
    an exception raised while building it. [errorData] is the parsed body,
    [None] when the argument is left out. *)
Definition parseGaugidError (response : Response) (errorData : option json) : Outcome Exn :=
  let errorObj := errorData ≫= prop "error" in
  let fallback := JStr (or_else (statusText response) "Unknown error") in
  let '(code, message) :=
    match errorObj with
    | Some o =>
        if truthy o && is_object o
        then (prop "code" o, json_or_else (prop "message" o) fallback)
        else (None, fallback)
    | None => (None, fallback)
    end in
  let enhanced :=
    match ERROR_CODES_at code with
    | Some description =>
        match message_includes message description with
        | Returned true => Returned message
        | Returned false =>
            Returned (JStr (js_String message +:+ " (" +:+
                            Looked_text description +:+ ")"))
        | Thrown e => Thrown e
        end
    | None => Returned message
    end in
  match enhanced with
  | Thrown e => Thrown e
  | Returned message =>
      if is_auth_code code
      then Returned (GaugidAuthError (js_String message) code)
      else Returned (GaugidAPIError (js_String message) code (status response) errorData)
  end.

(** ** URLs and form encoding (the platform's [URL] and [URLSearchParams]) *)

Definition chr (n : N) : ascii := ascii_of_N n.

Definition is_alnum (c : ascii) : bool :=
  let n := N_of_ascii c in
  ((48 <=? n) && (n <=? 57) || (65 <=? n) && (n <=? 90) || (97 <=? n) && (n <=? 122))%N.

(** Bytes the form serializer leaves as they are: [A-Za-z0-9*-._]. *)
Definition form_safe (c : ascii) : bool :=
  is_alnum c || Ascii.eqb c "*" || Ascii.eqb c "-" || Ascii.eqb c "." || Ascii.eqb c "_".

Definition hex_digits : string := "0123456789ABCDEF".

Definition hex_digit (n : N) : ascii :=
  default "0"%char (String.get (N.to_nat n) hex_digits).

Definition hex_val (c : ascii) : option N :=
  let n := N_of_ascii c in
  (if (48 <=? n) && (n <=? 57) then Some (n - 48)
   else if (65 <=? n) && (n <=? 70) then Some (n - 55)
   else if (97 <=? n) && (n <=? 102) then Some (n - 87)
   else None)%N.

(** One byte as the form serializer writes it. *)
Definition form_encode_byte (c : ascii) : string :=
  if Ascii.eqb c " " then "+"
  else if form_safe c then String c ""
  else String "%" (String (hex_digit (N_of_ascii c / 16))
                     (String (hex_digit (N_of_ascii c mod 16)) "")).

Fixpoint form_encode (s : string) : string :=
  match s with
  | EmptyString => ""
  | String c s' => form_encode_byte c +:+ form_encode s'
  end.

(** [new URLSearchParams(init).toString()] *)
Definition URLSearchParams_toString (params : list (string * string)) : string :=
  join "&" (map (fun kv => form_encode (fst kv) +:+ "=" +:+ form_encode (snd kv)) params).

Fixpoint plus_to_space (s : string) : string :=
  match s with
  | EmptyString => ""
  | String c s' => String (if Ascii.eqb c "+" then " "%char else c) (plus_to_space s')
  end.

(** A [%] followed by two hexadecimal digits is the byte they write; any
    other byte stands for itself. *)
Fixpoint percent_decode (s : string) : string :=
  match s with
  | EmptyString => ""
  | String c s' =>
      let literal := String c (percent_decode s') in
      if Ascii.eqb c "%" then
        match s' with
        | String h (String l rest) =>
            match hex_val h, hex_val l with
            | Some a, Some b => String (chr (16 * a + b)) (percent_decode rest)
            | _, _ => literal
            end
        | _ => literal
        end
      else literal
  end.

Definition form_decode (s : string) : string := percent_decode (plus_to_space s).

Fixpoint split_on (sep : ascii) (s : string) : list string :=
  match s with
  | EmptyString => [""]
  | String c s' =>
      if Ascii.eqb c sep then "" :: split_on sep s'
      else match split_on sep s' with
           | h :: t => String c h :: t
           | [] => [String c ""]
           end
  end.

(** The text before the first [c] (all of it when there is none). *)
Fixpoint before (c : ascii) (s : string) : string :=
  match s with
  | EmptyString => ""
  | String a s' => if Ascii.eqb a c then "" else String a (before c s')
  end.

(** The text after the first [c], if there is one. *)
Fixpoint after_first (c : ascii) (s : string) : option string :=
  match s with
  | EmptyString => None
  | String a s' => if Ascii.eqb a c then Some s' else after_first c s'
  end.

(** The form parser up to the bytes of names and values: pairs are
    separated by [&], empty pairs are skipped, name and value are split at
    the first [=] and percent-decoded. *)
Definition form_parse (query : string) : list (string * string) :=
  map (fun pair =>
         (form_decode (before "=" pair),
          form_decode (default "" (after_first "=" pair))))
      (List.filter (fun pair => negb (String.eqb pair "")) (split_on "&" query)).

(** [params.get(name)]: the first value under [name], or [null]. *)
Definition URLSearchParams_get (name : string) (params : list (string * string)) : option string :=
  assoc name params.

Definition is_tab_or_newline (c : ascii) : bool :=
  Ascii.eqb c "009" || Ascii.eqb c "010" || Ascii.eqb c "013".

Definition is_c0_or_space (c : ascii) : bool := (N_of_ascii c <=? 32)%N.

Fixpoint strip_leading (s : string) : string :=
  match s with
  | EmptyString => ""
  | String c s' => if is_c0_or_space c then strip_leading s' else s
  end.

Fixpoint strip_trailing (s : string) : string :=
  match s with
  | EmptyString => ""
  | String c s' =>
      let r := strip_trailing s' in
      if is_c0_or_space c && String.eqb r "" then "" else String c r
  end.

Fixpoint remove_tab_newline (s : string) : string :=
  match s with
  | EmptyString => ""
  | String c s' =>
      if is_tab_or_newline c then remove_tab_newline s'
      else String c (remove_tab_newline s')
  end.

(** What the URL parser does to its input before reading it. *)
Definition URL_preprocess (s : string) : string :=
  remove_tab_newline (strip_trailing (strip_leading s)).

(** The pairs of the query of [new URL(s)], for a string the parser
    accepts, as the bytes of their names and values: the fragment starts
    at the first [#], the query at the first [?] before it. The
    percent-encoding the parser applies to the query is undone by the form
    parser and is left out. *)
Definition URL_searchParams (s : string) : list (string * string) :=
  let no_fragment := before "#" (URL_preprocess s) in
  form_parse (default "" (after_first "?" no_fragment)).

(** *** Text from bytes

    The form parser hands the bytes of a name or a value to the UTF-8
    decoder (without BOM handling); a byte sequence that is not UTF-8 comes
    out as U+FFFD, one for each maximal ill-formed part. Strings being kept
    as UTF-8 here, a well-formed sequence comes out as it went in. *)

(** U+FFFD in UTF-8: EF BF BD. *)
Definition utf8_replacement : string :=
  String (chr 239) (String (chr 191) (String (chr 189) "")).

(** For the first byte of a sequence of several: how many bytes follow,
    and the bounds of the next one. C2..DF; E0, ED, E1..EF; F0, F4,
    F1..F3. *)
Definition utf8_lead (b : N) : option (nat * N * N) :=
  (if (194 <=? b) && (b <=? 223) then Some (1%nat, 128, 191)
   else if b =? 224 then Some (2%nat, 160, 191)
   else if b =? 237 then Some (2%nat, 128, 159)
   else if (225 <=? b) && (b <=? 239) then Some (2%nat, 128, 191)
   else if b =? 240 then Some (3%nat, 144, 191)
   else if b =? 244 then Some (3%nat, 128, 143)
   else if (241 <=? b) && (b <=? 243) then Some (3%nat, 128, 191)
   else None)%N.

(** The decoder with [needed] bytes of a sequence still to come, the next
    one between [lower] and [upper]; [seen] holds the bytes of the sequence
    read so far. A byte that does not continue the sequence ends it in
    error and is read again as the start of the next. *)
Fixpoint utf8_decode_from (seen : string) (needed : nat) (lower upper : N)
    (bytes : string) : string :=
  match bytes with
  | EmptyString =>
      match needed with
      | O => ""
      | S _ => utf8_replacement
      end
  | String c rest =>
      let b := N_of_ascii c in
      let start :=
        if (b <? 128)%N then String c (utf8_decode_from "" 0 128 191 rest)
        else
          match utf8_lead b with
          | Some (n, lo, hi) => utf8_decode_from (String c "") n lo hi rest
          | None => utf8_replacement +:+ utf8_decode_from "" 0 128 191 rest
          end in
      match needed with
      | O => start
      | S n =>
          if ((lower <=? b) && (b <=? upper))%N then
            match n with
            | O => seen +:+ String c (utf8_decode_from "" 0 128 191 rest)
            | S _ => utf8_decode_from (seen +:+ String c "") n 128 191 rest
            end
          else utf8_replacement +:+ start
      end
  end.

Definition utf8_decode (bytes : string) : string := utf8_decode_from "" 0 128 191 bytes.

(** [new URL(s).searchParams]: the pairs of the query as text. *)
Definition URL_searchParams_text (s : string) : list (string * string) :=
  map (fun kv => (utf8_decode (fst kv), utf8_decode (snd kv))) (URL_searchParams s).

(** ** Random bytes and base64url (the platform's [crypto] and [Buffer]) *)

Definition base64url_alphabet : string :=
  "ABCDEFGHIJKLMNOPQRSTUVWXYZabcdefghijklmnopqrstuvwxyz0123456789-_".

(** The digit for a group of six bits, most significant first. *)
Definition base64url_digit (b5 b4 b3 b2 b1 b0 : bool) : ascii :=
  let n := (32 * Nat.b2n b5 + 16 * Nat.b2n b4 + 8 * Nat.b2n b3 +
            4 * Nat.b2n b2 + 2 * Nat.b2n b1 + Nat.b2n b0)%nat in
  default "A"%char (String.get n base64url_alphabet).

(** [Buffer.toString("base64url")]: three bytes make four digits, and there
    is no padding. [Byte.to_bits] lists the bits least significant first. *)
Fixpoint base64url (bytes : list Byte.byte) : string :=
  match bytes with
  | [] => ""
  | a :: rest1 =>
      let '(a0, (a1, (a2, (a3, (a4, (a5, (a6, a7))))))) := Byte.to_bits a in
      match rest1 with
      | [] =>
          String (base64url_digit a7 a6 a5 a4 a3 a2)
            (String (base64url_digit a1 a0 false false false false) "")
      | b :: rest2 =>
          let '(b0, (b1, (b2, (b3, (b4, (b5, (b6, b7))))))) := Byte.to_bits b in
          match rest2 with
          | [] =>
              String (base64url_digit a7 a6 a5 a4 a3 a2)
                (String (base64url_digit a1 a0 b7 b6 b5 b4)
                   (String (base64url_digit b3 b2 b1 b0 false false) ""))
          | c :: rest3 =>
              let '(c0, (c1, (c2, (c3, (c4, (c5, (c6, c7))))))) := Byte.to_bits c in
              String (base64url_digit a7 a6 a5 a4 a3 a2)
                (String (base64url_digit a1 a0 b7 b6 b5 b4)
                   (String (base64url_digit b3 b2 b1 b0 c7 c6)
                      (String (base64url_digit c5 c4 c3 c2 c1 c0)
                         (base64url rest3))))
          end
      end
  end.

(** ** The world of the OAuth helper: the network and the random source *)

Record Request : Type := mkRequest {
  req_url : string;
  req_method : string;
  req_headers : list (string * string);
  req_body : json;          (* the value [JSON.stringify] is applied to *)
  req_abort_after : Z;      (* the delay of the timer that aborts the request *)
}.

Inductive FetchResult : Type :=
| Responded (r : Response)
| NetworkFailure (e : NativeError)
| TimedOut.

Record Env : Type := mkEnv {
  server : Request -> FetchResult;   (* what the network answers *)
  sent : list Request;               (* requests sent so far, oldest first *)
  entropy : nat -> Byte.byte;        (* the bytes the random source will give *)
  drawn : nat;                       (* how many of them were taken *)
}.

(** [fetch(url, init)] with the abort timer armed around it. *)
Definition fetch (req : Request) : M Env Response :=
  fun env =>
    let env' := {| server := server env; sent := sent env ++ [req];
                   entropy := entropy env; drawn := drawn env |} in
    match server env req with
    | Responded r => (Returned r, env')
    | NetworkFailure e => (Thrown (Native e), env')
    | TimedOut =>
        (Thrown (Native (mkNativeError "AbortError" "This operation was aborted")), env')
    end.

(** [randomBytes(n)] *)
Definition randomBytes (n : nat) : M Env (list Byte.byte) :=
  fun env =>
    (Returned (map (entropy env) (seq (drawn env) n)),
     {| server := server env; sent := sent env;
        entropy := entropy env; drawn := (drawn env + n)%nat |}).

(** ** The token response and its schema (types.ts) *)

Module OAuthTokenResponse.
Record t : Type := mk {
  access_token : string;
  token_type : string;
  expires_in : Z;
  scope : string;
  connection_id : option string;
  user_did : option string;
  profiles : option (list Profile);
}.
End OAuthTokenResponse.

(** The outcome of one field of a [z.object]: the parsed value, or the
    path of the issue. *)
Definition z_string (path : string) (v : option json) : string + string :=
  match v with
  | Some (JStr s) => inl s
  | _ => inr path
  end.

Definition z_number (path : string) (v : option json) : Z + string :=
  match v with
  | Some (JNum n) => inl n
  | _ => inr path
  end.

Definition z_string_default (d path : string) (v : option json) : string + string :=
  match v with
  | None => inl d
  | Some (JStr s) => inl s
  | Some _ => inr path
  end.

Definition z_string_optional (path : string) (v : option json) : option string + string :=
  match v with
  | None => inl None
  | Some (JStr s) => inl (Some s)
  | Some _ => inr path
  end.

(** [z.array(z.record(z.unknown())).optional()] *)
Definition z_records_optional (path : string) (v : option json)
  : option (list Profile) + string :=
  match v with
  | None => inl None
  | Some (JArr items) =>
      if forallb (fun i => match i with JObj _ => true | _ => false end) items
      then inl (Some (flat_map (fun i => match i with JObj f => [f] | _ => [] end) items))
      else inr path
  | Some _ => inr path
  end.

Definition issue {A} (r : A + string) : list string :=
  match r with inl _ => [] | inr p => [p] end.

(** [OAuthTokenResponseSchema.parse(data)]. A [ZodError] lists every
    issue; its message is modelled by the paths of the issues. *)
Definition OAuthTokenResponseSchema_parse (data : json) : Outcome OAuthTokenResponse.t :=
  match data with
  | JObj _ =>
      let access_token := z_string "access_token" (prop "access_token" data) in
      let token_type := z_string_default "Bearer" "token_type" (prop "token_type" data) in
      let expires_in := z_number "expires_in" (prop "expires_in" data) in
      let scope := z_string "scope" (prop "scope" data) in
      let connection_id := z_string_optional "connection_id" (prop "connection_id" data) in
      let user_did := z_string_optional "user_did" (prop "user_did" data) in
      let profiles := z_records_optional "profiles" (prop "profiles" data) in
      match access_token, token_type, expires_in, scope, connection_id, user_did, profiles with
      | inl a, inl t, inl e, inl s, inl c, inl u, inl p =>
          Returned (OAuthTokenResponse.mk a t e s c u p)
      | _, _, _, _, _, _, _ =>
          Thrown (Native (mkNativeError "ZodError"
            (join "," (issue access_token ++ issue token_type ++ issue expires_in ++
                       issue scope ++ issue connection_id ++ issue user_did ++
                       issue profiles))))
      end
  | _ => Thrown (Native (mkNativeError "ZodError" ""))
  end.

(** ** OAuthFlow (auth.ts) *)

Module OAuthFlowConfig.
Record t : Type := mk {
  clientId : string;
  clientSecret : string;
  redirectUri : string;
  apiUrl : option string;
  timeout : option Z;
}.
End OAuthFlowConfig.

(** [s.replace(/\/$/, "")] *)
Fixpoint strip_trailing_slash (s : string) : string :=
  match s with
  | EmptyString => ""
  | String c s' =>
      match s' with
      | EmptyString => if Ascii.eqb c "/" then "" else s
      | _ => String c (strip_trailing_slash s')
      end
  end.

Module OAuthFlow.

Record t : Type := mk {
  clientId : string;
  clientSecret : string;
  redirectUri : string;
  apiUrl : string;
  timeout : Z;
}.

Definition constructor (config : OAuthFlowConfig.t) : t :=
  {| clientId := OAuthFlowConfig.clientId config;
     clientSecret := OAuthFlowConfig.clientSecret config;
     redirectUri := OAuthFlowConfig.redirectUri config;
     apiUrl :=
       strip_trailing_slash
         (or_else (default "" (OAuthFlowConfig.apiUrl config)) "https://api.gaugid.com");
     timeout :=
       match OAuthFlowConfig.timeout config with
       | Some n => if n =? 0 then 30000 else n
       | None => 30000
       end |}.

Definition getAuthorizationUrl (this : t) (scopes : list string) (state : option string)
  : M Env (string * string) :=
  state <- (match state with
            | Some s =>
                if String.eqb s "" then
                  bytes <- randomBytes 32 ;; ret (base64url bytes)
                else ret s
            | None => bytes <- randomBytes 32 ;; ret (base64url bytes)
            end) ;;
  let params :=
    [ ("client_id", clientId this);
      ("redirect_uri", redirectUri this);
      ("response_type", "code");
      ("scope", join "," scopes);
      ("state", state) ] in
  let authUrl := apiUrl this +:+ "/connect/authorize?" +:+ URLSearchParams_toString params in
  ret (authUrl, state).

Section Redirect.

(** Whether [new URL(s)] accepts [s]; it throws a [TypeError] otherwise.
    The syntax of URLs is the platform's and is left open. *)
Variable URL_canParse : string -> bool.

Definition parseAuthorizationResponse (redirectUrl expectedState : string) : Outcome string :=
  if negb (URL_canParse redirectUrl)
  then Thrown (Native (mkNativeError "TypeError" "Invalid URL"))
  else
    let params := URL_searchParams_text redirectUrl in
    match nonempty (URLSearchParams_get "error" params) with
    | Some error =>
        let errorDescription :=
          default "" (nonempty (URLSearchParams_get "error_description" params)) in
        Thrown (GaugidAuthError
                  ("OAuth error: " +:+ error +:+ " - " +:+ errorDescription) None)
    | None =>
        let state := URLSearchParams_get "state" params in
        if negb (bool_decide (state = Some expectedState)) then
          Thrown (GaugidAuthError "State mismatch in OAuth callback" None)
        else
          match nonempty (URLSearchParams_get "code" params) with
          | Some code => Returned code
          | None =>
              Thrown (GaugidAuthError "Authorization code not found in redirect URL" None)
          end
    end.

End Redirect.

(** The [catch] clause shared by [exchangeCode] and [revokeToken]. *)
Definition rethrow {A} (this : t) (error : Exn) : M Env A :=
  match error with
  | GaugidAuthError _ _ | GaugidAPIError _ _ _ _ => throw error
  | _ =>
      if String.eqb (Exn_name error) "AbortError" then
        throw (GaugidConnectionError
                 ("Request timeout after " +:+ pretty (timeout this) +:+ "ms") error)
      else
        throw (GaugidConnectionError
                 ("Failed to connect to Gaugid API: " +:+ Exn_toString error) error)
  end.

(** The message of a 400 answer: [errorData.error] throws on [null]. *)
Definition bad_request_message (response : Response) : M Env json :=
  let message := JStr "Token exchange failed" in
  try_catch
    (errorData <- lift (Response_json response) ;;
     errorObj <- (match errorData with
                  | JNull =>
                      throw (Native (mkNativeError "TypeError"
                               "Cannot read properties of null (reading 'error')"))
                  | _ => ret (prop "error" errorData)
                  end) ;;
     match errorObj with
     | Some o =>
         if truthy o && is_object o then ret (json_or_else (prop "message" o) message)
         else if truthy o then ret (JStr (js_String o))
         else ret message
     | None => ret message
     end)
    (fun _ => ret message).

Definition exchangeCode (this : t) (code : string) (state : option string)
  : M Env OAuthTokenResponse.t :=
  let tokenUrl := apiUrl this +:+ "/connect/token" in
  let payload :=
    JObj [ ("grant_type", JStr "authorization_code");
           ("code", JStr code);
           ("client_id", JStr (clientId this));
           ("client_secret", JStr (clientSecret this));
           ("redirect_uri", JStr (redirectUri this)) ] in
  try_catch
    (response <- fetch {| req_url := tokenUrl;
                          req_method := "POST";
                          req_headers := [("Content-Type", "application/json")];
                          req_body := payload;
                          req_abort_after := timeout this |} ;;
     if status response =? 401 then
       throw (GaugidAuthError "Invalid client credentials" None)
     else if status response =? 400 then
       message <- bad_request_message response ;;
       throw (GaugidAuthError (js_String message) None)
     else if negb (ok response) then
       errorData <- try_catch (lift (Response_json response)) (fun _ => ret (JObj [])) ;;
       error <- lift (parseGaugidError response (Some errorData)) ;;
       throw error
     else
       data <- lift (Response_json response) ;;
       lift (OAuthTokenResponseSchema_parse data))
    (rethrow this).

Definition revokeToken (this : t) (token : string) : M Env unit :=
  let revokeUrl := apiUrl this +:+ "/connect/revoke" in
  let payload :=
    JObj [ ("token", JStr token);
           ("client_id", JStr (clientId this));
           ("client_secret", JStr (clientSecret this)) ] in
  try_catch
    (response <- fetch {| req_url := revokeUrl;
                          req_method := "POST";
                          req_headers := [("Content-Type", "application/json")];
                          req_body := payload;
                          req_abort_after := timeout this |} ;;
     if status response =? 401 then
       throw (GaugidAuthError "Invalid client credentials" None)
     else if negb (ok response) then
       errorData <- try_catch (lift (Response_json response)) (fun _ => ret (JObj [])) ;;
       error <- lift (parseGaugidError response (Some errorData)) ;;
       throw error
     else ret tt)
    (rethrow this).

End OAuthFlow.

(** ** DIDs (utils.ts) *)

(** The process around the helpers: the environment variable they read
    and the numbers [Math.random] gives. *)
Record Proc : Type := mkProc {
  GAUGID_NAMESPACE : option string;  (* [process.env.GAUGID_NAMESPACE] *)
  rolls : nat -> nat;                (* what the random source will give *)
  rolled : nat;                      (* how many numbers were taken *)
}.

(** [process.env.GAUGID_NAMESPACE] *)
Definition env_GAUGID_NAMESPACE : M Proc (option string) :=
  fun p => (Returned (GAUGID_NAMESPACE p), p).

(** [Math.floor(Math.random() * n)]: a whole number from 0 to [n - 1]. *)
Definition Math_random_below (n : nat) : M Proc nat :=
  fun p =>
    (Returned (rolls p (rolled p) mod n)%nat,
     {| GAUGID_NAMESPACE := GAUGID_NAMESPACE p; rolls := rolls p;
        rolled := S (rolled p) |}).

(** [s.charAt(i)]: the empty string out of range. *)
Definition charAt (i : nat) (s : string) : string :=
  match String.get i s with
  | Some c => String c ""
  | None => ""
  end.

Definition identifier_chars : string :=
  "ABCDEFGHIJKLMNOPQRSTUVWXYZabcdefghijklmnopqrstuvwxyz0123456789".

(** The loop of [generateRandomIdentifier], [k] rounds to go. *)
Fixpoint random_identifier_loop (k : nat) (result : string) : M Proc string :=
  match k with
  | O => ret result
  | S k' =>
      i <- Math_random_below (String.length identifier_chars) ;;
      random_identifier_loop k' (result +:+ charAt i identifier_chars)
  end.

Definition generateRandomIdentifier : M Proc string :=
  random_identifier_loop 12 "".

(** [s.toLowerCase()] on ASCII text (other text is not modelled: the
    statements about it take ASCII input). *)
Definition toLowerCase_byte (c : ascii) : ascii :=
  let n := N_of_ascii c in
  if ((65 <=? n) && (n <=? 90))%N then chr (n + 32) else c.

Fixpoint map_bytes (f : ascii -> ascii) (s : string) : string :=
  match s with
  | EmptyString => ""
  | String c s' => String (f c) (map_bytes f s')
  end.

(** The class [[a-z0-9-]]. *)
Definition did_safe (c : ascii) : bool :=
  let n := N_of_ascii c in
  ((97 <=? n) && (n <=? 122) || (48 <=? n) && (n <=? 57))%N || Ascii.eqb c "-".

(** [s.replace(/-+/g, "-")] *)
Fixpoint collapse_hyphens (s : string) : string :=
  match s with
  | EmptyString => ""
  | String c s' =>
      let r := collapse_hyphens s' in
      if Ascii.eqb c "-" && String.prefix "-" r then r else String c r
  end.

(** The effect of the alternative [-$] on a text: a last hyphen goes. *)
Fixpoint drop_last_hyphen (s : string) : string :=
  match s with
  | EmptyString => ""
  | String c s' =>
      match s' with
      | EmptyString => if Ascii.eqb c "-" then "" else s
      | _ => String c (drop_last_hyphen s')
      end
  end.

(** [s.replace(/^-|-$/g, "")]: a first hyphen goes, then a last one of
    what follows. *)
Definition trim_hyphens (s : string) : string :=
  match s with
  | String c s' => if Ascii.eqb c "-" then drop_last_hyphen s' else drop_last_hyphen s
  | EmptyString => ""
  end.

Definition sanitizeIdentifier (name : string) : string :=
  trim_hyphens
    (collapse_hyphens
       (map_bytes (fun c => if did_safe c then c else "-"%char)
          (map_bytes toLowerCase_byte name))).

(** [s] without the prefix [p], when it starts with it. *)
Fixpoint strip_prefix (p s : string) : option string :=
  match p with
  | EmptyString => Some s
  | String a p' =>
      match s with
      | String b s' => if Ascii.eqb a b then strip_prefix p' s' else None
      | EmptyString => None
      end
  end.

(** Whether the text holds a line terminator, which [.] does not match:
    LF, CR, U+2028 or U+2029 (E2 80 A8 and E2 80 A9 in UTF-8). *)
Fixpoint has_line_terminator (s : string) : bool :=
  match s with
  | EmptyString => false
  | String c s' =>
      Ascii.eqb c "010" || Ascii.eqb c "013" ||
      (Ascii.eqb c "226" &&
       match s' with
       | String d (String e _) =>
           Ascii.eqb d "128" && (Ascii.eqb e "168" || Ascii.eqb e "169")
       | _ => false
       end) ||
      has_line_terminator s'
  end.

(** The groups of [/^did:a2p:(user|agent):([^:]+):(.+)$/] on a match:
    type, namespace and identifier. The namespace runs to the first colon
    after the type; the identifier is the rest. *)
Definition match_did (did : string) : option (string * string * string) :=
  match strip_prefix "did:a2p:" did with
  | None => None
  | Some rest =>
      let typed :=
        match strip_prefix "user:" rest with
        | Some r => Some ("user", r)
        | None =>
            match strip_prefix "agent:" rest with
            | Some r => Some ("agent", r)
            | None => None
            end
        end in
      match typed with
      | None => None
      | Some (type, r) =>
          match after_first ":" r with
          | None => None
          | Some identifier =>
              let namespace := before ":" r in
              if negb (String.eqb namespace "") && negb (String.eqb identifier "")
                 && negb (has_line_terminator identifier)
              then Some (type, namespace, identifier)
              else None
          end
      end
  end.

Definition validateGaugidDid (did : string) : bool * option string :=
  if negb (bool_decide (is_Some (match_did did))) then
    (false,
     Some ("Invalid DID format: " +:+ did +:+
           ". Required format: did:a2p:<type>:<namespace>:<identifier>"))
  else
    let parts := split_on ":" did in
    if (length parts <? 5)%nat then
      (false,
       Some ("Namespace is required in DID: " +:+ did +:+
             ". Format must be: did:a2p:<type>:<namespace>:<identifier>"))
    else
      let namespace := nth 3 parts "" in
      if String.eqb namespace "" then
        (false,
         Some ("Namespace is required in DID: " +:+ did +:+
               ". Format must be: did:a2p:<type>:<namespace>:<identifier>"))
      else (true, None).

Module ParsedDid.
Record t : Type := mk {
  method : string;
  type : string;
  namespace : string;
  identifier : string;
}.
End ParsedDid.

Definition parseDid (did : string) : option ParsedDid.t :=
  match match_did did with
  | None => None
  | Some (type, namespace, identifier) =>
      Some (ParsedDid.mk "a2p" type namespace identifier)
  end.

Definition getNamespace (did : string) : option string :=
  match parseDid did with
  | Some parsed => nonempty (Some (ParsedDid.namespace parsed))
  | None => None
  end.

Definition namespace_required : Exn :=
  Native (mkNativeError "Error"
    "Namespace is required. Provide it as argument or set GAUGID_NAMESPACE environment variable.").

Definition generateUserDid (namespace identifier : option string) : M Proc string :=
  from_env <- env_GAUGID_NAMESPACE ;;
  match (match nonempty namespace with Some ns => Some ns | None => nonempty from_env end) with
  | None => throw namespace_required
  | Some ns =>
      identifier <- (match nonempty identifier with
                     | Some i => ret i
                     | None => generateRandomIdentifier
                     end) ;;
      ret ("did:a2p:user:" +:+ ns +:+ ":" +:+ identifier)
  end.

Definition generateAgentDid (name namespace identifier : option string) : M Proc string :=
  from_env <- env_GAUGID_NAMESPACE ;;
  match (match nonempty namespace with Some ns => Some ns | None => nonempty from_env end) with
  | None => throw namespace_required
  | Some ns =>
      id <- (match nonempty identifier with
             | Some i => ret i
             | None =>
                 match nonempty name with
                 | Some n => ret (sanitizeIdentifier n)
                 | None => generateRandomIdentifier
                 end
             end) ;;
      ret ("did:a2p:agent:" +:+ ns +:+ ":" +:+ id)
  end.

(** ** GaugidStorage (storage.ts) *)

Definition DEFAULT_API_URL : string := "https://api.gaugid.com".

Module GaugidStorageConfig.
Record t : Type := mk {
  connectionToken : string;
  apiUrl : option string;
  agentDid : option string;
  timeout : option Z;
  apiVersion : option string;
}.
End GaugidStorageConfig.

(** [fetch(url, init)] with [signal: AbortSignal.timeout(ms)]: the signal
    aborts with a [TimeoutError]. *)
Definition fetch_with_timeout (req : Request) : M Env Response :=
  fun env =>
    let env' := {| server := server env; sent := sent env ++ [req];
                   entropy := entropy env; drawn := drawn env |} in
    match server env req with
    | Responded r => (Returned r, env')
    | NetworkFailure e => (Thrown (Native e), env')
    | TimedOut =>
        (Thrown (Native (mkNativeError "TimeoutError"
                   "The operation was aborted due to timeout")), env')
    end.

(** The [catch] clause of the calls of [GaugidStorage] and [GaugidClient]:
    [what] is the text the last message starts with. *)
Definition client_rethrow {A} (timeout : Z) (what : string) (error : Exn) : M Env A :=
  match error with
  | GaugidAPIError _ _ _ _ | GaugidConnectionError _ _ => throw error
  | _ =>
      if String.eqb (Exn_name error) "TimeoutError" then
        throw (GaugidConnectionError
                 ("Request timeout after " +:+ pretty timeout +:+ "ms") error)
      else
        throw (GaugidConnectionError (what +:+ ": " +:+ Exn_toString error) error)
  end.

Module GaugidStorage.

Record t : Type := mk {
  connectionToken : string;
  apiUrl : string;
  agentDid : option string;
  timeout : Z;
  apiVersion : string;
}.

Definition constructor (config : GaugidStorageConfig.t) : t :=
  {| connectionToken := GaugidStorageConfig.connectionToken config;
     apiUrl := or_else (default "" (GaugidStorageConfig.apiUrl config)) DEFAULT_API_URL;
     agentDid := GaugidStorageConfig.agentDid config;
     timeout :=
       match GaugidStorageConfig.timeout config with
       | Some n => if n =? 0 then 30000 else n
       | None => 30000
       end;
     apiVersion := or_else (default "" (GaugidStorageConfig.apiVersion config)) "v1" |}.

(** [set(did, profile)] *)
Definition set (this : t) (did : string) (profile : json) : M Env unit :=
  try_catch
    (let url := apiUrl this +:+ "/a2p/" +:+ apiVersion this +:+ "/profile/" +:+ did in
     response <- fetch_with_timeout
                   {| req_url := url;
                      req_method := "PUT";
                      req_headers :=
                        [("Authorization", "Bearer " +:+ connectionToken this);
                         ("Content-Type", "application/json")];
                      req_body := profile;
                      req_abort_after := timeout this |} ;;
     if negb (ok response) then
       errorData <- try_catch (lift (Response_json response)) (fun _ => ret (JObj [])) ;;
       error <- lift (parseGaugidError response (Some errorData)) ;;
       throw error
     else ret tt)
    (client_rethrow (timeout this) "Failed to connect to Gaugid API").

End GaugidStorage.

(** ** GaugidClient (client.ts) *)

Module GaugidClientConfig.
Record t : Type := mk {
  connectionToken : string;
  apiUrl : option string;
  agentDid : option string;
  namespace : option string;
  timeout : option Z;
}.
End GaugidClientConfig.

(** The [purpose] of an access request. *)
Module Purpose.
Record t : Type := mk {
  type : option string;
  description : option string;
  legalBasis : option string;
}.
End Purpose.

(** [data.success], [data.error] and the like on a parsed body: reading a
    property of [null] throws. *)
Definition member (k : string) (data : json) : Outcome (option json) :=
  match data with
  | JNull =>
      Thrown (Native (mkNativeError "TypeError"
                ("Cannot read properties of null (reading '" +:+ k +:+ "')")))
  | _ => Returned (prop k data)
  end.

(** Truthiness of a property that may be [undefined]. *)
Definition truthy_member (v : option json) : bool :=
  match v with
  | Some x => truthy x
  | None => false
  end.

Module GaugidClient.

Record t : Type := mk {
  storage : GaugidStorage.t;
  connectionToken : string;
  _userDid : option string;
  _availableProfiles : list Profile;
  _selectedProfileDid : option json;  (* a string, unless a profile's [did] is not one *)
}.

Definition constructor (config : GaugidClientConfig.t) : M Proc t :=
  agentDid <-
    (match nonempty (GaugidClientConfig.agentDid config) with
     | Some agentDid =>
         let '(isValid, error) := validateGaugidDid agentDid in
         if negb isValid then
           throw (Native (mkNativeError "Error"
                    ("Invalid agent DID: " +:+ default "undefined" error)))
         else ret agentDid
     | None => generateAgentDid (Some "default") (GaugidClientConfig.namespace config) None
     end) ;;
  ret {| storage :=
           GaugidStorage.constructor
             {| GaugidStorageConfig.connectionToken :=
                  GaugidClientConfig.connectionToken config;
                GaugidStorageConfig.apiUrl := GaugidClientConfig.apiUrl config;
                GaugidStorageConfig.agentDid := Some agentDid;
                GaugidStorageConfig.timeout :=
                  match GaugidClientConfig.timeout config with
                  | Some n => if n =? 0 then None else Some (n * 1000)
                  | None => None
                  end;
                GaugidStorageConfig.apiVersion := None |};
         connectionToken := GaugidClientConfig.connectionToken config;
         _userDid := None;
         _availableProfiles := [];
         _selectedProfileDid := None |}.

(** [fromOAuthResponse(oauthResponse, config)]; [config] comes without
    its [connectionToken], which is the access token. *)
Definition fromOAuthResponse (oauthResponse : OAuthTokenResponse.t)
    (apiUrl agentDid namespace : option string) (timeout : option Z) : M Proc t :=
  client <- constructor
              {| GaugidClientConfig.connectionToken :=
                   OAuthTokenResponse.access_token oauthResponse;
                 GaugidClientConfig.apiUrl := apiUrl;
                 GaugidClientConfig.agentDid := agentDid;
                 GaugidClientConfig.namespace := namespace;
                 GaugidClientConfig.timeout := timeout |} ;;
  let profiles := default [] (OAuthTokenResponse.profiles oauthResponse) in
  let selected :=
    match profiles with
    | [only] =>
        match assoc "did" only with
        | Some profileDid => if truthy profileDid then Some profileDid else None
        | None => None
        end
    | _ => None
    end in
  ret {| storage := storage client;
         connectionToken := connectionToken client;
         _userDid := OAuthTokenResponse.user_did oauthResponse;
         _availableProfiles := profiles;
         _selectedProfileDid := selected |}.

Definition listProfiles (this : t) : list Profile :=
  match _availableProfiles this with
  | _ :: _ => _availableProfiles this
  | [] =>
      match nonempty (_userDid this) with
      | Some userDid => [[("did", JStr userDid); ("type", JStr "user")]]
      | None => []
      end
  end.

(** The DIDs [selectProfile] chooses from. *)
Definition availableDids (this : t) : list json :=
  (List.filter truthy
     (flat_map (fun p => match assoc "did" p with Some d => [d] | None => [] end)
        (_availableProfiles this)) ++
   match nonempty (_userDid this) with
   | Some userDid => [JStr userDid]
   | None => []
   end)%list.

(** [selectProfile(profileDid)]: the client with the profile selected, or
    the error thrown, in which case the client is as it was. *)
Definition selectProfile (this : t) (profileDid : string) : Outcome t :=
  let '(isValid, error) := validateGaugidDid profileDid in
  if negb isValid then
    Thrown (Native (mkNativeError "Error"
              ("Invalid profile DID: " +:+ default "undefined" error)))
  else
    if negb (existsb (fun d => match d with
                               | JStr s => String.eqb s profileDid
                               | _ => false
                               end) (availableDids this))
    then
      Thrown (Native (mkNativeError "Error"
                ("Profile " +:+ profileDid +:+ " is not available. Available profiles: " +:+
                 join ", " (map js_String (availableDids this)))))
    else
      Returned {| storage := storage this;
                  connectionToken := connectionToken this;
                  _userDid := _userDid this;
                  _availableProfiles := _availableProfiles this;
                  _selectedProfileDid := Some (JStr profileDid) |}.


(** The answer of the profile endpoints: [success] must be truthy. *)
Definition unwrap_data (response : Response) : M Env json :=
  data <- lift (Response_json response) ;;
  success <- lift (member "success" data) ;;
  if negb (truthy_member success) then
    error <- lift (parseGaugidError response (Some data)) ;;
    throw error
  else
    ret (json_or_else (prop "data" data) (JObj [])).

Definition requestAccess (this : t) (scopes : list string) (userDid : option string)
    (purpose : option Purpose.t) : M Env json :=
  match nonempty userDid with
  | None =>
      let url := GaugidStorage.apiUrl (storage this) +:+ "/a2p/v1/profile/access" in
      let payload :=
        JObj ([("scopes", JArr (map JStr scopes))] ++
              match purpose with
              | Some p =>
                  [("purpose",
                    JObj (match Purpose.type p with
                          | Some x => [("type", JStr x)] | None => [] end ++
                          match Purpose.description p with
                          | Some x => [("description", JStr x)] | None => [] end ++
                          match Purpose.legalBasis p with
                          | Some x => [("legalBasis", JStr x)] | None => [] end))]
              | None => []
              end)%list in
      try_catch
        (response <- fetch_with_timeout
                       {| req_url := url;
                          req_method := "POST";
                          req_headers :=
                            [("Authorization", "Bearer " +:+ connectionToken this);
                             ("Content-Type", "application/json")];
                          req_body := payload;
                          req_abort_after := GaugidStorage.timeout (storage this) |} ;;
         if negb (ok response) then
           errorData <- try_catch (lift (Response_json response)) (fun _ => ret (JObj [])) ;;
           error <- lift (parseGaugidError response (Some errorData)) ;;
           throw error
         else unwrap_data response)
        (client_rethrow (GaugidStorage.timeout (storage this))
           "Failed to connect to Gaugid API")
  | Some userDid =>
      let '(isValid, error) := validateGaugidDid userDid in
      if negb isValid then
        throw (Native (mkNativeError "Error"
                 ("Invalid user DID: " +:+ default "undefined" error)))
      else
        throw (Native (mkNativeError "Error"
                 "DID mode request_access not yet implemented"))
  end.

End GaugidClient.

(** ** Vocabulary of the statements *)

(** The records that can be read from the store: none when the file is
    missing or does not parse. *)
Definition stored (w : World) : gmap string StoredToken :=
  match file w with
  | Some (Tokens tokens) => tokens
  | _ => ∅
  end.


(** Time passes: the same world at another instant. *)
Definition at_time (t : Z) (w : World) : World :=
  {| dir_present := dir_present w; file := file w;
     write_fault := write_fault w; now := t;
     logger_level := logger_level w; console := console w |}.

(** The object [getToken] hands out for a stored entry. *)
Definition info_of (r : StoredToken) : RetrievedToken :=
  {| r_token := Some (st_token r);
     r_expiresAt := st_expiresAt r;
     r_scopes := default [] (st_scopes r);
     r_connectionId := st_connectionId r;
     r_userDid := st_userDid r;
     r_profiles := st_profiles r |}.

(** The object [getToken] hands out for what was passed to [saveToken]. *)
Definition as_saved (info : ConnectionTokenInfo) : RetrievedToken :=
  {| r_token := Some (token info);
     r_expiresAt := expiresAt info;
     r_scopes := default [] (scopes info);
     r_connectionId := connectionId info;
     r_userDid := userDid info;
     r_profiles := profiles info |}.

(** The object [getToken] hands out for a member of [Object.prototype]:
    every field undefined, [scopes] empty. *)
Definition of_prototype : RetrievedToken :=
  {| r_token := None; r_expiresAt := None; r_scopes := []; r_connectionId := None;
     r_userDid := None; r_profiles := None |}.

(** What [getToken id] returns in [w]. *)
Definition found (w : World) (id : string) : option RetrievedToken :=
  match stored w !! id with
  | Some r => Some (info_of r)
  | None => if inherited id then Some of_prototype else None
  end.

(** The world after [loadTokens]: a warning is printed when the file is
    there but does not parse, if the logger lets warnings through. *)
Definition loaded (w : World) : World :=
  match file w with
  | Some (Unparsable msg) =>
      if shouldLog (logger_level w) WARN then
        {| dir_present := dir_present w; file := file w;
           write_fault := write_fault w; now := now w;
           logger_level := logger_level w;
           console := (console w ++
             [mkLogLine (now w) WARN "gaugid.connection"
                ("Failed to load tokens: " +:+
                 NativeError_toString (mkNativeError "SyntaxError" msg))])%list |}
      else w
  | _ => w
  end.

(** The lines a read of the store prints in [w]. *)
Definition warning (w : World) : list LogLine :=
  match file w with
  | Some (Unparsable msg) =>
      if shouldLog (logger_level w) WARN then
        [mkLogLine (now w) WARN "gaugid.connection"
           ("Failed to load tokens: " +:+
            NativeError_toString (mkNativeError "SyntaxError" msg))]
      else []
  | _ => []
  end.

(** The same world with [lines] more on the console. *)
Definition printed (lines : list LogLine) (w : World) : World :=
  {| dir_present := dir_present w; file := file w;
     write_fault := write_fault w; now := now w;
     logger_level := logger_level w;
     console := (console w ++ lines)%list |}.

(** What [isTokenExpired] answers for an entry at instant [t]. *)
Definition expired_at (t : Z) (r : option StoredToken) : bool :=
  match r with
  | None => true
  | Some r =>
      match st_expiresAt r with
      | None => true
      | Some e => if e =? 0 then true else Date_ge t (Date_new (e * 1000))
      end
  end.

(** The world after a [saveTokens] that went through. *)
Definition written (tokens : gmap string StoredToken) (w : World) : World :=
  {| dir_present := true; file := Some (Tokens tokens);
     write_fault := write_fault w; now := now w;
     logger_level := logger_level w; console := console w |}.

(** The entry [saveToken] writes at instant [savedAt]. *)
Definition record_of (info : ConnectionTokenInfo) (savedAt : Z) : StoredToken :=
  {| st_token := token info;
     st_expiresAt := expiresAt info;
     st_scopes := scopes info;
     st_connectionId := connectionId info;
     st_userDid := userDid info;
     st_profiles := profiles info;
     st_savedAt := savedAt |}.

(** The request [exchangeCode] sends for [code]. *)
Definition token_request (this : OAuthFlow.t) (code : string) : Request :=
  {| req_url := OAuthFlow.apiUrl this +:+ "/connect/token";
     req_method := "POST";
     req_headers := [("Content-Type", "application/json")];
     req_body :=
       JObj [ ("grant_type", JStr "authorization_code");
              ("code", JStr code);
              ("client_id", JStr (OAuthFlow.clientId this));
              ("client_secret", JStr (OAuthFlow.clientSecret this));
              ("redirect_uri", JStr (OAuthFlow.redirectUri this)) ];
     req_abort_after := OAuthFlow.timeout this |}.

(** The message of an error response before the description of its code
    is added: the message of the error object, else the status text, else
    a fixed text. *)
Definition base_message (response : Response) (o : list (string * json)) : string :=
  match assoc "message" o with
  | Some (JStr m) => or_else m (or_else (statusText response) "Unknown error")
  | _ => or_else (statusText response) "Unknown error"
  end.

(** What is added to a message for the code [c]: its description in the
    table, or the text of the member of [Object.prototype] of that name. *)
Definition code_text (c : string) : option string :=
  match assoc c ERROR_CODES with
  | Some d => Some d
  | None => if inherited c then Some (Object_prototype_text c) else None
  end.

(** The message with the text for code [c], if there is one and the
    message does not contain it yet. *)
Definition described (c : string) (message : string) : string :=
  match code_text c with
  | Some d => if includes message d then message else message +:+ " (" +:+ d +:+ ")"
  | None => message
  end.



(** Every byte of [s] satisfies [p]. *)
Fixpoint all_chars (p : ascii -> bool) (s : string) : bool :=
  match s with
  | EmptyString => true
  | String c s' => p c && all_chars p s'
  end.

(** The unreserved characters of URLs: letters, digits, [-], [.], [_], [~]. *)
Definition unreserved (c : ascii) : bool :=
  is_alnum c || Ascii.eqb c "-" || Ascii.eqb c "." || Ascii.eqb c "_" || Ascii.eqb c "~".

Definition is_not (c a : ascii) : bool := negb (Ascii.eqb a c).

(** [s] has neither a query nor a fragment. *)
Definition no_query_no_fragment (s : string) : bool :=
  all_chars (is_not "?") s && all_chars (is_not "#") s.

(** The bytes the next [randomBytes(n)] gives in [env]. *)
Definition next_bytes (n : nat) (env : Env) : list Byte.byte :=
  map (entropy env) (seq (drawn env) n).

(** A computation that returns or throws the same whatever the world,
    and leaves the world as it is. *)
Definition steady {W A} (c : M W A) : Prop := ∃ o, ∀ w, c w = (o, w).

(** The world after one more request was sent. *)
Definition sent_more (req : Request) (env : Env) : Env :=
  {| server := server env; sent := (sent env ++ [req])%list;
     entropy := entropy env; drawn := drawn env |}.

(** Bytes that are neither controls nor the space. *)
Definition plain (c : ascii) : bool := negb (is_c0_or_space c).

(** A byte a value of a query keeps when it is read back: not a
    separator of pairs, not the fragment sign, not [+], and not a tab or a
    newline, which the URL parser removes. *)
Definition kept_in_query (c : ascii) : bool :=
  is_not "&" c && is_not "#" c && is_not "+" c && negb (is_tab_or_newline c).

(** [s] holds a percent escape: [%] followed by two hexadecimal digits. *)
Fixpoint has_escape (s : string) : bool :=
  match s with
  | EmptyString => false
  | String c rest =>
      (Ascii.eqb c "%" &&
       match rest with
       | String h (String l _) =>
           match hex_val h, hex_val l with
           | Some _, Some _ => true
           | _, _ => false
           end
       | _ => false
       end) || has_escape rest
  end.

(** [s] is UTF-8 text: the decoder finds nothing to replace. *)
Definition well_formed (s : string) : bool := String.eqb (utf8_decode s) s.

(** [s] written as it is in a query is read back as it is. *)
Definition verbatim (s : string) : bool :=
  all_chars kept_in_query s && negb (has_escape s) && well_formed s.

(** [s] does not end in a control or a space, which the URL parser strips
    from the end of its input. *)
Fixpoint ends_plain (s : string) : bool :=
  match s with
  | EmptyString => true
  | String c EmptyString => plain c
  | String _ rest => ends_plain rest
  end.

(** The bytes the form serializer writes for names and values. *)
Definition form_written (c : ascii) : bool :=
  form_safe c || Ascii.eqb c "+" || Ascii.eqb c "%".

(** The bytes of a serialized query: those and the two separators. *)
Definition query_written (c : ascii) : bool :=
  form_written c || Ascii.eqb c "=" || Ascii.eqb c "&".

(** The digits of base64url: letters, digits, [-] and [_]. *)
Definition base64url_char (c : ascii) : bool :=
  is_alnum c || Ascii.eqb c "-" || Ascii.eqb c "_".

(** The number of digits that encode [n] bytes. *)
Fixpoint base64url_length (n : nat) : nat :=
  match n with
  | O => 0
  | 1 => 2
  | 2 => 3
  | S (S (S k)) => 4 + base64url_length k
  end%nat.

(** The world after [n] random bytes were taken. *)
Definition drawn_more (n : nat) (env : Env) : Env :=
  {| server := server env; sent := sent env;
     entropy := entropy env; drawn := (drawn env + n)%nat |}.

(** The parameters of the authorization URL. *)
Definition authorization_params (this : OAuthFlow.t) (scopes : list string)
    (state : string) : list (string * string) :=
  [ ("client_id", OAuthFlow.clientId this);
    ("redirect_uri", OAuthFlow.redirectUri this);
    ("response_type", "code");
    ("scope", join "," scopes);
    ("state", state) ].

(** *** Vocabulary for the DID helpers *)

Definition is_ascii (c : ascii) : bool := (N_of_ascii c <? 128)%N.

(** The replacement [/[^a-z0-9-]/g] makes, byte by byte. *)
Definition unsafe_to_hyphen (c : ascii) : ascii := if did_safe c then c else "-"%char.

Definition is_hyphen (c : ascii) : bool := Ascii.eqb c "-".

(** No two hyphens in a row. *)
Fixpoint no_double_hyphen (s : string) : bool :=
  match s with
  | EmptyString => true
  | String a s' =>
      negb (is_hyphen a && String.prefix "-" s') && no_double_hyphen s'
  end.

Fixpoint ends_with_hyphen (s : string) : bool :=
  match s with
  | EmptyString => false
  | String c s' =>
      match s' with
      | EmptyString => is_hyphen c
      | _ => ends_with_hyphen s'
      end
  end.

(** The texts [sanitizeIdentifier] produces: lower-case letters, digits and
    single hyphens, with no hyphen at either end. *)
Definition sanitized (s : string) : bool :=
  all_chars did_safe s && no_double_hyphen s &&
  negb (String.prefix "-" s) && negb (ends_with_hyphen s).

(** The text has a letter or a digit of ASCII. *)
Definition has_alnum (s : string) : bool :=
  negb (all_chars (fun c => negb (is_alnum c)) s).

(** The process after [n] more numbers were taken from the random source. *)
Definition rolled_more (n : nat) (p : Proc) : Proc :=
  {| GAUGID_NAMESPACE := GAUGID_NAMESPACE p; rolls := rolls p;
     rolled := (rolled p + n)%nat |}.

(** *** Vocabulary for the OAuth helper *)

(** The request [revokeToken] sends for [token]. *)
Definition revoke_request (this : OAuthFlow.t) (token : string) : Request :=
  {| req_url := OAuthFlow.apiUrl this +:+ "/connect/revoke";
     req_method := "POST";
     req_headers := [("Content-Type", "application/json")];
     req_body :=
       JObj [ ("token", JStr token);
              ("client_id", JStr (OAuthFlow.clientId this));
              ("client_secret", JStr (OAuthFlow.clientSecret this)) ];
     req_abort_after := OAuthFlow.timeout this |}.

(** The error classes of the SDK, as opposed to the platform's errors. *)
Definition is_gaugid_error (e : Exn) : bool :=
  match e with
  | Native _ => false
  | _ => true
  end.

(** What [response.json().catch(() => ({}))] gives. *)
Definition body_or_empty (r : Response) : json :=
  match body r with
  | Json v => v
  | NotJson _ => JObj []
  end.

Fixpoint ends_with_slash (s : string) : bool :=
  match s with
  | EmptyString => false
  | String c s' =>
      match s' with
      | EmptyString => Ascii.eqb c "/"
      | _ => ends_with_slash s'
      end
  end.

(** *** Vocabulary for the client *)

(** The clients a program can hold: made by [fromOAuthResponse] or by the
    constructor, then changed by [selectProfile] calls that returned. *)
Inductive client_reachable : GaugidClient.t -> Prop :=
| reach_constructor config p c p' :
    GaugidClient.constructor config p = (Returned c, p') →
    client_reachable c
| reach_fromOAuthResponse resp apiUrl agentDid namespace timeout p c p' :
    GaugidClient.fromOAuthResponse resp apiUrl agentDid namespace timeout p
      = (Returned c, p') →
    client_reachable c
| reach_selectProfile c profileDid c' :
    client_reachable c →
    GaugidClient.selectProfile c profileDid = Returned c' →
    client_reachable c'.

(** * Properties of the token store *)

Section Storage.

Import TokenStorage.

Lemma tokens_set_insert tokens (id : string) (record : StoredToken) :
  id ≠ "__proto__" ∨ is_Some (tokens !! id) →
  tokens_set tokens id record = <[id := record]> tokens.
Proof.
  unfold tokens_set. intros [Hid|Hs].
  - by destruct (String.eqb_spec id "__proto__").
  - rewrite bool_decide_true by done. by rewrite andb_false_r.
Qed.


Lemma loadTokens_run (w : World) : loadTokens w = (Returned (stored w), loaded w).
Proof.
  destruct w as [d f wf n lv c]. unfold loadTokens, stored, loaded, bind, try_catch.
  destruct f as [[msg|m]|]; cbn; try reflexivity.
  unfold logger_warn; cbn. destruct (shouldLog lv WARN); reflexivity.
Qed.

Lemma loaded_printed w : loaded w = printed (warning w) w.
Proof.
  destruct w as [d f wf n lv c]. unfold loaded, printed, warning. cbn.
  destruct f as [[msg|m]|]; cbn; rewrite ?app_nil_r; try reflexivity.
  destruct (shouldLog lv WARN); cbn; by rewrite ?app_nil_r.
Qed.

Lemma loaded_file w : file (loaded w) = file w.
Proof. by rewrite loaded_printed. Qed.

Lemma loaded_now w : now (loaded w) = now w.
Proof. by rewrite loaded_printed. Qed.

Lemma loaded_dir w : dir_present (loaded w) = dir_present w.
Proof. by rewrite loaded_printed. Qed.

Lemma loaded_write_fault w : write_fault (loaded w) = write_fault w.
Proof. by rewrite loaded_printed. Qed.

Lemma stored_loaded w : stored (loaded w) = stored w.
Proof. unfold stored. by rewrite loaded_file. Qed.

Lemma getToken_run (id : string) (w : World) :
  getToken id w = (Returned (found w id), loaded w).
Proof.
  unfold getToken, bind. rewrite loadTokens_run. unfold found, tokens_get.
  destruct (stored w !! id); [reflexivity|]. by destruct (inherited id).
Qed.

Lemma listConnections_run (w : World) :
  listConnections w = (Returned (elements (dom (stored w))), loaded w).
Proof. unfold listConnections, bind. by rewrite loadTokens_run. Qed.

Lemma isTokenExpired_run (id : string) (w : World) :
  isTokenExpired id w = (Returned (expired_at (now w) (stored w !! id)), loaded w).
Proof.
  unfold isTokenExpired, bind. rewrite getToken_run. unfold found.
  destruct (stored w !! id) as [r|]; [|by destruct (inherited id)].
  cbn. destruct (st_expiresAt r) as [e|]; [|reflexivity].
  destruct (e =? 0); [reflexivity|].
  unfold Date_now. by rewrite loaded_now.
Qed.

Lemma getConnectionToken_run (id : string) (w : World) :
  ConnectionManager.getConnectionToken id w =
  (Returned (match stored w !! id with
             | None => None
             | Some r => if expired_at (now w) (Some r) then None else Some (st_token r)
             end),
   match found w id with
   | None => loaded w
   | Some _ => loaded (loaded w)
   end).
Proof.
  unfold ConnectionManager.getConnectionToken, bind. rewrite getToken_run.
  unfold found.
  destruct (stored w !! id) as [r|] eqn:Hr.
  - rewrite isTokenExpired_run, stored_loaded, loaded_now, Hr.
    by destruct (expired_at _ _).
  - destruct (inherited id); [|done].
    by rewrite isTokenExpired_run, stored_loaded, Hr.
Qed.

Lemma saveTokens_run tokens (w : World) :
  write_fault w = None → saveTokens tokens w = (Returned tt, written tokens w).
Proof.
  destruct w as [d f wf n lv c]. cbn. intros ->.
  unfold saveTokens, bind, written; cbn. destruct d; reflexivity.
Qed.

Lemma saveToken_run (id : string) (info : ConnectionTokenInfo) (w : World) :
  write_fault w = None →
  saveToken id info w =
  (Returned tt,
   written (tokens_set (stored w) id (record_of info (now w))) (loaded w)).
Proof.
  intros Hw. unfold saveToken, bind. rewrite loadTokens_run. unfold Date_now.
  rewrite saveTokens_run, loaded_now by (by rewrite loaded_write_fault). reflexivity.
Qed.

Lemma deleteToken_run (id : string) (w : World) :
  write_fault w = None →
  deleteToken id w = (Returned tt, written (delete id (stored w)) (loaded w)).
Proof.
  intros Hw. unfold deleteToken, bind. rewrite loadTokens_run.
  by rewrite saveTokens_run by (by rewrite loaded_write_fault).
Qed.

Lemma written_write_fault tokens w t :
  write_fault (at_time t (written tokens w)) = write_fault w.
Proof. reflexivity. Qed.

Lemma stored_written tokens w t : stored (at_time t (written tokens w)) = tokens.
Proof. reflexivity. Qed.

Lemma info_of_record info t : info_of (record_of info t) = as_saved info.
Proof. reflexivity. Qed.

Lemma found_stored (w : World) (id : string) (r : StoredToken) :
  stored w !! id = Some r → found w id = Some (info_of r).
Proof. unfold found. by intros ->. Qed.

Lemma found_other (w w' : World) (k : string) :
  stored w' !! k = stored w !! k → found w' k = found w k.
Proof. unfold found. by intros ->. Qed.


End Storage.

Section StorageClaims.

Import TokenStorage.

(** C2, as the code has it. [isTokenExpired] answers true exactly when no
    record is stored under the id, or the record has no [expiresAt] or has
    the [expiresAt] 0, or [expiresAt * 1000] is an instant a [Date] can hold
    and the clock is at or past it. It answers false for a record whose
    [expiresAt] is not 0 and lies strictly in the future. *)
Theorem isTokenExpired_iff (id : string) (w : World) :
  ∃ b, result (isTokenExpired id) w = Returned b ∧
       (b = true ↔
          stored w !! id = None ∨
          ∃ r, stored w !! id = Some r ∧
               (st_expiresAt r = None ∨ st_expiresAt r = Some 0 ∨
                ∃ e, st_expiresAt r = Some e ∧
                     -8640000000000000 <= e * 1000 <= 8640000000000000 ∧
                     e * 1000 <= now w)) ∧
       (∀ r e, stored w !! id = Some r → st_expiresAt r = Some e → e ≠ 0 →
               now w < e * 1000 → b = false).
Proof.
  unfold result. rewrite isTokenExpired_run. cbn [fst].
  eexists; split; [reflexivity|]. split.
  - destruct (stored w !! id) as [r|] eqn:Hr; cbn; [|by split; [left|]].
    destruct (st_expiresAt r) as [e|] eqn:He.
    + destruct (Z.eqb_spec e 0) as [->|Hne].
      * split; [|done]. intros _. right. exists r. split; [done|]. right. by left.
      * unfold Date_new, Date_ge, Date_limit.
        destruct (Z.leb_spec (Z.opp 8640000000000000) (e * 1000));
          destruct (Z.leb_spec (e * 1000) 8640000000000000); cbn [andb].
        -- split.
           ++ intros H'%Z.leb_le. right. exists r. split; [done|].
              right. right. exists e. split; [done|]. lia.
           ++ intros [?|(r' & [= <-] & [?|[?|(e' & He' & _ & Hle)]])]; try congruence.
              rewrite He in He'. injection He' as <-. by apply Z.leb_le.
        -- split; [done|].
           intros [?|(r' & [= <-] & [?|[?|(e' & He' & Hrange & _)]])]; try congruence.
           rewrite He in He'. injection He' as <-. lia.
        -- split; [done|].
           intros [?|(r' & [= <-] & [?|[?|(e' & He' & Hrange & _)]])]; try congruence.
           rewrite He in He'. injection He' as <-. lia.
        -- split; [done|].
           intros [?|(r' & [= <-] & [?|[?|(e' & He' & Hrange & _)]])]; try congruence.
           rewrite He in He'. injection He' as <-. lia.
    + split; [|done]. intros _. right. exists r. split; [done|by left].
  - intros r e Hr He Hne Hlt. rewrite Hr. cbn. rewrite He.
    destruct (Z.eqb_spec e 0); [done|]. unfold Date_new, Date_ge.
    destruct (_ && _); [|done]. apply Z.leb_gt. lia.
Qed.

Lemma isTokenExpired_iff_witness :
  ∃ b, result (isTokenExpired "svc1")
         (mkWorld true
            (Some (Tokens {[ "svc1" :=
               mkStored "t1" (Some 1700003600) (Some ["a2p:preferences"])
                        None None None 1700000000000 ]}))
            None 1700000000000 WARN []) = Returned b ∧ b = false.
Proof.
  destruct (isTokenExpired_iff "svc1"
    (mkWorld true
       (Some (Tokens {[ "svc1" :=
          mkStored "t1" (Some 1700003600) (Some ["a2p:preferences"])
                   None None None 1700000000000 ]}))
       None 1700000000000 WARN [])) as (b & Hb & _ & Hfut).
  exists b. split; [exact Hb|].
  eapply Hfut.
  - apply lookup_singleton_eq.
  - reflexivity.
  - discriminate.
  - cbn. lia.
Defined.

(** C2 as the specification words it does not hold. An [expiresAt] so far
    in the past that [expiresAt * 1000] is beyond what a [Date] holds gives
    an Invalid Date, and the answer is false although the clock is past it;
    and a record whose [expiresAt] is 0 counts as expired also when the
    clock is before the epoch. *)
Lemma isTokenExpired_not_as_stated :
  let old := mkStored "t1" (Some (-8640000000001)) None None None None 0 in
  let w := mkWorld true (Some (Tokens {[ "svc1" := old ]})) None 1700000000000 WARN [] in
  let zero := mkStored "t1" (Some 0) None None None None 0 in
  let w0 := mkWorld true (Some (Tokens {[ "svc1" := zero ]})) None (-1) WARN [] in
  (result (isTokenExpired "svc1") w = Returned false ∧
   stored w !! "svc1" = Some old ∧ st_expiresAt old = Some (-8640000000001) ∧
   -8640000000001 * 1000 <= now w) ∧
  (result (isTokenExpired "svc1") w0 = Returned true ∧
   stored w0 !! "svc1" = Some zero ∧ st_expiresAt zero = Some 0 ∧
   now w0 < 0 * 1000).
Proof.
  intros old w zero w0. unfold result. rewrite !isTokenExpired_run. cbn [fst].
  assert (Hold : stored w !! "svc1" = Some old) by apply lookup_singleton_eq.
  assert (Hzero : stored w0 !! "svc1" = Some zero) by apply lookup_singleton_eq.
  rewrite Hold, Hzero. repeat split; try reflexivity; cbn; lia.
Qed.

(** C1. [getConnectionToken] returns null exactly when no record is stored
    under the id or [isTokenExpired] answers true for it, and the token of
    the stored record otherwise. *)
Theorem getConnectionToken_spec (id : string) (w : World) :
  ∃ expired,
    result (isTokenExpired id) w = Returned expired ∧
    result (ConnectionManager.getConnectionToken id) w =
      Returned (match stored w !! id with
                | None => None
                | Some r => if expired then None else Some (st_token r)
                end) ∧
    (result (ConnectionManager.getConnectionToken id) w = Returned None ↔
       stored w !! id = None ∨ expired = true).
Proof.
  exists (expired_at (now w) (stored w !! id)).
  assert (Hrun : result (ConnectionManager.getConnectionToken id) w =
                 Returned (match stored w !! id with
                           | None => None
                           | Some r => if expired_at (now w) (stored w !! id)
                                       then None else Some (st_token r)
                           end)).
  { unfold result. rewrite getConnectionToken_run. cbn [fst].
    by destruct (stored w !! id). }
  split; [|split].
  - unfold result. by rewrite isTokenExpired_run.
  - exact Hrun.
  - rewrite Hrun. destruct (stored w !! id) as [r|]; [|by split; [left|]].
    destruct (expired_at _ _); split; try done.
    + by right.
    + by intros [?|?].
Qed.










End StorageClaims.

(** * Properties of the error parser *)

Section ErrorParsing.

Lemma ERROR_CODES_described (c d : string) : assoc c ERROR_CODES = Some d → d ≠ "".
Proof.
  unfold ERROR_CODES. cbn [assoc].
  repeat (destruct (String.eqb c _); [by intros [= <-]|]). done.
Qed.

Lemma ERROR_CODES_at_string (c : string) :
  ERROR_CODES_at (Some (JStr c)) =
  match assoc c ERROR_CODES with
  | Some d => Some (Description d)
  | None => if inherited c then Some (Inherited c) else None
  end.
Proof.
  unfold ERROR_CODES_at. cbn [truthy js_String].
  destruct (String.eqb_spec c "") as [->|Hc]; cbn [negb]; [reflexivity|].
  destruct (assoc c ERROR_CODES) as [d|] eqn:Hd; [|reflexivity].
  apply ERROR_CODES_described in Hd.
  by destruct (String.eqb_spec d "").
Qed.

Lemma ERROR_CODES_at_text (c : string) :
  Looked_text <$> ERROR_CODES_at (Some (JStr c)) = code_text c.
Proof.
  rewrite ERROR_CODES_at_string. unfold code_text.
  destruct (assoc c ERROR_CODES); [done|]. by destruct (inherited c).
Qed.

Lemma message_of_error_object (response : Response) (o : list (string * json)) :
  (∀ v, assoc "message" o = Some v → ∃ m, v = JStr m) →
  json_or_else (prop "message" (JObj o))
               (JStr (or_else (statusText response) "Unknown error"))
  = JStr (base_message response o).
Proof.
  intros Hm. unfold base_message. cbn [prop].
  destruct (assoc "message" o) as [v|]; [|reflexivity].
  destruct (Hm v eq_refl) as [m ->]. cbn [json_or_else truthy].
  unfold or_else at 2. by destruct (String.eqb m "").
Qed.


End ErrorParsing.

(** * Properties of the code exchange *)

Section Steady.

Context {W : Type}.

Lemma steady_ret {A} (a : A) : steady (@ret W A a).
Proof. by exists (Returned a). Qed.

Lemma steady_throw {A} (e : Exn) : steady (@throw W A e).
Proof. by exists (Thrown e). Qed.

Lemma steady_lift {A} (o : Outcome A) : steady (@lift W A o).
Proof. by exists o. Qed.

Lemma steady_bind {A B} (c : M W A) (k : A → M W B) :
  steady c → (∀ a, steady (k a)) → steady (bind c k).
Proof.
  intros [o Ho] Hk. unfold bind. destruct o as [a|e].
  - destruct (Hk a) as [o' Ho']. exists o'. intros w. by rewrite Ho, Ho'.
  - exists (Thrown e). intros w. by rewrite Ho.
Qed.

Lemma steady_try_catch {A} (c : M W A) (h : Exn → M W A) :
  steady c → (∀ e, steady (h e)) → steady (try_catch c h).
Proof.
  intros [o Ho] Hh. unfold try_catch. destruct o as [a|e].
  - exists (Returned a). intros w. by rewrite Ho.
  - destruct (Hh e) as [o' Ho']. exists o'. intros w. by rewrite Ho, Ho'.
Qed.

Lemma steady_if {A} (b : bool) (c1 c2 : M W A) :
  steady c1 → steady c2 → steady (if b then c1 else c2).
Proof. by destruct b. Qed.

End Steady.

Create HintDb steady.
#[local] Hint Resolve steady_ret steady_throw steady_lift steady_if : steady.
#[local] Hint Extern 2 (steady (bind _ _)) => apply steady_bind; [|intros] : steady.
#[local] Hint Extern 2 (steady (try_catch _ _)) => apply steady_try_catch; [|intros] : steady.

Section Exchange.

Import OAuthFlow.

Lemma rethrow_steady {A} (this : t) (error : Exn) : steady (@rethrow A this error).
Proof.
  unfold rethrow. destruct error; auto with steady.
Qed.

Lemma bad_request_message_steady (response : Response) :
  steady (bad_request_message response).
Proof.
  unfold bad_request_message. apply steady_try_catch; [|auto with steady].
  apply steady_bind; [auto with steady|]. intros errorData.
  apply steady_bind; [destruct errorData; auto with steady|].
  intros [o|]; auto with steady.
Qed.

#[local] Hint Resolve rethrow_steady bad_request_message_steady : steady.

(** A request followed by steps that do not touch the world: the outcome
    is decided by the answer to the request, and the request is the one
    change to the world. *)
Lemma fetch_then_steady {A} (req : Request) (k : Response → M Env A) (h : Exn → M Env A) :
  (∀ r, steady (k r)) → (∀ e, steady (h e)) →
  ∀ env, ∃ o, try_catch (bind (fetch req) k) h env = (o, sent_more req env) ∧
              ∀ env', server env' req = server env req →
                      try_catch (bind (fetch req) k) h env' = (o, sent_more req env').
Proof.
  intros Hk Hh env. unfold try_catch, bind, fetch.
  destruct (server env req) as [r|e|] eqn:Hs.
  - destruct (Hk r) as [o Ho]. destruct o as [a|e].
    + exists (Returned a). split; [by rewrite Ho|].
      intros env' ->. by rewrite Ho.
    + destruct (Hh e) as [o' Ho']. exists o'. split; [by rewrite Ho, Ho'|].
      intros env' ->. by rewrite Ho, Ho'.
  - destruct (Hh (Native e)) as [o' Ho']. exists o'. split; [by rewrite Ho'|].
    intros env' ->. by rewrite Ho'.
  - destruct (Hh (Native (mkNativeError "AbortError" "This operation was aborted")))
      as [o' Ho'].
    exists o'. split; [by rewrite Ho'|]. intros env' ->. by rewrite Ho'.
Qed.

Lemma exchangeCode_run (this : t) (code : string) (state : option string) (env : Env) :
  ∃ o, exchangeCode this code state env = (o, sent_more (token_request this code) env) ∧
       ∀ state' env', server env' (token_request this code) =
                      server env (token_request this code) →
                      exchangeCode this code state' env' =
                      (o, sent_more (token_request this code) env').
Proof.
  unfold exchangeCode. fold (token_request this code).
  match goal with
  | |- context [try_catch (bind (fetch ?req) ?k) ?h] =>
      destruct (fetch_then_steady req k h) with (env := env) as (o & Ho & Hothers)
  end.
  - intros r. auto 10 with steady.
  - auto with steady.
  - exists o. split; [exact Ho|]. intros _ env' Hsame. by apply Hothers.
Qed.









(** C10. Two calls of [exchangeCode] for the same code with any two
    [state] arguments, absent or not, send the same one request (the token
    URL, a body with grant_type, code, client_id, client_secret and
    redirect_uri and nothing else) and, when the server answers it alike,
    end alike. *)
Theorem exchangeCode_ignores_state (this : t) (code : string) (s1 s2 : option string)
    (env1 env2 : Env) :
  server env1 (token_request this code) = server env2 (token_request this code) →
  result (exchangeCode this code s1) env1 = result (exchangeCode this code s2) env2 ∧
  after (exchangeCode this code s1) env1 = sent_more (token_request this code) env1 ∧
  after (exchangeCode this code s2) env2 = sent_more (token_request this code) env2 ∧
  req_url (token_request this code) = apiUrl this +:+ "/connect/token" ∧
  ∃ fields, req_body (token_request this code) = JObj fields ∧
            map fst fields =
              ["grant_type"; "code"; "client_id"; "client_secret"; "redirect_uri"] ∧
            assoc "code" fields = Some (JStr code).
Proof.
  intros Hsame.
  destruct (exchangeCode_run this code s2 env2) as (o & Ho & Hothers).
  unfold result, after. rewrite Ho, (Hothers s1 env1 Hsame). cbn [fst snd].
  repeat split. by eexists.
Qed.

Lemma exchangeCode_ignores_state_witness :
  result (exchangeCode (OAuthFlow.mk "svc" "secret" "https://svc.example/cb"
                          "https://api.gaugid.com" 30000) "abc" (Some "xyz"))
         (mkEnv (fun _ => TimedOut) [] (fun _ => Byte.x00) 0)
  = result (exchangeCode (OAuthFlow.mk "svc" "secret" "https://svc.example/cb"
                            "https://api.gaugid.com" 30000) "abc" None)
           (mkEnv (fun _ => TimedOut) [] (fun _ => Byte.x00) 0).
Proof.
  refine (proj1 (exchangeCode_ignores_state
                   (OAuthFlow.mk "svc" "secret" "https://svc.example/cb"
                      "https://api.gaugid.com" 30000) "abc" (Some "xyz") None
                   (mkEnv (fun _ => TimedOut) [] (fun _ => Byte.x00) 0)
                   (mkEnv (fun _ => TimedOut) [] (fun _ => Byte.x00) 0) eq_refl)).
Defined.

End Exchange.


(** * Strings, queries and the form encoding *)

Section Strings.

Ltac each_byte c := destruct c as [[] [] [] [] [] [] [] []].

Lemma append_cons (c : ascii) (a b : string) : String c a +:+ b = String c (a +:+ b).
Proof. reflexivity. Qed.

Lemma append_nil_l (b : string) : "" +:+ b = b.
Proof. reflexivity. Qed.

Lemma append_nil_r (s : string) : s +:+ "" = s.
Proof. induction s as [|c s IH]; [done|]. by rewrite append_cons, IH. Qed.

Lemma append_assoc (a b c : string) : (a +:+ b) +:+ c = a +:+ (b +:+ c).
Proof. induction a as [|x a IH]; [done|]. by rewrite !append_cons, IH. Qed.

Lemma all_chars_app (p : ascii → bool) (a b : string) :
  all_chars p (a +:+ b) = all_chars p a && all_chars p b.
Proof.
  induction a as [|c a IH]; [reflexivity|].
  rewrite append_cons. cbn [all_chars]. by rewrite IH, andb_assoc.
Qed.

Lemma all_chars_impl (p q : ascii → bool) (s : string) :
  (∀ c, p c = true → q c = true) → all_chars p s = true → all_chars q s = true.
Proof.
  intros Hpq. induction s as [|c s IH]; cbn [all_chars]; [done|].
  rewrite !andb_true_iff. intros [Hc Hs]. auto.
Qed.

Lemma all_chars_cons (p : ascii → bool) (c : ascii) (s : string) :
  all_chars p (String c s) = true ↔ p c = true ∧ all_chars p s = true.
Proof. cbn [all_chars]. apply andb_true_iff. Qed.

Lemma is_not_eqb (c x : ascii) : is_not c x = true ↔ Ascii.eqb x c = false.
Proof. unfold is_not. apply negb_true_iff. Qed.

Lemma before_app (c : ascii) (a b : string) :
  all_chars (is_not c) a = true → before c (a +:+ b) = a +:+ before c b.
Proof.
  induction a as [|x a IH]; [done|].
  rewrite all_chars_cons, is_not_eqb, !append_cons. intros [Hx Ha].
  cbn [before]. by rewrite Hx, IH.
Qed.

Lemma before_all (c : ascii) (a : string) :
  all_chars (is_not c) a = true → before c a = a.
Proof.
  intros Ha. rewrite <- (append_nil_r a) at 1.
  rewrite before_app by done. apply append_nil_r.
Qed.

Lemma after_first_app (c : ascii) (a b : string) :
  all_chars (is_not c) a = true → after_first c (a +:+ String c b) = Some b.
Proof.
  induction a as [|x a IH].
  - intros _. rewrite append_nil_l. cbn [after_first]. by rewrite Ascii.eqb_refl.
  - rewrite all_chars_cons, is_not_eqb, append_cons. intros [Hx Ha].
    cbn [after_first]. rewrite Hx. auto.
Qed.

Lemma split_on_app (sep : ascii) (a b : string) :
  all_chars (is_not sep) a = true →
  split_on sep (a +:+ String sep b) = a :: split_on sep b.
Proof.
  induction a as [|x a IH].
  - intros _. rewrite append_nil_l. cbn [split_on]. by rewrite Ascii.eqb_refl.
  - rewrite all_chars_cons, is_not_eqb, append_cons. intros [Hx Ha].
    cbn [split_on]. by rewrite Hx, IH.
Qed.

Lemma split_on_all (sep : ascii) (a : string) :
  all_chars (is_not sep) a = true → split_on sep a = [a].
Proof.
  induction a as [|x a IH]; [done|].
  rewrite all_chars_cons, is_not_eqb. intros [Hx Ha].
  cbn [split_on]. by rewrite Hx, IH.
Qed.

(** *** The form encoding *)

Lemma plus_to_space_app (a b : string) :
  plus_to_space (a +:+ b) = plus_to_space a +:+ plus_to_space b.
Proof.
  induction a as [|c a IH]; [done|].
  rewrite append_cons. cbn [plus_to_space]. by rewrite IH.
Qed.

Lemma decode_encoded_byte (c : ascii) (rest : string) :
  percent_decode (plus_to_space (form_encode_byte c) +:+ rest) =
  String c (percent_decode rest).
Proof. each_byte c; reflexivity. Qed.

Lemma form_decode_encode (s : string) : form_decode (form_encode s) = s.
Proof.
  unfold form_decode. induction s as [|c s IH]; cbn [form_encode]; [done|].
  by rewrite plus_to_space_app, decode_encoded_byte, IH.
Qed.

Lemma form_encode_byte_written (c : ascii) :
  all_chars form_written (form_encode_byte c) = true.
Proof. each_byte c; reflexivity. Qed.

Lemma form_encode_written (s : string) : all_chars form_written (form_encode s) = true.
Proof.
  induction s as [|c s IH]; cbn [form_encode]; [done|].
  by rewrite all_chars_app, form_encode_byte_written, IH.
Qed.

Lemma form_written_query (c : ascii) : form_written c = true → query_written c = true.
Proof. unfold query_written. by intros ->. Qed.

Lemma form_written_not_amp (c : ascii) : form_written c = true → is_not "&" c = true.
Proof. each_byte c; by vm_compute. Qed.

Lemma form_written_not_eq (c : ascii) : form_written c = true → is_not "=" c = true.
Proof. each_byte c; by vm_compute. Qed.

Lemma query_written_plain (c : ascii) : query_written c = true → plain c = true.
Proof. each_byte c; by vm_compute. Qed.

Lemma query_written_not_hash (c : ascii) : query_written c = true → is_not "#" c = true.
Proof. each_byte c; by vm_compute. Qed.

End Strings.

(** * The query of a URL *)

Section Query.

Lemma plain_not_tab_newline (c : ascii) : plain c = true → is_tab_or_newline c = false.
Proof. destruct c as [[] [] [] [] [] [] [] []]; by vm_compute. Qed.

Lemma strip_leading_app (a : string) (c : ascii) (q : string) :
  plain c = true →
  strip_leading (a +:+ String c q) = strip_leading a +:+ String c q.
Proof.
  intros Hc. induction a as [|x a IH].
  - rewrite append_nil_l. cbn [strip_leading].
    unfold plain in Hc. apply negb_true_iff in Hc. by rewrite Hc.
  - rewrite append_cons. cbn [strip_leading].
    destruct (is_c0_or_space x); [exact IH|]. by rewrite append_cons.
Qed.

Lemma strip_trailing_plain (t : string) :
  all_chars plain t = true → strip_trailing t = t.
Proof.
  induction t as [|c t IH]; [done|].
  rewrite all_chars_cons. intros [Hc Ht]. cbn [strip_trailing].
  unfold plain in Hc. apply negb_true_iff in Hc. by rewrite Hc, IH.
Qed.

Lemma strip_trailing_app (a t : string) :
  t ≠ "" → strip_trailing t = t → strip_trailing (a +:+ t) = a +:+ t.
Proof.
  intros Hne Ht. induction a as [|x a IH]; [by rewrite append_nil_l|].
  rewrite append_cons. cbn [strip_trailing]. rewrite IH.
  destruct a as [|y a]; [rewrite append_nil_l|rewrite append_cons].
  - destruct t; [done|]. by rewrite andb_false_r.
  - by rewrite andb_false_r.
Qed.

Lemma remove_tab_newline_app (a b : string) :
  remove_tab_newline (a +:+ b) = remove_tab_newline a +:+ remove_tab_newline b.
Proof.
  induction a as [|x a IH]; [done|].
  rewrite append_cons. cbn [remove_tab_newline].
  destruct (is_tab_or_newline x); [exact IH|]. by rewrite append_cons, IH.
Qed.

Lemma remove_tab_newline_plain (t : string) :
  all_chars plain t = true → remove_tab_newline t = t.
Proof.
  induction t as [|c t IH]; [done|].
  rewrite all_chars_cons. intros [Hc Ht]. cbn [remove_tab_newline].
  by rewrite (plain_not_tab_newline c Hc), IH.
Qed.

Lemma all_chars_strip_leading (p : ascii → bool) (s : string) :
  all_chars p s = true → all_chars p (strip_leading s) = true.
Proof.
  induction s as [|c s IH]; [done|].
  intros Hs. cbn [strip_leading]. destruct (is_c0_or_space c); [|done].
  apply IH. by apply all_chars_cons in Hs as [_ ?].
Qed.

Lemma all_chars_remove_tab_newline (p : ascii → bool) (s : string) :
  all_chars p s = true → all_chars p (remove_tab_newline s) = true.
Proof.
  induction s as [|c s IH]; [done|].
  rewrite all_chars_cons. intros [Hc Hs]. cbn [remove_tab_newline].
  destruct (is_tab_or_newline c); [auto|]. apply all_chars_cons. auto.
Qed.

(** A query appended to a base that has neither query nor fragment is the
    query the parser finds, provided it has no fragment sign and nothing
    the parser strips. *)
Lemma URL_searchParams_query (base q : string) :
  no_query_no_fragment base = true →
  all_chars plain q = true →
  all_chars (is_not "#") q = true →
  URL_searchParams (base +:+ "?" +:+ q) = form_parse q.
Proof.
  unfold no_query_no_fragment. rewrite andb_true_iff. intros [Hq Hf] Hplain Hhash.
  unfold URL_searchParams, URL_preprocess.
  rewrite append_cons, append_nil_l.
  assert (Htail : all_chars plain (String "?" q) = true) by (by apply all_chars_cons).
  rewrite strip_leading_app by done.
  rewrite strip_trailing_app by (by rewrite ?strip_trailing_plain).
  rewrite remove_tab_newline_app, (remove_tab_newline_plain (String "?" q)) by done.
  set (base' := remove_tab_newline (strip_leading base)).
  assert (Hq' : all_chars (is_not "?") base' = true)
    by (by apply all_chars_remove_tab_newline, all_chars_strip_leading).
  assert (Hf' : all_chars (is_not "#") base' = true)
    by (by apply all_chars_remove_tab_newline, all_chars_strip_leading).
  rewrite before_all by (rewrite all_chars_app, Hf'; by apply all_chars_cons).
  by rewrite after_first_app.
Qed.

(** Parsing undoes serializing. *)
Lemma form_parse_pair (k v : string) (rest : list string) :
  map (fun pair => (form_decode (before "=" pair),
                    form_decode (default "" (after_first "=" pair))))
      (List.filter (fun pair => negb (String.eqb pair ""))
                   ((form_encode k +:+ "=" +:+ form_encode v) :: rest))
  = (k, v) ::
    map (fun pair => (form_decode (before "=" pair),
                      form_decode (default "" (after_first "=" pair))))
        (List.filter (fun pair => negb (String.eqb pair "")) rest).
Proof.
  assert (Hk : all_chars (is_not "=") (form_encode k) = true).
  { eapply all_chars_impl; [apply form_written_not_eq|apply form_encode_written]. }
  cbn [List.filter].
  replace (String.eqb (form_encode k +:+ "=" +:+ form_encode v) "") with false.
  2: { symmetry. apply String.eqb_neq. destruct (form_encode k); discriminate. }
  cbn [negb map]. rewrite append_cons, append_nil_l.
  rewrite before_app, after_first_app by done.
  cbn [before default]. rewrite Ascii.eqb_refl, append_nil_r.
  unfold id. by rewrite !form_decode_encode.
Qed.

Lemma pair_written (kv : string * string) :
  all_chars (is_not "&") (form_encode (fst kv) +:+ "=" +:+ form_encode (snd kv)) = true.
Proof.
  assert (Henc : ∀ s, all_chars (is_not "&") (form_encode s) = true).
  { intros s. eapply all_chars_impl;
      [apply form_written_not_amp|apply form_encode_written]. }
  by rewrite !all_chars_app, !Henc.
Qed.

Lemma form_parse_toString (params : list (string * string)) :
  form_parse (URLSearchParams_toString params) = params.
Proof.
  unfold form_parse, URLSearchParams_toString.
  induction params as [|[k v] params IH]; [reflexivity|].
  destruct params as [|kv' params].
  - cbn [map join fst snd].
    rewrite split_on_all by apply (pair_written (k, v)).
    by rewrite form_parse_pair.
  - cbn [map join fst snd] in *.
    match goal with
    | |- context [?x +:+ "&" +:+ ?tail] =>
        change (x +:+ "&" +:+ tail) with (x +:+ String "&" tail)
    end.
    rewrite split_on_app by apply (pair_written (k, v)).
    rewrite form_parse_pair. by rewrite IH.
Qed.

Lemma URLSearchParams_toString_written (params : list (string * string)) :
  all_chars query_written (URLSearchParams_toString params) = true.
Proof.
  unfold URLSearchParams_toString.
  assert (Hpair : ∀ kv : string * string,
            all_chars query_written
              (form_encode (fst kv) +:+ "=" +:+ form_encode (snd kv)) = true).
  { assert (Henc : ∀ s, all_chars query_written (form_encode s) = true).
    { intros s. eapply all_chars_impl;
        [apply form_written_query|apply form_encode_written]. }
    intros kv. by rewrite !all_chars_app, !Henc. }
  induction params as [|kv params IH]; [reflexivity|].
  destruct params as [|kv' params]; [apply Hpair|].
  cbn [map join] in *. rewrite all_chars_app, Hpair, all_chars_app, IH. reflexivity.
Qed.

End Query.

(** * Properties of the redirect parser *)

Section RedirectClaims.

Import OAuthFlow.

Lemma default_nonempty (o : option string) : default "" (nonempty o) = default "" o.
Proof.
  destruct o as [s|]; [|done]. cbn [nonempty].
  by destruct (String.eqb_spec s "") as [->|].
Qed.

Lemma plus_to_space_kept (s : string) :
  all_chars kept_in_query s = true → plus_to_space s = s.
Proof.
  induction s as [|c s IH]; [done|].
  rewrite all_chars_cons. intros [Hc Hs]. cbn [plus_to_space]. rewrite IH by done.
  assert (Hplus : Ascii.eqb c "+" = false)
    by (revert Hc; destruct c as [[] [] [] [] [] [] [] []]; by vm_compute).
  by rewrite Hplus.
Qed.

Lemma percent_decode_no_escape (s : string) :
  has_escape s = false → percent_decode s = s.
Proof.
  induction s as [|c s IH]; [done|].
  cbn [has_escape]. intros [Hc Hs]%orb_false_iff. specialize (IH Hs).
  cbn [percent_decode]. rewrite IH.
  destruct (Ascii.eqb c "%"); [|done]. cbn [andb] in Hc.
  destruct s as [|h [|l rest]]; try done.
  by destruct (hex_val h), (hex_val l).
Qed.

Lemma verbatim_read (s : string) :
  verbatim s = true → utf8_decode (form_decode s) = s.
Proof.
  unfold verbatim, well_formed. rewrite !andb_true_iff, negb_true_iff.
  intros [[Hkept Hesc] Hwf%String.eqb_eq].
  unfold form_decode. by rewrite plus_to_space_kept, percent_decode_no_escape.
Qed.

Lemma kept_not_amp (c : ascii) : kept_in_query c = true → is_not "&" c = true.
Proof. destruct c as [[] [] [] [] [] [] [] []]; by vm_compute. Qed.

Lemma kept_not_hash (c : ascii) : kept_in_query c = true → is_not "#" c = true.
Proof. destruct c as [[] [] [] [] [] [] [] []]; by vm_compute. Qed.

Lemma kept_not_removed (c : ascii) : kept_in_query c = true → is_tab_or_newline c = false.
Proof. destruct c as [[] [] [] [] [] [] [] []]; by vm_compute. Qed.

Lemma remove_tab_newline_kept (s : string) :
  all_chars kept_in_query s = true → remove_tab_newline s = s.
Proof.
  induction s as [|c s IH]; [done|].
  rewrite all_chars_cons. intros [Hc Hs]. cbn [remove_tab_newline].
  by rewrite (kept_not_removed c Hc), IH.
Qed.

Lemma strip_trailing_ends_plain (s : string) : ends_plain s = true → strip_trailing s = s.
Proof.
  induction s as [|c s IH]; [done|]. cbn [ends_plain strip_trailing].
  destruct s as [|d s].
  - intros Hc. cbn [strip_trailing]. unfold plain in Hc.
    apply negb_true_iff in Hc. by rewrite Hc.
  - intros Hs. rewrite IH by done. by rewrite andb_false_r.
Qed.

(** The pairs the parser reads from [base?code=C&state=S]. *)
Lemma URL_searchParams_code_state (base C S : string) :
  no_query_no_fragment base = true →
  verbatim C = true → verbatim S = true → ends_plain S = true →
  URL_searchParams_text (base +:+ "?code=" +:+ C +:+ "&state=" +:+ S)
  = [("code", C); ("state", S)].
Proof.
  unfold no_query_no_fragment. rewrite andb_true_iff. intros [Hq Hf] HC HS Hend.
  assert (HCk : all_chars kept_in_query C = true)
    by (unfold verbatim in HC; rewrite !andb_true_iff in HC; tauto).
  assert (HSk : all_chars kept_in_query S = true)
    by (unfold verbatim in HS; rewrite !andb_true_iff in HS; tauto).
  set (q := "code=" +:+ C +:+ "&state=" +:+ S).
  assert (Hhash : all_chars (is_not "#") q = true).
  { subst q. rewrite !all_chars_app.
    rewrite (all_chars_impl _ _ C kept_not_hash HCk).
    by rewrite (all_chars_impl _ _ S kept_not_hash HSk). }
  assert (Hkept : remove_tab_newline q = q).
  { subst q. rewrite !remove_tab_newline_app.
    by rewrite (remove_tab_newline_kept C), (remove_tab_newline_kept S). }
  assert (Hsearch : URL_searchParams (base +:+ "?" +:+ q) = form_parse q).
  { unfold URL_searchParams, URL_preprocess.
    rewrite append_cons, append_nil_l.
    rewrite strip_leading_app by done.
    assert (Htail : strip_trailing (String "?" q) = String "?" q).
    { assert (Heq : String "?" q = ("?code=" +:+ (C +:+ "&state")) +:+ String "=" S).
      { subst q. rewrite !append_assoc. reflexivity. }
      rewrite Heq. apply strip_trailing_app; [done|].
      cbn [strip_trailing]. by rewrite (strip_trailing_ends_plain S Hend). }
    rewrite strip_trailing_app by done.
    rewrite remove_tab_newline_app.
    assert (Hrm : remove_tab_newline (String "?" q) = String "?" q).
    { cbn [remove_tab_newline is_tab_or_newline Ascii.eqb Bool.eqb orb].
      by rewrite Hkept. }
    rewrite Hrm.
    set (base' := remove_tab_newline (strip_leading base)).
    assert (Hq' : all_chars (is_not "?") base' = true)
      by (by apply all_chars_remove_tab_newline, all_chars_strip_leading).
    assert (Hf' : all_chars (is_not "#") base' = true)
      by (by apply all_chars_remove_tab_newline, all_chars_strip_leading).
    rewrite before_all.
    - by rewrite after_first_app.
    - rewrite all_chars_app, Hf'. by apply all_chars_cons. }
  unfold URL_searchParams_text.
  change (base +:+ "?code=" +:+ C +:+ "&state=" +:+ S) with (base +:+ "?" +:+ q).
  rewrite Hsearch. subst q. unfold form_parse.
  assert (HCamp : all_chars (is_not "&") ("code=" +:+ C) = true).
  { rewrite all_chars_app. by rewrite (all_chars_impl _ _ C kept_not_amp HCk). }
  assert (HSamp : all_chars (is_not "&") ("state=" +:+ S) = true).
  { rewrite all_chars_app. by rewrite (all_chars_impl _ _ S kept_not_amp HSk). }
  change ("code=" +:+ C +:+ "&state=" +:+ S)
    with ("code=" +:+ C +:+ String "&" ("state=" +:+ S)).
  rewrite <- append_assoc, split_on_app, split_on_all by done.
  rewrite !append_cons, !append_nil_l.
  cbn [List.filter String.eqb negb map before after_first default Ascii.eqb Bool.eqb
       fst snd].
  by rewrite !verbatim_read.
Qed.

(** C5, as the code has it. For a redirect URL the platform parses:
    appending [?code=C&state=S] to a base that has neither query nor
    fragment and passing [S] as the expected state returns exactly [C],
    when [C] is not empty, [C] and [S] are text the query hands back as it
    is (no [&], [#], [+], tab or newline, no percent escape, well-formed)
    and [S] does not end in a control or a space; a state that differs
    from the expected one, absent or not, makes the call throw a
    [GaugidAuthError]; so does an [error] parameter that is not empty, with
    a message made of it and of [error_description]; so does a [code] that
    is absent or empty. *)
Theorem parseAuthorizationResponse_spec (URL_canParse : string → bool) :
  (∀ base C S,
     URL_canParse (base +:+ "?code=" +:+ C +:+ "&state=" +:+ S) = true →
     no_query_no_fragment base = true →
     C ≠ "" → verbatim C = true → verbatim S = true → ends_plain S = true →
     parseAuthorizationResponse URL_canParse
       (base +:+ "?code=" +:+ C +:+ "&state=" +:+ S) S = Returned C) ∧
  (∀ url expected,
     URL_canParse url = true →
     URLSearchParams_get "state" (URL_searchParams_text url) ≠ Some expected →
     ∃ message, parseAuthorizationResponse URL_canParse url expected =
                Thrown (GaugidAuthError message None)) ∧
  (∀ url expected e,
     URL_canParse url = true →
     URLSearchParams_get "error" (URL_searchParams_text url) = Some e → e ≠ "" →
     parseAuthorizationResponse URL_canParse url expected =
       Thrown (GaugidAuthError
                 ("OAuth error: " +:+ e +:+ " - " +:+
                  default "" (URLSearchParams_get "error_description"
                                (URL_searchParams_text url))) None)) ∧
  (∀ url expected,
     URL_canParse url = true →
     URLSearchParams_get "code" (URL_searchParams_text url) = None ∨
     URLSearchParams_get "code" (URL_searchParams_text url) = Some "" →
     ∃ message, parseAuthorizationResponse URL_canParse url expected =
                Thrown (GaugidAuthError message None)).
Proof.
  split; [|split; [|split]].
  - intros base C S Hurl Hbase HC HCv HSv Hend.
    unfold parseAuthorizationResponse. rewrite Hurl. cbn [negb].
    rewrite URL_searchParams_code_state by done.
    unfold URLSearchParams_get.
    cbn [assoc String.eqb Ascii.eqb Bool.eqb nonempty].
    rewrite bool_decide_true by done. cbn [negb].
    by destruct (String.eqb_spec C "").
  - intros url expected Hurl Hstate.
    unfold parseAuthorizationResponse. rewrite Hurl. cbn [negb].
    destruct (nonempty (URLSearchParams_get "error" _)); [by eexists|].
    rewrite bool_decide_false by done. by eexists.
  - intros url expected e Hurl Herr He.
    unfold parseAuthorizationResponse. rewrite Hurl, Herr. cbn [negb nonempty].
    destruct (String.eqb_spec e "") as [->|_]; [done|].
    by rewrite default_nonempty.
  - intros url expected Hurl Hcode.
    unfold parseAuthorizationResponse. rewrite Hurl. cbn [negb].
    destruct (nonempty (URLSearchParams_get "error" _)); [by eexists|].
    destruct (negb _); [by eexists|].
    destruct Hcode as [-> | ->]; by eexists.
Qed.

Lemma parseAuthorizationResponse_spec_witness :
  parseAuthorizationResponse (fun _ => true)
    ("https://app.example/callback" +:+ "?code=" +:+ "Sp1x/aZ=09 ~" +:+ "&state=" +:+ "x:y z")
    "x:y z" = Returned "Sp1x/aZ=09 ~".
Proof.
  refine (proj1 (parseAuthorizationResponse_spec (fun _ => true))
            "https://app.example/callback" "Sp1x/aZ=09 ~" "x:y z"
            eq_refl eq_refl _ eq_refl eq_refl eq_refl).
  discriminate.
Defined.

(** C5 as the specification words it does not hold for every base, code
    and state. A [+] in the code comes back as a space, a code is cut at
    [&], a [#] starts the fragment and the state is lost, a percent escape
    comes back decoded, a tab or a newline is dropped, and the same
    characters in the state make it differ from the one expected; bytes
    that are not UTF-8 (in JavaScript, a lone surrogate) come back as
    U+FFFD, an empty code is refused, a space at the end of the state is
    stripped, a base that has a query or a fragment hides the parameters;
    and an [error] parameter that is empty is passed over. *)
Lemma parseAuthorizationResponse_not_verbatim :
  let parse := parseAuthorizationResponse (fun _ => true) in
  let base := "https://app.example/callback" in
  parse (base +:+ "?code=" +:+ "a+b" +:+ "&state=" +:+ "xyz") "xyz" = Returned "a b" ∧
  parse (base +:+ "?code=" +:+ "a&b" +:+ "&state=" +:+ "xyz") "xyz" = Returned "a" ∧
  parse (base +:+ "?code=" +:+ "a#b" +:+ "&state=" +:+ "xyz") "xyz"
    = Thrown (GaugidAuthError "State mismatch in OAuth callback" None) ∧
  parse (base +:+ "?code=" +:+ "a%41b" +:+ "&state=" +:+ "xyz") "xyz" = Returned "aAb" ∧
  parse (base +:+ "?code=" +:+ String "a" (String "009" "b") +:+ "&state=" +:+ "xyz") "xyz"
    = Returned "ab" ∧
  parse (base +:+ "?code=" +:+ String "a" (String "010" "b") +:+ "&state=" +:+ "xyz") "xyz"
    = Returned "ab" ∧
  parse (base +:+ "?code=" +:+ String "a" (String "013" "b") +:+ "&state=" +:+ "xyz") "xyz"
    = Returned "ab" ∧
  parse (base +:+ "?code=" +:+ "abc" +:+ "&state=" +:+ "x+y") "x+y"
    = Thrown (GaugidAuthError "State mismatch in OAuth callback" None) ∧
  parse (base +:+ "?code=" +:+ "abc" +:+ "&state=" +:+ "x&y") "x&y"
    = Thrown (GaugidAuthError "State mismatch in OAuth callback" None) ∧
  parse (base +:+ "?code=" +:+ "abc" +:+ "&state=" +:+ "x%41y") "x%41y"
    = Thrown (GaugidAuthError "State mismatch in OAuth callback" None) ∧
  parse (base +:+ "?code=" +:+ String (chr 255) "" +:+ "&state=" +:+ "xyz") "xyz"
    = Returned utf8_replacement ∧
  parse (base +:+ "?code=" +:+ "" +:+ "&state=" +:+ "xyz") "xyz"
    = Thrown (GaugidAuthError "Authorization code not found in redirect URL" None) ∧
  parse (base +:+ "?code=" +:+ "abc" +:+ "&state=" +:+ "xyz ") "xyz "
    = Thrown (GaugidAuthError "State mismatch in OAuth callback" None) ∧
  parse ("https://app.example/callback?next=home" +:+ "?code=" +:+ "abc" +:+
         "&state=" +:+ "xyz") "xyz"
    = Thrown (GaugidAuthError "Authorization code not found in redirect URL" None) ∧
  parse ("https://app.example/callback#top" +:+ "?code=" +:+ "abc" +:+
         "&state=" +:+ "xyz") "xyz"
    = Thrown (GaugidAuthError "State mismatch in OAuth callback" None) ∧
  parse "https://app.example/callback?error=&code=abc&state=xyz" "xyz" = Returned "abc".
Proof.
  repeat split; by vm_compute.
Qed.

End RedirectClaims.

(** * Properties of the authorization URL *)

Section Base64url.

Lemma list_ind3 {A} (P : list A → Prop) :
  P [] → (∀ a, P [a]) → (∀ a b, P [a; b]) →
  (∀ a b c l, P l → P (a :: b :: c :: l)) →
  ∀ l, P l.
Proof.
  intros H0 H1 H2 H3.
  assert (H : ∀ l, P l ∧ (∀ a, P (a :: l)) ∧ (∀ a b, P (a :: b :: l))).
  { induction l as [|x l (IH0 & IH1 & IH2)]; [by auto|].
    split; [apply IH1|]. split; [intros a; apply IH2|]. intros a b. by apply H3. }
  intros l. apply H.
Qed.

Ltac bits_of a :=
  let E := fresh "E" in
  destruct (Byte.to_bits a) as [? [? [? [? [? [? [? ?]]]]]]] eqn:E.

Lemma base64url_digit_char (b5 b4 b3 b2 b1 b0 : bool) :
  base64url_char (base64url_digit b5 b4 b3 b2 b1 b0) = true.
Proof. destruct b5, b4, b3, b2, b1, b0; reflexivity. Qed.

Lemma base64url_digit_inj (b5 b4 b3 b2 b1 b0 c5 c4 c3 c2 c1 c0 : bool) :
  base64url_digit b5 b4 b3 b2 b1 b0 = base64url_digit c5 c4 c3 c2 c1 c0 →
  b5 = c5 ∧ b4 = c4 ∧ b3 = c3 ∧ b2 = c2 ∧ b1 = c1 ∧ b0 = c0.
Proof.
  destruct b5, b4, b3, b2, b1, b0, c5, c4, c3, c2, c1, c0;
    intros H; first [done | by vm_compute in H].
Qed.

Lemma to_bits_inj (a b : Byte.byte) : Byte.to_bits a = Byte.to_bits b → a = b.
Proof.
  intros H. rewrite <- (Byte.of_bits_to_bits a), <- (Byte.of_bits_to_bits b).
  by rewrite H.
Qed.

Lemma base64url_has_length (l : list Byte.byte) :
  String.length (base64url l) = base64url_length (length l).
Proof.
  induction l as [|a|a b|a b c l IH] using list_ind3; cbn [base64url].
  - reflexivity.
  - bits_of a. reflexivity.
  - bits_of a. bits_of b. reflexivity.
  - bits_of a. bits_of b. bits_of c.
    cbn [String.length length base64url_length]. by rewrite IH.
Qed.

Lemma base64url_chars (l : list Byte.byte) :
  all_chars base64url_char (base64url l) = true.
Proof.
  induction l as [|a|a b|a b c l IH] using list_ind3; cbn [base64url].
  - reflexivity.
  - bits_of a. cbn [all_chars]. by rewrite !base64url_digit_char.
  - bits_of a. bits_of b. cbn [all_chars]. by rewrite !base64url_digit_char.
  - bits_of a. bits_of b. bits_of c. cbn [all_chars].
    by rewrite !base64url_digit_char, IH.
Qed.

Lemma base64url_inj (l1 l2 : list Byte.byte) :
  length l1 = length l2 → base64url l1 = base64url l2 → l1 = l2.
Proof.
  revert l2.
  induction l1 as [|a|a b|a b c l1 IH] using list_ind3; intros l2 Hlen.
  - by destruct l2.
  - destruct l2 as [|a' [|? ?]]; try discriminate Hlen. cbn [base64url].
    intros H. f_equal. apply to_bits_inj. revert H.
    bits_of a. bits_of a'. intros [= H1 H2].
    apply base64url_digit_inj in H1, H2. destruct_and!; by subst.
  - destruct l2 as [|a' [|b' [|? ?]]]; try discriminate Hlen. cbn [base64url].
    intros H. assert (a = a' ∧ b = b') as [-> ->]; [|done].
    split; apply to_bits_inj; revert H;
      bits_of a; bits_of a'; bits_of b; bits_of b'; intros [= H1 H2 H3];
      apply base64url_digit_inj in H1, H2, H3; destruct_and!; by subst.
  - destruct l2 as [|a' [|b' [|c' l2]]]; try discriminate Hlen. cbn [base64url].
    intros H. assert (a = a' ∧ b = b' ∧ c = c' ∧ base64url l1 = base64url l2)
      as (-> & -> & -> & Hrest).
    { revert H. repeat split; try apply to_bits_inj; revert H;
        bits_of a; bits_of a'; bits_of b; bits_of b'; bits_of c; bits_of c';
        intros [= H1 H2 H3 H4 H5];
        apply base64url_digit_inj in H1, H2, H3, H4; destruct_and!; by subst. }
    do 3 f_equal. apply IH; [|done]. by injection Hlen.
Qed.

End Base64url.

Section AuthorizationUrl.

Import OAuthFlow.

Lemma getAuthorizationUrl_run (this : t) (scopes : list string) (env : Env) :
  getAuthorizationUrl this scopes None env =
  (Returned (apiUrl this +:+ "/connect/authorize?" +:+
             URLSearchParams_toString
               (authorization_params this scopes (base64url (next_bytes 32 env))),
             base64url (next_bytes 32 env)),
   drawn_more 32 env).
Proof. reflexivity. Qed.

Lemma next_bytes_length (n : nat) (env : Env) : length (next_bytes n env) = n.
Proof. unfold next_bytes. by rewrite length_map, length_seq. Qed.

Lemma base64url_char_unreserved (c : ascii) :
  base64url_char c = true → unreserved c = true.
Proof. destruct c as [[] [] [] [] [] [] [] []]; by vm_compute. Qed.

(** C6. Without a [state] argument [getAuthorizationUrl] takes 32 bytes
    from the random source and returns their base64url form as the state:
    43 characters, each a letter, a digit, [-] or [_]. The URL is the
    authorize endpoint followed by a query that parses to [client_id],
    [redirect_uri], [response_type=code], [scope] with the scopes joined
    by commas, and [state]; the platform reads these same parameters from
    the URL when the API URL has neither query nor fragment. Two calls in
    a row return different states exactly when the random source gave
    different bytes. *)
Theorem getAuthorizationUrl_spec (this : t) (scopes scopes' : list string) (env : Env) :
  let state := base64url (next_bytes 32 env) in
  let env' := after (getAuthorizationUrl this scopes None) env in
  let state' := base64url (next_bytes 32 env') in
  ∃ authUrl query authUrl',
    result (getAuthorizationUrl this scopes None) env = Returned (authUrl, state) ∧
    authUrl = apiUrl this +:+ "/connect/authorize?" +:+ query ∧
    form_parse query = authorization_params this scopes state ∧
    URLSearchParams_get "scope" (form_parse query) = Some (join "," scopes) ∧
    (no_query_no_fragment (apiUrl this) = true →
     URL_searchParams authUrl = authorization_params this scopes state) ∧
    String.length state = 43%nat ∧
    all_chars base64url_char state = true ∧
    all_chars unreserved state = true ∧
    env' = drawn_more 32 env ∧
    result (getAuthorizationUrl this scopes' None) env' = Returned (authUrl', state') ∧
    (state' ≠ state ↔ next_bytes 32 env' ≠ next_bytes 32 env).
Proof.
  intros state env' state'. subst env'.
  unfold result, after. rewrite getAuthorizationUrl_run. cbn [fst snd].
  rewrite getAuthorizationUrl_run. cbn [fst].
  eexists _, (URLSearchParams_toString (authorization_params this scopes state)), _.
  split; [reflexivity|]. split; [reflexivity|].
  rewrite form_parse_toString.
  split; [reflexivity|]. split; [reflexivity|]. split.
  { intros Hbase.
    change (apiUrl this +:+ "/connect/authorize?" +:+ ?q)
      with (apiUrl this +:+ "/connect/authorize" +:+ "?" +:+ q).
    rewrite <- append_assoc.
    rewrite URL_searchParams_query; [apply form_parse_toString| | |].
    - unfold no_query_no_fragment in *. rewrite !all_chars_app.
      apply andb_true_iff in Hbase as [-> ->]. reflexivity.
    - eapply all_chars_impl; [apply query_written_plain|].
      apply URLSearchParams_toString_written.
    - eapply all_chars_impl; [apply query_written_not_hash|].
      apply URLSearchParams_toString_written. }
  split. { subst state. by rewrite base64url_has_length, next_bytes_length. }
  split; [apply base64url_chars|].
  split. { eapply all_chars_impl; [apply base64url_char_unreserved|apply base64url_chars]. }
  split; [reflexivity|]. split; [reflexivity|].
  split.
  - intros Hne Heq. apply Hne. exact (f_equal base64url Heq).
  - intros Hne Heq. apply Hne.
    apply base64url_inj; [by rewrite !next_bytes_length|exact Heq].
Qed.

Lemma getAuthorizationUrl_spec_witness :
  URL_searchParams
    (fst (match result (getAuthorizationUrl
                          (OAuthFlow.mk "svc" "secret" "https://svc.example/cb"
                             "https://api.gaugid.com" 30000)
                          ["a2p:preferences"; "a2p:interests"] None)
                 (mkEnv (fun _ => TimedOut) [] (fun _ => Byte.x00) 0) with
          | Returned r => r
          | Thrown _ => ("", "")
          end))
  = authorization_params
      (OAuthFlow.mk "svc" "secret" "https://svc.example/cb" "https://api.gaugid.com" 30000)
      ["a2p:preferences"; "a2p:interests"]
      "AAAAAAAAAAAAAAAAAAAAAAAAAAAAAAAAAAAAAAAAAAA".
Proof.
  destruct (getAuthorizationUrl_spec
              (OAuthFlow.mk "svc" "secret" "https://svc.example/cb"
                 "https://api.gaugid.com" 30000)
              ["a2p:preferences"; "a2p:interests"] []
              (mkEnv (fun _ => TimedOut) [] (fun _ => Byte.x00) 0))
    as (authUrl & query & authUrl' & Hrun & _ & _ & _ & Hurl & _).
  rewrite Hrun. cbn [fst]. exact (Hurl eq_refl).
Defined.

End AuthorizationUrl.

(** * Properties of the DID helpers *)

Section Dids.

Lemma strip_prefix_Some (p s r : string) : strip_prefix p s = Some r → s = p +:+ r.
Proof.
  revert s. induction p as [|a p IH]; intros s; cbn [strip_prefix].
  - by intros [= ->].
  - destruct s as [|b s]; [done|].
    destruct (Ascii.eqb_spec a b) as [->|]; [|done].
    intros H. rewrite append_cons. f_equal. by apply IH.
Qed.

Lemma strip_prefix_app (p r : string) : strip_prefix p (p +:+ r) = Some r.
Proof.
  induction p as [|a p IH]; [done|].
  rewrite append_cons. cbn [strip_prefix]. by rewrite Ascii.eqb_refl.
Qed.

Lemma after_first_Some (c : ascii) (s r : string) :
  after_first c s = Some r →
  s = before c s +:+ String c r ∧ all_chars (is_not c) (before c s) = true.
Proof.
  revert r. induction s as [|a s IH]; intros r; cbn [after_first before]; [done|].
  destruct (Ascii.eqb_spec a c) as [->|Hne].
  - by intros [= ->].
  - intros H. destruct (IH r H) as [Heq Hall].
    rewrite append_cons, <- Heq. split; [done|].
    apply all_chars_cons. split; [|done].
    apply is_not_eqb. by apply Ascii.eqb_neq.
Qed.

Lemma match_did_Some (did type namespace identifier : string) :
  match_did did = Some (type, namespace, identifier) ↔
  (type = "user" ∨ type = "agent") ∧
  namespace ≠ "" ∧ all_chars (is_not ":") namespace = true ∧
  identifier ≠ "" ∧ has_line_terminator identifier = false ∧
  did = "did:a2p:" +:+ type +:+ ":" +:+ namespace +:+ ":" +:+ identifier.
Proof.
  unfold match_did. split.
  - destruct (strip_prefix "did:a2p:" did) as [rest|] eqn:Hdid; [|done].
    apply strip_prefix_Some in Hdid. subst did.
    assert (Htyped : ∀ t r,
              match after_first ":" r with
              | Some i =>
                  if negb (String.eqb (before ":" r) "") && negb (String.eqb i "")
                     && negb (has_line_terminator i)
                  then Some (t, before ":" r, i) else None
              | None => None
              end = Some (type, namespace, identifier) →
              t = type ∧ namespace ≠ "" ∧ all_chars (is_not ":") namespace = true ∧
              identifier ≠ "" ∧ has_line_terminator identifier = false ∧
              r = namespace +:+ ":" +:+ identifier).
    { intros t r. destruct (after_first ":" r) as [i|] eqn:Hi; [|done].
      apply after_first_Some in Hi as [Hr Hns].
      destruct (String.eqb_spec (before ":" r) ""); [done|].
      destruct (String.eqb_spec i ""); [done|].
      destruct (has_line_terminator i) eqn:Hlt; [done|].
      cbn [negb andb]. intros [= <- <- <-]. done. }
    destruct (strip_prefix "user:" rest) as [r|] eqn:Hu.
    + apply strip_prefix_Some in Hu. subst rest. intros H.
      apply Htyped in H as (<- & ? & ? & ? & ? & ->). auto 10.
    + destruct (strip_prefix "agent:" rest) as [r|] eqn:Ha; [|done].
      apply strip_prefix_Some in Ha. subst rest. intros H.
      apply Htyped in H as (<- & ? & ? & ? & ? & ->). auto 10.
  - intros (Htype & Hns & Hcolon & Hid & Hlt & ->).
    rewrite strip_prefix_app.
    assert (Hb : before ":" (namespace +:+ ":" +:+ identifier) = namespace).
    { rewrite before_app by done. cbn [before]. rewrite append_cons. cbn [before].
      rewrite Ascii.eqb_refl. apply append_nil_r. }
    assert (Ha : after_first ":" (namespace +:+ ":" +:+ identifier) = Some identifier).
    { by rewrite append_cons, append_nil_l, after_first_app. }
    destruct Htype as [-> | ->].
    + change ("user" +:+ ":" +:+ ?x) with ("user:" +:+ x).
      rewrite strip_prefix_app, Ha, Hb, Hlt.
      destruct (String.eqb_spec namespace ""); [done|].
      by destruct (String.eqb_spec identifier "").
    + change ("agent" +:+ ":" +:+ ?x) with ("agent:" +:+ x).
      replace (strip_prefix "user:" ("agent:" +:+ namespace +:+ ":" +:+ identifier))
        with (@None string) by reflexivity.
      rewrite strip_prefix_app, Ha, Hb, Hlt.
      destruct (String.eqb_spec namespace ""); [done|].
      by destruct (String.eqb_spec identifier "").
Qed.

Lemma parseDid_Some_iff (did : string) (p : ParsedDid.t) :
  parseDid did = Some p ↔
  ParsedDid.method p = "a2p" ∧
  (ParsedDid.type p = "user" ∨ ParsedDid.type p = "agent") ∧
  ParsedDid.namespace p ≠ "" ∧
  all_chars (is_not ":") (ParsedDid.namespace p) = true ∧
  ParsedDid.identifier p ≠ "" ∧
  has_line_terminator (ParsedDid.identifier p) = false ∧
  did = "did:" +:+ ParsedDid.method p +:+ ":" +:+ ParsedDid.type p +:+ ":" +:+
        ParsedDid.namespace p +:+ ":" +:+ ParsedDid.identifier p.
Proof.
  unfold parseDid. destruct p as [m t n i]. cbn [ParsedDid.method ParsedDid.type
    ParsedDid.namespace ParsedDid.identifier]. split.
  - destruct (match_did did) as [[[t' n'] i']|] eqn:Hm; [|done].
    intros [= <- <- <- <-]. apply match_did_Some in Hm. tauto.
  - intros (-> & Ht & Hn & Hc & Hi & Hl & Hdid).
    assert (Hm : match_did did = Some (t, n, i)) by (apply match_did_Some; tauto).
    by rewrite Hm.
Qed.

(** X1. [parseDid] reads exactly the texts [did:a2p:<type>:<namespace>:<identifier>]
    with type user or agent, a namespace that is not empty and has no
    colon, and an identifier that is not empty and has no line terminator;
    the parts it returns put together give the text back, and the method is
    always a2p. *)
Theorem parseDid_iff (did : string) (p : ParsedDid.t) :
  parseDid did = Some p ↔
  ParsedDid.method p = "a2p" ∧
  (ParsedDid.type p = "user" ∨ ParsedDid.type p = "agent") ∧
  ParsedDid.namespace p ≠ "" ∧
  all_chars (is_not ":") (ParsedDid.namespace p) = true ∧
  ParsedDid.identifier p ≠ "" ∧
  has_line_terminator (ParsedDid.identifier p) = false ∧
  did = "did:" +:+ ParsedDid.method p +:+ ":" +:+ ParsedDid.type p +:+ ":" +:+
        ParsedDid.namespace p +:+ ":" +:+ ParsedDid.identifier p.
Proof. apply parseDid_Some_iff. Qed.

Lemma parseDid_iff_witness :
  parseDid "did:a2p:agent:gaugid:my-bot" = Some (ParsedDid.mk "a2p" "agent" "gaugid" "my-bot").
Proof.
  apply (proj2 (parseDid_iff "did:a2p:agent:gaugid:my-bot"
                  (ParsedDid.mk "a2p" "agent" "gaugid" "my-bot"))).
  cbn. repeat split; try done. by right.
Defined.

Lemma split_on_nonempty (sep : ascii) (s : string) : split_on sep s ≠ [].
Proof.
  destruct s as [|c s]; cbn [split_on]; [done|].
  destruct (Ascii.eqb c sep); [done|]. by destruct (split_on sep s).
Qed.

Lemma validateGaugidDid_parseDid (did : string) :
  (is_Some (parseDid did) → validateGaugidDid did = (true, None)) ∧
  (parseDid did = None →
   validateGaugidDid did =
     (false, Some ("Invalid DID format: " +:+ did +:+
                   ". Required format: did:a2p:<type>:<namespace>:<identifier>"))).
Proof.
  unfold validateGaugidDid, parseDid. split.
  - destruct (match_did did) as [[[t n] i]|] eqn:Hm; [|by intros [? ?]].
    intros _. rewrite bool_decide_true by by eexists. cbn [negb].
    apply match_did_Some in Hm as (Ht & Hn & Hc & Hi & Hl & ->).
    assert (Hparts : split_on ":" ("did:a2p:" +:+ t +:+ ":" +:+ n +:+ ":" +:+ i)
                     = "did" :: "a2p" :: t :: n :: split_on ":" i).
    { change ("did:a2p:" +:+ ?x) with ("did" +:+ String ":" ("a2p" +:+ String ":" x)).
      rewrite split_on_app by done. rewrite split_on_app by done.
      change (t +:+ ":" +:+ ?x) with (t +:+ String ":" x).
      rewrite split_on_app by (by destruct Ht as [-> | ->]).
      change (n +:+ ":" +:+ i) with (n +:+ String ":" i).
      by rewrite split_on_app. }
    rewrite Hparts. pose proof (split_on_nonempty ":" i).
    destruct (split_on ":" i); [done|]. cbn [length Nat.ltb Nat.leb nth].
    by destruct (String.eqb_spec n "").
  - destruct (match_did did) as [[[t n] i]|]; [done|]. intros _.
    rewrite bool_decide_false by by intros [? ?]. done.
Qed.

(** X2. [validateGaugidDid] accepts exactly the texts [parseDid] reads, and
    the message for every other text is the "Invalid DID format" one: the
    two "Namespace is required" branches are never taken. *)
Theorem validateGaugidDid_iff_parseDid (did : string) :
  (is_Some (parseDid did) → validateGaugidDid did = (true, None)) ∧
  (parseDid did = None →
   validateGaugidDid did =
     (false, Some ("Invalid DID format: " +:+ did +:+
                   ". Required format: did:a2p:<type>:<namespace>:<identifier>"))).
Proof. apply validateGaugidDid_parseDid. Qed.

Lemma validateGaugidDid_iff_parseDid_witness :
  validateGaugidDid "did:a2p:user:gaugid:alice" = (true, None) ∧
  validateGaugidDid "did:a2p:user:alice" =
    (false, Some ("Invalid DID format: did:a2p:user:alice" +:+
                  ". Required format: did:a2p:<type>:<namespace>:<identifier>")).
Proof.
  split.
  - apply (proj1 (validateGaugidDid_iff_parseDid "did:a2p:user:gaugid:alice")).
    by eexists.
  - apply (proj2 (validateGaugidDid_iff_parseDid "did:a2p:user:alice")).
    reflexivity.
Defined.

End Dids.

Section Sanitize.

Ltac each_byte c := destruct c as [[] [] [] [] [] [] [] []].

Lemma prefix_hyphen_nil : String.prefix "-" "" = false.
Proof. reflexivity. Qed.

Lemma prefix_hyphen_cons (b : ascii) (r : string) :
  String.prefix "-" (String b r) = is_hyphen b.
Proof.
  unfold is_hyphen. cbn [String.prefix].
  destruct (ascii_dec "-" b) as [<-|Hne].
  - by destruct r.
  - symmetry. apply Ascii.eqb_neq. congruence.
Qed.

Lemma no_double_cons (a : ascii) (s : string) :
  no_double_hyphen (String a s) =
  negb (is_hyphen a && String.prefix "-" s) && no_double_hyphen s.
Proof. reflexivity. Qed.

Lemma sanitizeIdentifier_unfold (name : string) :
  sanitizeIdentifier name =
  trim_hyphens (collapse_hyphens (map_bytes unsafe_to_hyphen
                                    (map_bytes toLowerCase_byte name))).
Proof. reflexivity. Qed.

Lemma map_unsafe_safe (s : string) :
  all_chars did_safe (map_bytes unsafe_to_hyphen s) = true.
Proof.
  induction s as [|c s IH]; [done|]. cbn [map_bytes all_chars]. rewrite IH.
  unfold unsafe_to_hyphen. by destruct (did_safe c) eqn:E; rewrite ?E.
Qed.

Lemma collapse_all_chars (p : ascii → bool) (s : string) :
  all_chars p s = true → all_chars p (collapse_hyphens s) = true.
Proof.
  induction s as [|c s IH]; [done|]. rewrite all_chars_cons. intros [Hc Hs].
  cbn [collapse_hyphens]. destruct (_ && _); [auto|].
  apply all_chars_cons. auto.
Qed.

Lemma collapse_no_double (s : string) : no_double_hyphen (collapse_hyphens s) = true.
Proof.
  induction s as [|c s IH]; [done|]. cbn [collapse_hyphens].
  destruct (Ascii.eqb c "-" && String.prefix "-" (collapse_hyphens s)) eqn:E; [done|].
  cbn [no_double_hyphen]. unfold is_hyphen. by rewrite E, IH.
Qed.

Lemma drop_last_cons (c : ascii) (s : string) :
  s ≠ "" → drop_last_hyphen (String c s) = String c (drop_last_hyphen s).
Proof. by destruct s. Qed.

Lemma drop_last_all_chars (p : ascii → bool) (s : string) :
  all_chars p s = true → all_chars p (drop_last_hyphen s) = true.
Proof.
  induction s as [|c s IH]; [done|]. rewrite all_chars_cons. intros [Hc Hs].
  destruct s as [|d s].
  - cbn [drop_last_hyphen]. destruct (Ascii.eqb c "-"); [done|]. by apply all_chars_cons.
  - rewrite drop_last_cons by done. apply all_chars_cons. auto.
Qed.

Lemma drop_last_prefix (s : string) :
  String.prefix "-" (drop_last_hyphen s) = true → String.prefix "-" s = true.
Proof.
  destruct s as [|c s]; [done|]. destruct s as [|d s].
  - cbn [drop_last_hyphen]. destruct (Ascii.eqb c "-"); [done|]. done.
  - rewrite drop_last_cons by done. by rewrite !prefix_hyphen_cons.
Qed.

Lemma drop_last_no_double (s : string) :
  no_double_hyphen s = true → no_double_hyphen (drop_last_hyphen s) = true.
Proof.
  induction s as [|c s IH]; [done|]. destruct s as [|d s].
  - cbn [drop_last_hyphen]. by destruct (Ascii.eqb c "-").
  - rewrite drop_last_cons by done. rewrite !(no_double_cons c).
    rewrite !andb_true_iff, !negb_true_iff. intros [Hcd Hs].
    split; [|by apply IH].
    destruct (is_hyphen c); [|done]. cbn [andb] in *.
    destruct (String.prefix "-" (drop_last_hyphen (String d s))) eqn:E; [|done].
    apply drop_last_prefix in E. congruence.
Qed.

Lemma drop_last_ends (s : string) :
  no_double_hyphen s = true → ends_with_hyphen (drop_last_hyphen s) = false.
Proof.
  induction s as [|c s IH]; [done|]. destruct s as [|d s].
  - cbn [drop_last_hyphen]. unfold is_hyphen.
    destruct (Ascii.eqb c "-") eqn:E; [done|]. cbn [ends_with_hyphen]. done.
  - rewrite drop_last_cons by done. rewrite (no_double_cons c).
    rewrite andb_true_iff, negb_true_iff, prefix_hyphen_cons. intros [Hcd Hs].
    specialize (IH Hs).
    destruct (drop_last_hyphen (String d s)) as [|e r] eqn:E.
    + cbn [ends_with_hyphen].
      destruct s as [|? ?]; [|by rewrite drop_last_cons in E].
      cbn [drop_last_hyphen] in E. unfold is_hyphen in *.
      destruct (Ascii.eqb d "-"); [|done]. by rewrite andb_true_r in Hcd.
    + exact IH.
Qed.

Lemma sanitizeIdentifier_form (name : string) :
  sanitized (sanitizeIdentifier name) = true.
Proof.
  rewrite sanitizeIdentifier_unfold.
  set (m := map_bytes unsafe_to_hyphen _).
  assert (Hsafe : all_chars did_safe (collapse_hyphens m) = true)
    by apply collapse_all_chars, map_unsafe_safe.
  pose proof (collapse_no_double m) as Hnd.
  destruct (collapse_hyphens m) as [|c s] eqn:Ec; [done|].
  unfold sanitized, trim_hyphens.
  destruct (Ascii.eqb c "-") eqn:Ehy.
  - cbn [no_double_hyphen] in Hnd. unfold is_hyphen in Hnd. rewrite Ehy in Hnd.
    apply andb_true_iff in Hnd as [Hpre Hnd]. apply negb_true_iff in Hpre.
    cbn [andb] in Hpre. apply all_chars_cons in Hsafe as [_ Hsafe].
    rewrite drop_last_all_chars, drop_last_no_double, drop_last_ends by done.
    destruct (String.prefix "-" (drop_last_hyphen s)) eqn:E; [|done].
    apply drop_last_prefix in E. congruence.
  - rewrite drop_last_all_chars, drop_last_no_double, drop_last_ends by done.
    destruct (String.prefix "-" (drop_last_hyphen (String c s))) eqn:E; [|done].
    apply drop_last_prefix in E. rewrite prefix_hyphen_cons in E.
    unfold is_hyphen in E. congruence.
Qed.

Lemma lower_safe (c : ascii) : did_safe c = true → toLowerCase_byte c = c.
Proof. each_byte c; by vm_compute. Qed.

Lemma map_bytes_id (f : ascii → ascii) (p : ascii → bool) (s : string) :
  (∀ c, p c = true → f c = c) → all_chars p s = true → map_bytes f s = s.
Proof.
  intros Hf. induction s as [|c s IH]; [done|]. rewrite all_chars_cons.
  intros [Hc Hs]. cbn [map_bytes]. by rewrite Hf, IH.
Qed.

Lemma collapse_id (s : string) : no_double_hyphen s = true → collapse_hyphens s = s.
Proof.
  induction s as [|c s IH]; [done|]. cbn [no_double_hyphen collapse_hyphens].
  rewrite andb_true_iff, negb_true_iff. intros [Hc Hs]. rewrite (IH Hs).
  unfold is_hyphen in Hc. by rewrite Hc.
Qed.

Lemma drop_last_id (s : string) : ends_with_hyphen s = false → drop_last_hyphen s = s.
Proof.
  induction s as [|c s IH]; [done|]. destruct s as [|d s].
  - cbn [ends_with_hyphen drop_last_hyphen]. unfold is_hyphen. by intros ->.
  - intros H. rewrite drop_last_cons by done. f_equal. by apply IH.
Qed.

Lemma sanitized_fixed (s : string) : sanitized s = true → sanitizeIdentifier s = s.
Proof.
  unfold sanitized. rewrite !andb_true_iff, !negb_true_iff.
  intros [[[Hsafe Hnd] Hpre] Hend]. rewrite sanitizeIdentifier_unfold.
  rewrite (map_bytes_id _ did_safe s lower_safe Hsafe).
  rewrite (map_bytes_id unsafe_to_hyphen did_safe s) by
    (done || (intros c Hc; unfold unsafe_to_hyphen; by rewrite Hc)).
  rewrite collapse_id by done. unfold trim_hyphens.
  destruct s as [|c s]; [done|]. rewrite prefix_hyphen_cons in Hpre.
  unfold is_hyphen in Hpre. rewrite Hpre. by apply drop_last_id.
Qed.


Lemma mapped_hyphen (c : ascii) :
  is_hyphen (unsafe_to_hyphen (toLowerCase_byte c)) = negb (is_alnum c).
Proof. each_byte c; by vm_compute. Qed.

Lemma mapped_all_hyphens (s : string) :
  all_chars is_hyphen (map_bytes unsafe_to_hyphen (map_bytes toLowerCase_byte s)) =
  all_chars (fun c => negb (is_alnum c)) s.
Proof.
  induction s as [|c s IH]; [done|]. cbn [map_bytes all_chars].
  by rewrite mapped_hyphen, IH.
Qed.

Lemma collapse_all_hyphens (s : string) :
  all_chars is_hyphen (collapse_hyphens s) = all_chars is_hyphen s.
Proof.
  induction s as [|c s IH]; [done|]. cbn [collapse_hyphens all_chars].
  destruct (Ascii.eqb c "-" && String.prefix "-" (collapse_hyphens s)) eqn:E.
  - apply andb_true_iff in E as [Ec _]. unfold is_hyphen at 2. by rewrite Ec, IH.
  - cbn [all_chars]. by rewrite IH.
Qed.

Lemma drop_last_all_hyphens (s : string) :
  all_chars is_hyphen (drop_last_hyphen s) = all_chars is_hyphen s.
Proof.
  induction s as [|c s IH]; [done|]. destruct s as [|d s].
  - cbn [drop_last_hyphen]. unfold is_hyphen at 2.
    destruct (Ascii.eqb c "-") eqn:E; [|done]. cbn [all_chars]. unfold is_hyphen.
    by rewrite E.
  - rewrite drop_last_cons by done. cbn [all_chars] in *. by rewrite IH.
Qed.

Lemma sanitizeIdentifier_empty (name : string) :
  sanitizeIdentifier name = "" ↔ has_alnum name = false.
Proof.
  unfold has_alnum. rewrite negb_false_iff, <- mapped_all_hyphens,
    <- collapse_all_hyphens.
  pose proof (sanitizeIdentifier_form name) as Hs.
  rewrite sanitizeIdentifier_unfold in *.
  set (c := collapse_hyphens _) in *.
  assert (Hall : all_chars is_hyphen (trim_hyphens c) = all_chars is_hyphen c).
  { unfold trim_hyphens. destruct c as [|x c']; [done|].
    destruct (Ascii.eqb x "-") eqn:E.
    - rewrite drop_last_all_hyphens. cbn [all_chars]. unfold is_hyphen at 2.
      by rewrite E.
    - apply drop_last_all_hyphens. }
  rewrite <- Hall. destruct (trim_hyphens c) as [|x t]; [done|].
  split; [done|]. intros Hhy. exfalso.
  unfold sanitized in Hs. rewrite !andb_true_iff, !negb_true_iff in Hs.
  destruct Hs as [[[_ _] Hpre] _]. rewrite prefix_hyphen_cons in Hpre.
  apply all_chars_cons in Hhy as [Hx _]. congruence.
Qed.

Lemma safe_no_line_terminator (s : string) :
  all_chars did_safe s = true → has_line_terminator s = false.
Proof.
  induction s as [|c s IH]; [done|]. rewrite all_chars_cons. intros [Hc Hs].
  cbn [has_line_terminator]. rewrite (IH Hs).
  assert (Ascii.eqb c "010" = false ∧ Ascii.eqb c "013" = false ∧
          Ascii.eqb c "226" = false) as (-> & -> & ->); [|done].
  revert Hc. each_byte c; by vm_compute.
Qed.

(** X3. For an ASCII name [sanitizeIdentifier] returns a text of
    lower-case letters, digits and hyphens with no two hyphens in a row and
    no hyphen at either end; the text is empty exactly when the name has no
    letter and no digit. *)
Theorem sanitizeIdentifier_sanitized (name : string) :
  all_chars is_ascii name = true →
  sanitized (sanitizeIdentifier name) = true ∧
  (sanitizeIdentifier name = "" ↔ has_alnum name = false).
Proof.
  intros _. split; [apply sanitizeIdentifier_form|apply sanitizeIdentifier_empty].
Qed.

Lemma sanitizeIdentifier_sanitized_witness :
  sanitized (sanitizeIdentifier "My Assistant!! v2") = true ∧
  (sanitizeIdentifier "My Assistant!! v2" = "" ↔ has_alnum "My Assistant!! v2" = false).
Proof. exact (sanitizeIdentifier_sanitized "My Assistant!! v2" eq_refl). Defined.

(** X4. For an ASCII name, sanitizing twice is sanitizing once; and a text
    that already has the sanitized form is returned as it is. *)
Theorem sanitizeIdentifier_idempotent (name : string) :
  all_chars is_ascii name = true →
  sanitizeIdentifier (sanitizeIdentifier name) = sanitizeIdentifier name ∧
  (sanitized name = true → sanitizeIdentifier name = name).
Proof.
  intros _. split; [|apply sanitized_fixed].
  apply sanitized_fixed, sanitizeIdentifier_form.
Qed.

Lemma sanitizeIdentifier_idempotent_witness :
  sanitizeIdentifier (sanitizeIdentifier "--Claude  Bot--") =
  sanitizeIdentifier "--Claude  Bot--".
Proof. exact (proj1 (sanitizeIdentifier_idempotent "--Claude  Bot--" eq_refl)). Defined.

End Sanitize.

Section GenerateDids.

Lemma identifier_char (i : nat) :
  (i < 62)%nat →
  ∃ c, charAt i identifier_chars = String c "" ∧ is_alnum c = true.
Proof.
  intros Hi.
  do 62 (destruct i as [|i]; [by eexists|]). lia.
Qed.

Lemma random_identifier_loop_run (k : nat) (acc : string) (p : Proc) :
  ∃ suffix,
    random_identifier_loop k acc p = (Returned (acc +:+ suffix), rolled_more k p) ∧
    String.length suffix = k ∧ all_chars is_alnum suffix = true.
Proof.
  revert acc p. induction k as [|k IH]; intros acc p.
  - exists "". rewrite append_nil_r. repeat split.
    destruct p as [e r n]. unfold rolled_more. cbn. by rewrite Nat.add_0_r.
  - cbn [random_identifier_loop]. unfold bind at 1, Math_random_below.
    destruct (identifier_char (rolls p (rolled p) mod 62)) as (c & Hc & Halnum).
    { apply Nat.mod_upper_bound. done. }
    change (String.length identifier_chars) with 62%nat. rewrite Hc.
    edestruct IH as (suffix & Hrun & Hlen & Hall). rewrite Hrun.
    exists (String c suffix). split; [|split].
    + rewrite append_assoc. f_equal.
      destruct p as [e r n]. unfold rolled_more. cbn. f_equal. lia.
    + cbn [String.length]. by rewrite Hlen.
    + apply all_chars_cons. done.
Qed.

Lemma alnum_no_line_terminator (s : string) :
  all_chars is_alnum s = true → has_line_terminator s = false.
Proof.
  induction s as [|c s IH]; [done|]. rewrite all_chars_cons. intros [Hc Hs].
  cbn [has_line_terminator]. rewrite (IH Hs).
  assert (Ascii.eqb c "010" = false ∧ Ascii.eqb c "013" = false ∧
          Ascii.eqb c "226" = false) as (-> & -> & ->); [|done].
  revert Hc. destruct c as [[] [] [] [] [] [] [] []]; by vm_compute.
Qed.

(** X5. With a namespace that has no colon and no identifier given,
    [generateUserDid] takes twelve numbers from the random source and
    returns [did:a2p:user:<namespace>:<identifier>] with an identifier of
    twelve letters and digits; [validateGaugidDid] accepts it and
    [parseDid] gives the namespace and the identifier back. Without a
    namespace, given or in the environment, it throws. *)
Theorem generateUserDid_generated (namespace : string) (p : Proc) :
  namespace ≠ "" → all_chars (is_not ":") namespace = true →
  (∃ identifier,
     generateUserDid (Some namespace) None p =
       (Returned ("did:a2p:user:" +:+ namespace +:+ ":" +:+ identifier),
        rolled_more 12 p) ∧
     String.length identifier = 12%nat ∧
     all_chars is_alnum identifier = true ∧
     validateGaugidDid ("did:a2p:user:" +:+ namespace +:+ ":" +:+ identifier) = (true, None) ∧
     parseDid ("did:a2p:user:" +:+ namespace +:+ ":" +:+ identifier) =
       Some (ParsedDid.mk "a2p" "user" namespace identifier)) ∧
  (GAUGID_NAMESPACE p = None ∨ GAUGID_NAMESPACE p = Some "" →
   ∀ identifier, generateUserDid None identifier p = (Thrown namespace_required, p)).
Proof.
  intros Hns Hcolon. split.
  - destruct (random_identifier_loop_run 12 "" p) as (identifier & Hrun & Hlen & Hall).
    rewrite append_nil_l in Hrun. exists identifier.
    assert (Hparse : parseDid ("did:a2p:user:" +:+ namespace +:+ ":" +:+ identifier) =
                     Some (ParsedDid.mk "a2p" "user" namespace identifier)).
    { apply parseDid_Some_iff. cbn. repeat split; try done; [by left| |].
      - intros ->. discriminate Hlen.
      - by apply alnum_no_line_terminator. }
    split; [|split; [done|split; [done|split; [|done]]]].
    + unfold generateUserDid, bind, env_GAUGID_NAMESPACE. cbn [nonempty].
      destruct (String.eqb_spec namespace ""); [done|].
      unfold generateRandomIdentifier. by rewrite Hrun.
    + apply validateGaugidDid_parseDid. rewrite Hparse. by eexists.
  - intros Henv identifier. unfold generateUserDid, bind, env_GAUGID_NAMESPACE.
    by destruct Henv as [-> | ->].
Qed.

Lemma generateUserDid_generated_witness :
  result (generateUserDid (Some "gaugid") None) (mkProc None (fun n => (n * 7)%nat) 0)
  = Returned "did:a2p:user:gaugid:AHOVcjqx4BIP".
Proof.
  destruct (proj1 (generateUserDid_generated "gaugid"
                     (mkProc None (fun n => (n * 7)%nat) 0)
                     ltac:(discriminate) eq_refl))
    as (identifier & Hrun & _).
  unfold result. rewrite Hrun. cbn [fst].
  apply (f_equal fst) in Hrun. vm_compute in Hrun. exact (eq_sym Hrun).
Defined.

(** X6. With a namespace that has no colon and an ASCII name, and no
    identifier, [generateAgentDid] returns
    [did:a2p:agent:<namespace>:<sanitized name>] and takes nothing from the
    random source. When the name has a letter or a digit the result is a
    DID [validateGaugidDid] accepts; when it has none the identifier is
    empty and the result is refused by [validateGaugidDid] and by
    [parseDid]. *)
Theorem generateAgentDid_named (name namespace : string) (p : Proc) :
  namespace ≠ "" → all_chars (is_not ":") namespace = true →
  name ≠ "" → all_chars is_ascii name = true →
  let did := "did:a2p:agent:" +:+ namespace +:+ ":" +:+ sanitizeIdentifier name in
  generateAgentDid (Some name) (Some namespace) None p = (Returned did, p) ∧
  (has_alnum name = true →
   validateGaugidDid did = (true, None) ∧
   parseDid did = Some (ParsedDid.mk "a2p" "agent" namespace (sanitizeIdentifier name))) ∧
  (has_alnum name = false →
   did = "did:a2p:agent:" +:+ namespace +:+ ":" ∧
   parseDid did = None ∧ fst (validateGaugidDid did) = false).
Proof.
  intros Hns Hcolon Hname Hascii did. split; [|split].
  - unfold generateAgentDid, bind, env_GAUGID_NAMESPACE. cbn [nonempty].
    destruct (String.eqb_spec namespace ""); [done|].
    by destruct (String.eqb_spec name "").
  - intros Halnum.
    assert (Hparse : parseDid did =
                     Some (ParsedDid.mk "a2p" "agent" namespace (sanitizeIdentifier name))).
    { apply parseDid_Some_iff. cbn. repeat split; try done; [by right| |].
      - intros Hempty. apply sanitizeIdentifier_empty in Hempty. congruence.
      - apply safe_no_line_terminator.
        pose proof (sanitizeIdentifier_form name) as Hs. unfold sanitized in Hs.
        rewrite !andb_true_iff in Hs. tauto. }
    split; [|done]. apply validateGaugidDid_parseDid. rewrite Hparse. by eexists.
  - intros Halnum. apply sanitizeIdentifier_empty in Halnum. subst did.
    rewrite Halnum. split; [done|].
    assert (Hnone : parseDid ("did:a2p:agent:" +:+ namespace +:+ ":" +:+ "") = None).
    { unfold parseDid, match_did.
      change ("did:a2p:agent:" +:+ ?x) with ("did:a2p:" +:+ "agent:" +:+ x).
      rewrite strip_prefix_app.
      replace (strip_prefix "user:" ("agent:" +:+ namespace +:+ ":" +:+ ""))
        with (@None string) by reflexivity.
      rewrite strip_prefix_app.
      change (namespace +:+ ":" +:+ "") with (namespace +:+ String ":" "").
      rewrite after_first_app by done. cbn [String.eqb negb].
      by rewrite andb_false_r. }
    split; [done|].
    by rewrite (proj2 (validateGaugidDid_parseDid _) Hnone).
Qed.

Lemma generateAgentDid_named_witness :
  generateAgentDid (Some "My Bot") (Some "gaugid") None (mkProc None (fun n => n) 0)
  = (Returned "did:a2p:agent:gaugid:my-bot", mkProc None (fun n => n) 0) ∧
  parseDid "did:a2p:agent:gaugid:" = None.
Proof.
  split.
  - exact (proj1 (generateAgentDid_named "My Bot" "gaugid" (mkProc None (fun n => n) 0)
                    ltac:(discriminate) eq_refl ltac:(discriminate) eq_refl)).
  - exact (proj1 (proj2 (proj2 (proj2 (generateAgentDid_named "!!!" "gaugid"
                    (mkProc None (fun n => n) 0)
                    ltac:(discriminate) eq_refl ltac:(discriminate) eq_refl)) eq_refl))).
Defined.

End GenerateDids.

(** * More properties of the OAuth helper *)

Section ExchangeMore.

Import OAuthFlow.

Lemma z_records_of_objects (path : string) (ps : list Profile) :
  z_records_optional path (Some (JArr (map JObj ps))) = inl (Some ps).
Proof.
  unfold z_records_optional.
  assert (Hall : forallb (fun i => match i with JObj _ => true | _ => false end)
                   (map JObj ps) = true) by (by induction ps).
  rewrite Hall. do 2 f_equal. induction ps as [|p ps IH]; [done|].
  cbn [map flat_map]. by rewrite IH.
Qed.

Lemma exchangeCode_ok (this : t) (code : string) (state : option string)
    (env : Env) (r : Response) (data : json) :
  server env (token_request this code) = Responded r →
  ok r = true → body r = Json data →
  exchangeCode this code state env =
  (match OAuthTokenResponseSchema_parse data with
   | Returned a => Returned a
   | Thrown e =>
       Thrown (GaugidConnectionError
                 ("Failed to connect to Gaugid API: " +:+ Exn_toString e) e)
   end, sent_more (token_request this code) env).
Proof.
  intros Hs Hok Hb. unfold exchangeCode. fold (token_request this code).
  unfold try_catch at 1, bind at 1, fetch. rewrite Hs.
  assert (H401 : (status r =? 401) = false).
  { unfold ok in Hok. apply andb_true_iff in Hok as [_ H%Z.leb_le]. apply Z.eqb_neq. lia. }
  assert (H400 : (status r =? 400) = false).
  { unfold ok in Hok. apply andb_true_iff in Hok as [_ H%Z.leb_le]. apply Z.eqb_neq. lia. }
  rewrite H401, H400, Hok. cbn [negb].
  unfold bind, lift, Response_json. rewrite Hb.
  destruct (OAuthTokenResponseSchema_parse data) as [a|e] eqn:Hp; [done|].
  unfold OAuthTokenResponseSchema_parse in Hp.
  assert (He : ∃ m, e = Native (mkNativeError "ZodError" m)).
  { destruct data; try (injection Hp as <-; by eexists).
    repeat match type of Hp with
           | context [match ?x with inl _ => _ | inr _ => _ end] => destruct x
           end; try discriminate Hp; injection Hp as <-; by eexists. }
  destruct He as [m ->]. reflexivity.
Qed.

(** X7. When the token endpoint answers with a 2xx status and a JSON
    object that carries, in any order and among any other members, an
    [access_token], an [expires_in] and a [scope] of the right types and,
    if at all, a [token_type], a [connection_id], a [user_did] and
    [profiles] of the right types, [exchangeCode] returns exactly these
    values, with [token_type] "Bearer" when the body leaves it out. *)
Theorem exchangeCode_returns_token (this : t) (code : string) (state : option string)
    (env : Env) (r : Response) (fields : list (string * json))
    (access_token scope : string) (expires_in : Z)
    (token_type connection_id user_did : option string)
    (profiles : option (list Profile)) :
  server env (token_request this code) = Responded r →
  ok r = true →
  body r = Json (JObj fields) →
  assoc "access_token" fields = Some (JStr access_token) →
  assoc "token_type" fields = JStr <$> token_type →
  assoc "expires_in" fields = Some (JNum expires_in) →
  assoc "scope" fields = Some (JStr scope) →
  assoc "connection_id" fields = JStr <$> connection_id →
  assoc "user_did" fields = JStr <$> user_did →
  assoc "profiles" fields = (fun ps => JArr (map JObj ps)) <$> profiles →
  result (exchangeCode this code state) env =
  Returned (OAuthTokenResponse.mk access_token (default "Bearer" token_type) expires_in
              scope connection_id user_did profiles).
Proof.
  intros Hs Hok Hb Ha Ht He Hsc Hc Hu Hp. unfold result.
  rewrite (exchangeCode_ok this code state env r _ Hs Hok Hb).
  unfold OAuthTokenResponseSchema_parse. cbn [prop fst].
  rewrite Ha, Ht, He, Hsc, Hc, Hu, Hp.
  destruct token_type, connection_id, user_did, profiles;
    cbn [fmap option_fmap option_map z_string z_number z_string_default
         z_string_optional default];
    rewrite ?z_records_of_objects; reflexivity.
Qed.

Lemma exchangeCode_returns_token_witness :
  let flow := OAuthFlow.mk "svc" "secret" "https://svc.example/cb"
                "https://api.gaugid.com" 30000 in
  let fields := [("scope", JStr "a2p:preferences"); ("issued_at", JNum 1700000000);
                 ("expires_in", JNum 3600); ("access_token", JStr "gaugid_conn_1");
                 ("profiles", JArr [JObj [("did", JStr "did:a2p:user:gaugid:alice")]]);
                 ("connection_id", JStr "conn-1")] in
  let r := mkResponse 200 "OK" (Json (JObj fields)) in
  result (exchangeCode flow "abc" None)
         (mkEnv (fun _ => Responded r) [] (fun _ => Byte.x00) 0)
  = Returned (OAuthTokenResponse.mk "gaugid_conn_1" "Bearer" 3600 "a2p:preferences"
                (Some "conn-1") None (Some [[("did", JStr "did:a2p:user:gaugid:alice")]])).
Proof.
  intros flow fields r.
  exact (exchangeCode_returns_token flow "abc" None
           (mkEnv (fun _ => Responded r) [] (fun _ => Byte.x00) 0) r fields
           "gaugid_conn_1" "a2p:preferences" 3600 None (Some "conn-1") None
           (Some [[("did", JStr "did:a2p:user:gaugid:alice")]])
           eq_refl eq_refl eq_refl eq_refl eq_refl eq_refl eq_refl eq_refl eq_refl eq_refl).
Defined.

Lemma rethrow_gaugid {A} (this : t) (error : Exn) (env : Env) :
  ∃ e, @rethrow A this error env = (Thrown e, env) ∧ is_gaugid_error e = true.
Proof.
  unfold rethrow, throw. destruct error; try (by eexists).
  all: destruct (String.eqb _ _); by eexists.
Qed.

(** X8. Whatever the network does and whatever the server answers,
    [exchangeCode] and [revokeToken] end by returning or by throwing one of
    the SDK's three error classes: no error of the platform (a failed
    fetch, an abort, a body that does not parse, a failed validation) comes
    out as it is. *)
Theorem oauth_throws_only_gaugid_errors (this : t) (code token : string)
    (state : option string) (env : Env) :
  (∀ e, result (exchangeCode this code state) env = Thrown e → is_gaugid_error e = true) ∧
  (∀ e, result (revokeToken this token) env = Thrown e → is_gaugid_error e = true).
Proof.
  split; intros e; unfold result, exchangeCode, revokeToken, try_catch.
  all: match goal with
       | |- context [bind ?c ?k ?w] => destruct (bind c k w) as [[a|e'] env']
       end; cbn [fst]; [done|].
  - destruct (rethrow_gaugid (A:=OAuthTokenResponse.t) this e' env') as (e'' & -> & Hg).
    by intros [= <-].
  - destruct (rethrow_gaugid (A:=unit) this e' env') as (e'' & -> & Hg).
    by intros [= <-].
Qed.

Lemma oauth_throws_only_gaugid_errors_witness :
  is_gaugid_error
    (GaugidConnectionError "Failed to connect to Gaugid API: TypeError: fetch failed"
       (Native (mkNativeError "TypeError" "fetch failed"))) = true.
Proof.
  exact (proj1 (oauth_throws_only_gaugid_errors
                  (OAuthFlow.mk "svc" "secret" "https://svc.example/cb"
                     "https://api.gaugid.com" 30000) "abc" "tok" None
                  (mkEnv (fun _ => NetworkFailure (mkNativeError "TypeError" "fetch failed"))
                     [] (fun _ => Byte.x00) 0)) _ eq_refl).
Defined.

(** X9. When the timer aborts the request, [exchangeCode] throws a
    [GaugidConnectionError] with the message "Request timeout after
    <timeout>ms"; when the fetch fails otherwise, one with the message
    "Failed to connect to Gaugid API: " followed by the error. In both
    cases the request was sent once and the original error is kept. *)
Theorem exchangeCode_no_answer (this : t) (code : string) (state : option string)
    (env : Env) :
  (server env (token_request this code) = TimedOut →
   exchangeCode this code state env =
     (Thrown (GaugidConnectionError
                ("Request timeout after " +:+ pretty (timeout this) +:+ "ms")
                (Native (mkNativeError "AbortError" "This operation was aborted"))),
      sent_more (token_request this code) env)) ∧
  (∀ failure, server env (token_request this code) = NetworkFailure failure →
              err_name failure ≠ "AbortError" →
   exchangeCode this code state env =
     (Thrown (GaugidConnectionError
                ("Failed to connect to Gaugid API: " +:+ NativeError_toString failure)
                (Native failure)),
      sent_more (token_request this code) env)).
Proof.
  split.
  - intros Hs. unfold exchangeCode. fold (token_request this code).
    unfold try_catch at 1, bind at 1, fetch. by rewrite Hs.
  - intros failure Hs Hname. unfold exchangeCode. fold (token_request this code).
    unfold try_catch at 1, bind at 1, fetch. rewrite Hs.
    unfold rethrow. cbn [Exn_name Exn_toString].
    by destruct (String.eqb_spec (err_name failure) "AbortError").
Qed.

Lemma exchangeCode_no_answer_witness :
  result (exchangeCode (OAuthFlow.mk "svc" "secret" "https://svc.example/cb"
                          "https://api.gaugid.com" 30000) "abc" None)
         (mkEnv (fun _ => TimedOut) [] (fun _ => Byte.x00) 0)
  = Thrown (GaugidConnectionError "Request timeout after 30000ms"
              (Native (mkNativeError "AbortError" "This operation was aborted"))).
Proof.
  unfold result.
  rewrite (proj1 (exchangeCode_no_answer
                    (OAuthFlow.mk "svc" "secret" "https://svc.example/cb"
                       "https://api.gaugid.com" 30000) "abc" None
                    (mkEnv (fun _ => TimedOut) [] (fun _ => Byte.x00) 0)) eq_refl).
  reflexivity.
Defined.

Lemma parseGaugidError_class (response : Response) (errorData : option json) (e : Exn) :
  parseGaugidError response errorData = Returned e →
  match e with
  | GaugidAuthError _ _ | GaugidAPIError _ _ _ _ => True
  | _ => False
  end.
Proof.
  unfold parseGaugidError.
  destruct (match errorData ≫= prop "error" with
            | Some o => if truthy o && is_object o then _ else _
            | None => _
            end) as [code message].
  destruct (match ERROR_CODES_at code with Some _ => _ | None => _ end); [|done].
  destruct (is_auth_code code); by intros [= <-].
Qed.

(** X10. When the token endpoint answers with a status that is neither
    2xx nor 400 nor 401, [exchangeCode] throws the error [parseGaugidError]
    builds from the response and its body (the empty object when the body
    does not parse), as it is. *)
Theorem exchangeCode_other_status (this : t) (code : string) (state : option string)
    (env : Env) (r : Response) (e : Exn) :
  server env (token_request this code) = Responded r →
  ok r = false → status r ≠ 400 → status r ≠ 401 →
  parseGaugidError r (Some (body_or_empty r)) = Returned e →
  result (exchangeCode this code state) env = Thrown e.
Proof.
  intros Hs Hok H400 H401 Hparse. unfold result, exchangeCode.
  fold (token_request this code).
  unfold try_catch at 1, bind at 1, fetch. rewrite Hs.
  apply Z.eqb_neq in H400, H401. rewrite H400, H401, Hok. cbn [negb].
  assert (Hdata : ∀ w : Env,
            try_catch (lift (Response_json r)) (fun _ => ret (JObj [])) w
            = (Returned (body_or_empty r), w)).
  { intros w. unfold try_catch, lift, Response_json, body_or_empty, ret.
    by destruct (body r). }
  unfold bind at 1. rewrite Hdata. unfold bind, lift. rewrite Hparse.
  pose proof (parseGaugidError_class _ _ _ Hparse) as Hclass.
  unfold throw, rethrow. by destruct e.
Qed.

Lemma exchangeCode_other_status_witness :
  let flow := OAuthFlow.mk "svc" "secret" "https://svc.example/cb"
                "https://api.gaugid.com" 30000 in
  let r := mkResponse 429 "Too Many Requests"
             (Json (JObj [("error", JObj [("code", JStr "A2P023")])])) in
  result (exchangeCode flow "abc" None)
         (mkEnv (fun _ => Responded r) [] (fun _ => Byte.x00) 0)
  = Thrown (GaugidAPIError "Too Many Requests (Rate limit exceeded)"
              (Some (JStr "A2P023")) 429
              (Some (JObj [("error", JObj [("code", JStr "A2P023")])]))).
Proof.
  intros flow r.
  refine (exchangeCode_other_status flow "abc" None
            (mkEnv (fun _ => Responded r) [] (fun _ => Byte.x00) 0) r _
            eq_refl eq_refl _ _ eq_refl); discriminate.
Defined.

End ExchangeMore.

Section RevokeAndConfigure.

Import OAuthFlow.

(** X11. [revokeToken] sends one POST to the revoke endpoint with the
    token, the client id and the client secret. A 2xx answer makes it
    return, whatever the body; 401 makes it throw a [GaugidAuthError]
    "Invalid client credentials"; any other status, 400 included, makes it
    throw the error [parseGaugidError] builds. *)
Theorem revokeToken_outcomes (this : t) (token : string) (env : Env) (r : Response) :
  server env (revoke_request this token) = Responded r →
  after (revokeToken this token) env = sent_more (revoke_request this token) env ∧
  (ok r = true → result (revokeToken this token) env = Returned tt) ∧
  (status r = 401 →
   result (revokeToken this token) env =
     Thrown (GaugidAuthError "Invalid client credentials" None)) ∧
  (ok r = false → status r ≠ 401 →
   ∀ e, parseGaugidError r (Some (body_or_empty r)) = Returned e →
        result (revokeToken this token) env = Thrown e).
Proof.
  intros Hs.
  assert (Hdata : ∀ w : Env,
            try_catch (lift (Response_json r)) (fun _ => ret (JObj [])) w
            = (Returned (body_or_empty r), w)).
  { intros w. unfold try_catch, lift, Response_json, body_or_empty, ret.
    by destruct (body r). }
  assert (Hrun : ∃ o, revokeToken this token env =
                      (o, sent_more (revoke_request this token) env) ∧
                      (ok r = true → o = Returned tt) ∧
                      (status r = 401 →
                       o = Thrown (GaugidAuthError "Invalid client credentials" None)) ∧
                      (ok r = false → status r ≠ 401 →
                       ∀ e, parseGaugidError r (Some (body_or_empty r)) = Returned e →
                            o = Thrown e)).
  { unfold revokeToken. fold (revoke_request this token).
    unfold try_catch at 1, bind at 1, fetch. rewrite Hs.
    destruct (Z.eqb_spec (status r) 401) as [H401|H401].
    - eexists. split; [reflexivity|]. split; [|split].
      + unfold ok. rewrite H401. done.
      + done.
      + done.
    - destruct (ok r) eqn:Hok; cbn [negb].
      + eexists. split; [reflexivity|]. by repeat split.
      + unfold bind at 1. rewrite Hdata. unfold bind, lift.
        destruct (parseGaugidError r (Some (body_or_empty r))) as [e|e] eqn:Hp.
        * pose proof (parseGaugidError_class _ _ _ Hp) as Hclass.
          exists (Thrown e). split; [by destruct e|]. split; [done|]. split; [done|].
          by intros _ _ e' [= <-].
        * destruct (rethrow_gaugid (A:=unit) this e
                      (sent_more (revoke_request this token) env)) as (e' & He' & _).
          unfold sent_more in He'. rewrite He'.
          eexists. split; [reflexivity|]. by repeat split. }
  destruct Hrun as (o & Hrun & Hok & H401 & Hother).
  unfold after, result. rewrite Hrun. cbn [fst snd]. auto.
Qed.

Lemma revokeToken_outcomes_witness :
  let flow := OAuthFlow.mk "svc" "secret" "https://svc.example/cb"
                "https://api.gaugid.com" 30000 in
  result (revokeToken flow "gaugid_conn_1")
         (mkEnv (fun _ => Responded (mkResponse 204 "No Content" (NotJson "")))
                [] (fun _ => Byte.x00) 0) = Returned tt ∧
  result (revokeToken flow "gaugid_conn_1")
         (mkEnv (fun _ => Responded (mkResponse 400 "Bad Request" (NotJson "")))
                [] (fun _ => Byte.x00) 0)
  = Thrown (GaugidAPIError "Bad Request" None 400 (Some (JObj []))).
Proof.
  intros flow. split.
  - exact (proj1 (proj2 (revokeToken_outcomes flow "gaugid_conn_1"
             (mkEnv (fun _ => Responded (mkResponse 204 "No Content" (NotJson "")))
                    [] (fun _ => Byte.x00) 0)
             (mkResponse 204 "No Content" (NotJson "")) eq_refl)) eq_refl).
  - refine (proj2 (proj2 (proj2 (revokeToken_outcomes flow "gaugid_conn_1"
             (mkEnv (fun _ => Responded (mkResponse 400 "Bad Request" (NotJson "")))
                    [] (fun _ => Byte.x00) 0)
             (mkResponse 400 "Bad Request" (NotJson "")) eq_refl))) eq_refl _ _ eq_refl).
    discriminate.
Defined.

Lemma strip_trailing_slash_app (u : string) : strip_trailing_slash (u +:+ "/") = u.
Proof.
  induction u as [|c u IH]; [done|].
  rewrite append_cons. cbn [strip_trailing_slash]. rewrite IH.
  by destruct u.
Qed.

Lemma strip_trailing_slash_id (u : string) :
  ends_with_slash u = false → strip_trailing_slash u = u.
Proof.
  induction u as [|c u IH]; [done|]. destruct u as [|d u].
  - cbn [ends_with_slash strip_trailing_slash]. by intros ->.
  - intros H. cbn [strip_trailing_slash]. f_equal. by apply IH.
Qed.

(** X12. The flow calls the API at the configured URL less one trailing
    slash (so a URL given with or without it gives the same endpoints),
    and at https://api.gaugid.com when none or an empty one is configured;
    its timeout is the configured one, 30000 ms when none or 0 is
    configured, and so never 0. *)
Theorem OAuthFlow_constructor_defaults (config : OAuthFlowConfig.t) :
  (∀ u, OAuthFlowConfig.apiUrl config = Some (u +:+ "/") →
        apiUrl (constructor config) = u) ∧
  (∀ u, OAuthFlowConfig.apiUrl config = Some u → u ≠ "" → ends_with_slash u = false →
        apiUrl (constructor config) = u) ∧
  (OAuthFlowConfig.apiUrl config = None ∨ OAuthFlowConfig.apiUrl config = Some "" →
   apiUrl (constructor config) = "https://api.gaugid.com") ∧
  timeout (constructor config) ≠ 0 ∧
  (∀ n, OAuthFlowConfig.timeout config = Some n → n ≠ 0 →
        timeout (constructor config) = n) ∧
  (OAuthFlowConfig.timeout config = None ∨ OAuthFlowConfig.timeout config = Some 0 →
   timeout (constructor config) = 30000).
Proof.
  unfold constructor. cbn [apiUrl timeout]. repeat split.
  - intros u ->. cbn [default from_option id]. unfold or_else.
    destruct (String.eqb_spec (u +:+ "/") "") as [E|_].
    + by destruct u.
    + apply strip_trailing_slash_app.
  - intros u -> Hu Hslash. cbn [default from_option id]. unfold or_else.
    destruct (String.eqb_spec u ""); [done|]. by apply strip_trailing_slash_id.
  - by intros [-> | ->].
  - destruct (OAuthFlowConfig.timeout config) as [n|]; [|done].
    by destruct (Z.eqb_spec n 0).
  - intros n -> Hn. by destruct (Z.eqb_spec n 0).
  - by intros [-> | ->].
Qed.

Lemma OAuthFlow_constructor_defaults_witness :
  apiUrl (constructor (OAuthFlowConfig.mk "svc" "secret" "https://svc.example/cb"
                         (Some "https://gaugid.example/") None))
  = "https://gaugid.example".
Proof.
  exact (proj1 (OAuthFlow_constructor_defaults
                  (OAuthFlowConfig.mk "svc" "secret" "https://svc.example/cb"
                     (Some "https://gaugid.example/") None))
           "https://gaugid.example" eq_refl).
Defined.

(** X13. With a [state] argument that is not empty, [getAuthorizationUrl]
    returns that state, takes nothing from the random source, and builds a
    URL whose query is the form serialization of the five parameters
    ([scope] holding the scopes joined by commas) and decodes back to them
    byte for byte, whatever bytes the state, the scopes, the client id and
    the redirect URI hold. An empty
    [state] argument is treated as none: a random state is generated. *)
Theorem getAuthorizationUrl_given_state (this : t) (scopes : list string)
    (state : string) (env : Env) :
  (state ≠ "" →
   getAuthorizationUrl this scopes (Some state) env =
     (Returned (apiUrl this +:+ "/connect/authorize?" +:+
                URLSearchParams_toString (authorization_params this scopes state),
                state), env) ∧
   form_parse (URLSearchParams_toString (authorization_params this scopes state)) =
     authorization_params this scopes state) ∧
  getAuthorizationUrl this scopes (Some "") env = getAuthorizationUrl this scopes None env.
Proof.
  split; [|reflexivity].
  intros Hstate. split; [|apply form_parse_toString].
  unfold getAuthorizationUrl, bind.
  by destruct (String.eqb_spec state "").
Qed.

Lemma getAuthorizationUrl_given_state_witness :
  result (getAuthorizationUrl
            (OAuthFlow.mk "svc" "secret" "https://svc.example/cb"
               "https://api.gaugid.com" 30000)
            ["a2p:preferences"] (Some "a+b&c=d"))
         (mkEnv (fun _ => TimedOut) [] (fun _ => Byte.x00) 0)
  = Returned ("https://api.gaugid.com/connect/authorize?client_id=svc&redirect_uri=https%3A%2F%2Fsvc.example%2Fcb&response_type=code&scope=a2p%3Apreferences&state=a%2Bb%26c%3Dd",
              "a+b&c=d").
Proof.
  unfold result.
  rewrite (proj1 (proj1 (getAuthorizationUrl_given_state
            (OAuthFlow.mk "svc" "secret" "https://svc.example/cb"
               "https://api.gaugid.com" 30000)
            ["a2p:preferences"] "a+b&c=d"
            (mkEnv (fun _ => TimedOut) [] (fun _ => Byte.x00) 0)) ltac:(discriminate))).
  reflexivity.
Defined.

(** X14. A redirect whose query is written by the form serializer (as
    [URLSearchParams] and servers write it) comes back whole: appended to
    a base without query or fragment, the parameters [code] and [state]
    are read as they were before encoding, so with the state expected
    [parseAuthorizationResponse] returns the code, whatever a code that is
    not empty and the state hold, as long as they are UTF-8 text. *)
Theorem parseAuthorizationResponse_encoded (URL_canParse : string → bool)
    (base code state : string) :
  let url := base +:+ "?" +:+ URLSearchParams_toString [("code", code); ("state", state)] in
  URL_canParse url = true →
  no_query_no_fragment base = true →
  code ≠ "" → well_formed code = true → well_formed state = true →
  parseAuthorizationResponse URL_canParse url state = Returned code.
Proof.
  intros url Hurl Hbase Hcode Hwc%String.eqb_eq Hws%String.eqb_eq. subst url.
  unfold parseAuthorizationResponse. rewrite Hurl. cbn [negb].
  unfold URL_searchParams_text.
  rewrite URL_searchParams_query, form_parse_toString; try done.
  - cbn [map fst snd]. rewrite Hwc, Hws. unfold URLSearchParams_get.
    change (utf8_decode "code") with "code". change (utf8_decode "state") with "state".
    cbn [assoc String.eqb Ascii.eqb Bool.eqb nonempty].
    rewrite bool_decide_true by done. cbn [negb].
    by destruct (String.eqb_spec code "").
  - eapply all_chars_impl; [apply query_written_plain|].
    apply URLSearchParams_toString_written.
  - eapply all_chars_impl; [apply query_written_not_hash|].
    apply URLSearchParams_toString_written.
Qed.

Lemma parseAuthorizationResponse_encoded_witness :
  parseAuthorizationResponse (fun _ => true)
    "https://svc.example/cb?code=a%2Bb+c&state=x%26y%23z" "x&y#z"
  = Returned "a+b c".
Proof.
  exact (parseAuthorizationResponse_encoded (fun _ => true)
           "https://svc.example/cb" "a+b c" "x&y#z" eq_refl eq_refl ltac:(discriminate)
           eq_refl eq_refl).
Defined.

End RevokeAndConfigure.

(** * More properties of the error parser *)

Section ErrorParsingMore.

Lemma parseGaugidError_run (response : Response) (data : json)
    (o : list (string * json)) (c : string) :
  prop "error" data = Some (JObj o) →
  assoc "code" o = Some (JStr c) →
  (∀ v, assoc "message" o = Some v → ∃ m, v = JStr m) →
  parseGaugidError response (Some data) =
  Returned (if is_auth_code (Some (JStr c))
            then GaugidAuthError (described c (base_message response o)) (Some (JStr c))
            else GaugidAPIError (described c (base_message response o)) (Some (JStr c))
                   (status response) (Some data)).
Proof.
  intros Herr Hcode Hmsg.
  unfold parseGaugidError. cbn [mbind option_bind]. rewrite Herr.
  cbn [truthy is_object andb]. rewrite message_of_error_object by done.
  cbn [prop]. rewrite Hcode. unfold described. rewrite <- ERROR_CODES_at_text.
  destruct (ERROR_CODES_at (Some (JStr c))) as [description|];
    cbn [fmap option_fmap option_map message_includes js_String];
    [destruct (includes _ _)|]; cbn [js_String];
    by destruct (is_auth_code _).
Qed.

Lemma prefix_app (d b : string) : String.prefix d (d +:+ b) = true.
Proof.
  induction d as [|x d IH]; [by destruct b|].
  rewrite append_cons. cbn [String.prefix]. by destruct (ascii_dec x x).
Qed.

Lemma includes_app (a d b : string) : includes (a +:+ d +:+ b) d = true.
Proof.
  induction a as [|x a IH].
  - rewrite append_nil_l. destruct (d +:+ b) eqn:E; cbn [includes];
      rewrite <- E, prefix_app; done.
  - rewrite append_cons. cbn [includes]. rewrite IH. apply orb_true_r.
Qed.

Lemma described_includes (c d message : string) :
  assoc c ERROR_CODES = Some d → includes (described c message) d = true.
Proof.
  intros Hd. unfold described, code_text. rewrite Hd.
  destruct (includes message d) eqn:E; [done|].
  change (message +:+ " (" +:+ d +:+ ")") with (message +:+ " (" +:+ (d +:+ ")")).
  rewrite <- append_assoc. apply includes_app.
Qed.

Lemma described_text_includes (c d message : string) :
  code_text c = Some d → includes (described c message) d = true.
Proof.
  intros Hd. unfold described. rewrite Hd.
  destruct (includes message d) eqn:E; [done|].
  change (message +:+ " (" +:+ d +:+ ")") with (message +:+ " (" +:+ (d +:+ ")")).
  rewrite <- append_assoc. apply includes_app.
Qed.

Lemma described_idempotent (c message : string) :
  described c (described c message) = described c message.
Proof.
  destruct (code_text c) as [d|] eqn:Hd.
  - pose proof (described_text_includes c d message Hd) as Hin.
    unfold described at 1. by rewrite Hd, Hin.
  - unfold described. by rewrite Hd.
Qed.






(** A code that names a member of [Object.prototype] finds that member
    in the table: its text is what is added to the message. *)
Lemma parseGaugidError_inherited_code :
  parseGaugidError (mkResponse 403 "Forbidden" (Json JNull))
    (Some (JObj [("error", JObj [("code", JStr "constructor"); ("message", JStr "Denied")])]))
  = Returned (GaugidAPIError "Denied (function Object() { [native code] })"
                (Some (JStr "constructor")) 403
                (Some (JObj [("error", JObj [("code", JStr "constructor");
                                            ("message", JStr "Denied")])]))).
Proof. reflexivity. Qed.

(** X15. For an error object with a code of the table (and a message that
    is a string when present), the message of the error built contains the
    description of the code: once when the server's message already had
    it, appended in brackets otherwise. Parsing a body whose message is
    the message of an error built from the same code adds nothing. *)
Theorem parseGaugidError_describes (response : Response) (data : json)
    (o : list (string * json)) (c d : string) :
  prop "error" data = Some (JObj o) →
  assoc "code" o = Some (JStr c) →
  (∀ v, assoc "message" o = Some v → ∃ m, v = JStr m) →
  assoc c ERROR_CODES = Some d →
  ∃ e message,
    parseGaugidError response (Some data) = Returned e ∧
    (e = GaugidAuthError message (Some (JStr c)) ∨
     e = GaugidAPIError message (Some (JStr c)) (status response) (Some data)) ∧
    includes message d = true ∧
    (includes (base_message response o) d = true → message = base_message response o) ∧
    (includes (base_message response o) d = false →
     message = base_message response o +:+ " (" +:+ d +:+ ")") ∧
    described c message = message.
Proof.
  intros Herr Hcode Hmsg Hd.
  rewrite (parseGaugidError_run response data o c Herr Hcode Hmsg).
  exists (if is_auth_code (Some (JStr c))
          then GaugidAuthError (described c (base_message response o)) (Some (JStr c))
          else GaugidAPIError (described c (base_message response o)) (Some (JStr c))
                 (status response) (Some data)),
         (described c (base_message response o)).
  split; [done|]. split; [destruct (is_auth_code _); auto|].
  split; [by apply described_includes|].
  split; [|split].
  - intros Hin. unfold described, code_text. by rewrite Hd, Hin.
  - intros Hin. unfold described, code_text. by rewrite Hd, Hin.
  - apply described_idempotent.
Qed.

Lemma parseGaugidError_describes_witness :
  ∃ e message,
    parseGaugidError (mkResponse 404 "Not Found" (Json JNull))
      (Some (JObj [("error", JObj [("code", JStr "A2P003");
                                   ("message", JStr "Profile not found")])]))
    = Returned e ∧
    (e = GaugidAuthError message (Some (JStr "A2P003")) ∨
     e = GaugidAPIError message (Some (JStr "A2P003")) 404
           (Some (JObj [("error", JObj [("code", JStr "A2P003");
                                        ("message", JStr "Profile not found")])]))) ∧
    message = "Profile not found".
Proof.
  destruct (parseGaugidError_describes (mkResponse 404 "Not Found" (Json JNull))
              (JObj [("error", JObj [("code", JStr "A2P003");
                                     ("message", JStr "Profile not found")])])
              [("code", JStr "A2P003"); ("message", JStr "Profile not found")]
              "A2P003" "Profile not found" eq_refl eq_refl)
    as (e & message & Hrun & He & _ & Hsame & _).
  - intros v [= <-]. by eexists.
  - reflexivity.
  - exists e, message. split; [exact Hrun|]. split; [exact He|]. exact (Hsame eq_refl).
Defined.

(** X16. When the body is absent, has no [error] member, or has one that
    is not an object (null, a string, a number, a boolean), the error built
    is a [GaugidAPIError] without code, whose message is the status text,
    or "Unknown error" when the status text is empty, and which carries the
    status and the body. *)
Theorem parseGaugidError_without_error_object (response : Response)
    (errorData : option json) :
  match errorData ≫= prop "error" with
  | None => True
  | Some e => truthy e && is_object e = false
  end →
  parseGaugidError response errorData =
  Returned (GaugidAPIError (or_else (statusText response) "Unknown error") None
              (status response) errorData).
Proof.
  unfold parseGaugidError.
  destruct (errorData ≫= prop "error") as [e|]; [|done].
  by intros ->.
Qed.

Lemma parseGaugidError_without_error_object_witness :
  parseGaugidError (mkResponse 502 "" (NotJson "")) (Some (JObj [("error", JStr "down")]))
  = Returned (GaugidAPIError "Unknown error" None 502 (Some (JObj [("error", JStr "down")]))).
Proof.
  exact (parseGaugidError_without_error_object (mkResponse 502 "" (NotJson ""))
           (Some (JObj [("error", JStr "down")])) eq_refl).
Defined.

(** X17. When the error object has a code of the table and a message that
    is a number other than 0, [true] or an object, the parser itself throws
    a [TypeError] (such a message has no [includes]) and builds no error. *)
Theorem parseGaugidError_message_not_text (response : Response) (data : json)
    (o : list (string * json)) (c d : string) (m : json) :
  prop "error" data = Some (JObj o) →
  assoc "code" o = Some (JStr c) →
  assoc c ERROR_CODES = Some d →
  assoc "message" o = Some m →
  truthy m = true →
  match m with JStr _ | JArr _ => False | _ => True end →
  parseGaugidError response (Some data) =
  Thrown (Native (mkNativeError "TypeError" "message.includes is not a function")).
Proof.
  intros Herr Hcode Hd Hm Htruthy Hkind.
  unfold parseGaugidError. cbn [mbind option_bind]. rewrite Herr.
  cbn [truthy is_object andb prop]. rewrite Hcode, Hm.
  unfold json_or_else. rewrite Htruthy, ERROR_CODES_at_string, Hd.
  by destruct m.
Qed.

Lemma parseGaugidError_message_not_text_witness :
  parseGaugidError (mkResponse 404 "Not Found" (Json JNull))
    (Some (JObj [("error", JObj [("code", JStr "A2P003"); ("message", JNum 404)])]))
  = Thrown (Native (mkNativeError "TypeError" "message.includes is not a function")).
Proof.
  exact (parseGaugidError_message_not_text (mkResponse 404 "Not Found" (Json JNull))
           (JObj [("error", JObj [("code", JStr "A2P003"); ("message", JNum 404)])])
           [("code", JStr "A2P003"); ("message", JNum 404)]
           "A2P003" "Profile not found" (JNum 404)
           eq_refl eq_refl eq_refl eq_refl eq_refl I).
Defined.

End ErrorParsingMore.

(** * More properties of the token store *)

Section StorageMore.

Import TokenStorage.

Lemma saveTokens_mkdir_fails tokens (w : World) (e : NativeError) :
  write_fault w = Some (MkdirFails e) → dir_present w = false →
  saveTokens tokens w = (Thrown (Native e), w).
Proof.
  destruct w as [d f wf n lv c]. cbn. intros -> ->. reflexivity.
Qed.

Lemma saveTokens_writeFile_fails tokens (w : World) (e : NativeError)
    (remains : option FileContent) :
  write_fault w = Some (WriteFileFails e remains) →
  saveTokens tokens w =
  (Thrown (Native e),
   {| dir_present := true; file := remains; write_fault := write_fault w;
      now := now w; logger_level := logger_level w; console := console w |}).
Proof.
  destruct w as [d f wf n lv c]. cbn. intros ->.
  unfold saveTokens, bind; cbn. destruct d; reflexivity.
Qed.

(** X18. A failure while the store is written reaches the caller as it
    is. When [mkdir] fails, [saveToken] and [deleteToken] throw its error
    and leave the file and the directory as they were, so that every
    [getToken] returns what it returned before. When [writeFile] fails
    they throw its error; the directory is there afterwards (it was made if
    it was missing) and the file holds what the failed write left. *)
Theorem store_write_fault (id : string) (info : ConnectionTokenInfo)
    (e : NativeError) (w : World) :
  (write_fault w = Some (MkdirFails e) → dir_present w = false →
   (result (saveToken id info) w = Thrown (Native e) ∧
    file (after (saveToken id info) w) = file w ∧
    dir_present (after (saveToken id info) w) = false) ∧
   (result (deleteToken id) w = Thrown (Native e) ∧
    file (after (deleteToken id) w) = file w ∧
    dir_present (after (deleteToken id) w) = false) ∧
   (∀ k t, result (getToken k) (at_time t (after (saveToken id info) w)) =
           result (getToken k) w ∧
           result (getToken k) (at_time t (after (deleteToken id) w)) =
           result (getToken k) w)) ∧
  (∀ remains, write_fault w = Some (WriteFileFails e remains) →
   (result (saveToken id info) w = Thrown (Native e) ∧
    file (after (saveToken id info) w) = remains ∧
    dir_present (after (saveToken id info) w) = true) ∧
   (result (deleteToken id) w = Thrown (Native e) ∧
    file (after (deleteToken id) w) = remains ∧
    dir_present (after (deleteToken id) w) = true)).
Proof.
  split.
  - intros Hw Hd.
    assert (Hs : saveToken id info w = (Thrown (Native e), loaded w)).
    { unfold saveToken, bind. rewrite loadTokens_run. unfold Date_now.
      by rewrite (saveTokens_mkdir_fails _ _ e)
        by (by rewrite ?loaded_write_fault, ?loaded_dir). }
    assert (Hdel : deleteToken id w = (Thrown (Native e), loaded w)).
    { unfold deleteToken, bind. rewrite loadTokens_run.
      by rewrite (saveTokens_mkdir_fails _ _ e)
        by (by rewrite ?loaded_write_fault, ?loaded_dir). }
    unfold result, after. rewrite Hs, Hdel. cbn [fst snd].
    rewrite loaded_file, loaded_dir. repeat split; try done.
    all: rewrite !getToken_run; cbn [fst]; f_equal; apply found_other;
      unfold stored; cbn [file at_time]; by rewrite loaded_file.
  - intros remains Hw.
    unfold result, after, saveToken, deleteToken, bind.
    rewrite !loadTokens_run. unfold Date_now.
    rewrite !(saveTokens_writeFile_fails _ _ e remains)
      by (by rewrite loaded_write_fault).
    done.
Qed.

Lemma store_write_fault_witness :
  let w := mkWorld false None
             (Some (WriteFileFails (mkNativeError "Error" "ENOSPC: no space left on device")
                      (Some (Unparsable "Unexpected end of JSON input"))))
             0 WARN [] in
  result (saveToken "svc1" (mkInfo "t1" None None None None None)) w
    = Thrown (Native (mkNativeError "Error" "ENOSPC: no space left on device")) ∧
  dir_present (after (saveToken "svc1" (mkInfo "t1" None None None None None)) w) = true.
Proof.
  intros w.
  destruct (proj2 (store_write_fault "svc1" (mkInfo "t1" None None None None None)
                     (mkNativeError "Error" "ENOSPC: no space left on device") w)
              (Some (Unparsable "Unexpected end of JSON input")) eq_refl)
    as [(Hres & _ & Hdir) _].
  by split.
Defined.

(** X19. [listConnections] returns the name of every entry of the file
    once. For a name that is not a member of [Object.prototype], it is
    listed exactly when [getToken] finds a record for it. After a
    [saveToken id] that went through, with [id] not [__proto__], the list
    holds [id] and the ids it held before. *)
Theorem listConnections_exact (id : string) (info : ConnectionTokenInfo) (t : Z)
    (w : World) :
  ∃ ids ids',
    result listConnections w = Returned ids ∧
    NoDup ids ∧
    (∀ k, k ∈ ids ↔ is_Some (stored w !! k)) ∧
    (∀ k, inherited k = false →
          k ∈ ids ↔ ∃ found, result (getToken k) w = Returned (Some found)) ∧
    (write_fault w = None → id ≠ "__proto__" →
     result listConnections (at_time t (after (saveToken id info) w)) = Returned ids' ∧
     NoDup ids' ∧
     ∀ k, k ∈ ids' ↔ k = id ∨ k ∈ ids).
Proof.
  exists (elements (dom (stored w))),
         (elements (dom (<[id := record_of info (now w)]> (stored w)))).
  unfold result. rewrite listConnections_run. cbn [fst].
  split; [done|]. split; [apply NoDup_elements|]. split; [|split].
  - intros k. by rewrite elem_of_elements, elem_of_dom.
  - intros k Hk. rewrite elem_of_elements, elem_of_dom, getToken_run. cbn [fst].
    unfold found. rewrite Hk. destruct (stored w !! k) as [r|].
    + split; by eexists.
    + split; [by intros [? ?]|]. by intros [? [=]].
  - intros Hw Hid. unfold after. rewrite saveToken_run by done. cbn [snd].
    rewrite listConnections_run, stored_written, tokens_set_insert by (by left).
    cbn [fst]. split; [done|]. split; [apply NoDup_elements|].
    intros k. rewrite !elem_of_elements, dom_insert_L, elem_of_union, elem_of_singleton.
    done.
Qed.

Lemma listConnections_exact_witness :
  ∃ ids', result listConnections
            (at_time 5 (after (saveToken "svc1" (mkInfo "t1" None None None None None))
                          (mkWorld true None None 0 WARN []))) = Returned ids' ∧
          "svc1" ∈ ids'.
Proof.
  destruct (listConnections_exact "svc1" (mkInfo "t1" None None None None None) 5
              (mkWorld true None None 0 WARN [])) as (ids & ids' & _ & _ & _ & _ & Hafter).
  destruct (Hafter eq_refl) as (Hlist & _ & Hin); [discriminate|].
  exists ids'. split; [exact Hlist|]. apply Hin. by left.
Defined.

(** X20. When the store can be written, [deleteToken id] after
    [saveToken id] leaves the records [deleteToken id] alone would have
    left; so saving and then deleting an id that was not stored gives the
    records back as they were, and deleting an id that is not stored
    changes no record. *)
Theorem deleteToken_undoes_saveToken (id : string) (info : ConnectionTokenInfo)
    (t t' : Z) (w : World) :
  write_fault w = None →
  let w1 := at_time t (after (saveToken id info) w) in
  stored (at_time t' (after (deleteToken id) w1)) = delete id (stored w) ∧
  (stored w !! id = None →
   stored (at_time t' (after (deleteToken id) w1)) = stored w ∧
   stored (at_time t' (after (deleteToken id) w)) = stored w).
Proof.
  intros Hw w1.
  assert (Hw1 : write_fault w1 = None).
  { subst w1. unfold after. rewrite saveToken_run by done. cbn [snd].
    by rewrite written_write_fault, loaded_write_fault. }
  assert (Hboth : stored (at_time t' (after (deleteToken id) w1)) = delete id (stored w)).
  { unfold after at 1. rewrite deleteToken_run by done. cbn [snd].
    rewrite stored_written. subst w1. unfold after. rewrite saveToken_run by done.
    cbn [snd]. rewrite stored_written. unfold tokens_set.
    destruct (_ && _); [done|]. apply delete_insert_eq. }
  split; [done|]. intros Hnone. rewrite Hboth. split.
  - by apply delete_id.
  - unfold after. rewrite deleteToken_run by done. cbn [snd].
    rewrite stored_written. by apply delete_id.
Qed.

Lemma deleteToken_undoes_saveToken_witness :
  stored (at_time 9 (after (deleteToken "svc2")
            (at_time 5 (after (saveToken "svc2" (mkInfo "t2" None None None None None))
               (mkWorld true
                  (Some (Tokens {[ "svc1" := mkStored "t1" None None None None None 0 ]}))
                  None 1 WARN [])))))
  = delete "svc2" {[ "svc1" := mkStored "t1" None None None None None 0 ]}.
Proof.
  exact (proj1 (deleteToken_undoes_saveToken "svc2" (mkInfo "t2" None None None None None)
           5 9
           (mkWorld true
              (Some (Tokens {[ "svc1" := mkStored "t1" None None None None None 0 ]}))
              None 1 WARN []) eq_refl)).
Defined.



(** X22. On a store that can be written, a connection saved under an id
    other than [__proto__] without [expiresAt], or with [expiresAt] 0, is
    stored and can be read with [getConnectionInfo], but
    [getConnectionToken] never gives its token, at whatever instant. *)
Theorem connection_token_without_expiry (id : string) (info : ConnectionTokenInfo)
    (t : Z) (w : World) :
  write_fault w = None → id ≠ "__proto__" →
  expiresAt info = None ∨ expiresAt info = Some 0 →
  let w' := at_time t (after (ConnectionManager.saveConnection id info) w) in
  result (ConnectionManager.getConnectionInfo id) w' = Returned (Some (as_saved info)) ∧
  result (ConnectionManager.getConnectionToken id) w' = Returned None.
Proof.
  intros Hw Hid He w'. subst w'.
  unfold result, after, ConnectionManager.saveConnection,
    ConnectionManager.getConnectionInfo.
  rewrite saveToken_run by done. cbn [snd].
  rewrite getConnectionToken_run, getToken_run. cbn [fst].
  rewrite (found_stored _ _ (record_of info (now w)))
    by (rewrite stored_written, tokens_set_insert by (by left); apply lookup_insert_eq).
  rewrite stored_written, tokens_set_insert by (by left).
  rewrite lookup_insert_eq. split; [done|].
  unfold expired_at. cbn [st_expiresAt record_of]. by destruct He as [-> | ->].
Qed.

Lemma connection_token_without_expiry_witness :
  result (ConnectionManager.getConnectionToken "svc1")
    (at_time 1
       (after (ConnectionManager.saveConnection "svc1"
                 (mkInfo "t1" None (Some ["a2p:preferences"]) None None None))
          (mkWorld false None None 0 WARN [])))
  = Returned None.
Proof.
  refine (proj2 (connection_token_without_expiry "svc1"
           (mkInfo "t1" None (Some ["a2p:preferences"]) None None None) 1
           (mkWorld false None None 0 WARN []) eq_refl _ (or_introl eq_refl))).
  discriminate.
Defined.

(** X23. Whether the store file is missing, is not valid JSON, or holds
    an object of token entries: [getToken], [listConnections],
    [isTokenExpired] and [getConnectionToken] return without throwing and
    leave the file, the directory and the clock as they are; a file that
    does not parse stays as it is. *)
Theorem reads_do_not_write (id : string) (w : World) :
  let unchanged (w' : World) :=
    file w' = file w ∧ dir_present w' = dir_present w ∧
    write_fault w' = write_fault w ∧ now w' = now w in
  (∃ a, result (getToken id) w = Returned a) ∧ unchanged (after (getToken id) w) ∧
  (∃ a, result listConnections w = Returned a) ∧ unchanged (after listConnections w) ∧
  (∃ a, result (isTokenExpired id) w = Returned a) ∧
  unchanged (after (isTokenExpired id) w) ∧
  (∃ a, result (ConnectionManager.getConnectionToken id) w = Returned a) ∧
  unchanged (after (ConnectionManager.getConnectionToken id) w).
Proof.
  intros unchanged.
  assert (H1 : unchanged (loaded w)).
  { subst unchanged. cbv beta.
    by rewrite loaded_file, loaded_dir, loaded_write_fault, loaded_now. }
  assert (H2 : unchanged (loaded (loaded w))).
  { subst unchanged. cbv beta in *.
    by rewrite !loaded_file, !loaded_dir, !loaded_write_fault, !loaded_now. }
  unfold result, after.
  rewrite getToken_run, listConnections_run, isTokenExpired_run, getConnectionToken_run.
  cbn [fst snd]. repeat split; try (by eexists); try apply H1.
  all: destruct (found w id); first [apply H1 | apply H2].
Qed.

(** X24. On a store that can be written, a [saveToken] under an id other
    than [__proto__] on a store file that does not parse goes through and
    replaces the file: afterwards the store holds the saved record and
    nothing else, whatever the file held. *)
Theorem saveToken_replaces_unparsable (id : string) (info : ConnectionTokenInfo)
    (msg : string) (t : Z) (w : World) :
  write_fault w = None → id ≠ "__proto__" →
  file w = Some (Unparsable msg) →
  result (saveToken id info) w = Returned tt ∧
  stored (at_time t (after (saveToken id info) w)) = {[ id := record_of info (now w) ]} ∧
  result listConnections (at_time t (after (saveToken id info) w)) = Returned [id].
Proof.
  intros Hw Hid Hf. unfold result, after. rewrite saveToken_run by done. cbn [fst snd].
  rewrite listConnections_run, stored_written, tokens_set_insert by (by left).
  cbn [fst].
  assert (Hs : stored w = ∅) by (unfold stored; by rewrite Hf).
  rewrite Hs. split; [done|]. split; [done|].
  change (<[id:=record_of info (now w)]> (∅ : gmap string StoredToken))
    with ({[ id := record_of info (now w) ]} : gmap string StoredToken).
  by rewrite dom_singleton_L, elements_singleton.
Qed.

Lemma saveToken_replaces_unparsable_witness :
  result listConnections
    (at_time 7 (after (saveToken "svc1" (mkInfo "t1" None None None None None))
       (mkWorld true (Some (Unparsable "Unexpected end of JSON input")) None 3 WARN [])))
  = Returned ["svc1"].
Proof.
  refine (proj2 (proj2 (saveToken_replaces_unparsable "svc1"
           (mkInfo "t1" None None None None None) "Unexpected end of JSON input" 7
           (mkWorld true (Some (Unparsable "Unexpected end of JSON input")) None 3 WARN [])
           eq_refl _ eq_refl))).
  discriminate.
Defined.

End StorageMore.

(** * Properties of the client *)

Section Client.

Import GaugidClient.

Lemma bind_Returned {W A B} (c : M W A) (k : A → M W B) (w w' : W) (b : B) :
  bind c k w = (Returned b, w') →
  ∃ a w1, c w = (Returned a, w1) ∧ k a w1 = (Returned b, w').
Proof. unfold bind. destruct (c w) as [[a|e] w1]; [by eauto|done]. Qed.

Lemma constructor_Returned (config : GaugidClientConfig.t) (p p' : Proc) (c : t) :
  constructor config p = (Returned c, p') →
  ∃ agentDid,
    c = {| storage :=
             GaugidStorage.constructor
               {| GaugidStorageConfig.connectionToken :=
                    GaugidClientConfig.connectionToken config;
                  GaugidStorageConfig.apiUrl := GaugidClientConfig.apiUrl config;
                  GaugidStorageConfig.agentDid := Some agentDid;
                  GaugidStorageConfig.timeout :=
                    match GaugidClientConfig.timeout config with
                    | Some n => if n =? 0 then None else Some (n * 1000)
                    | None => None
                    end;
                  GaugidStorageConfig.apiVersion := None |};
           connectionToken := GaugidClientConfig.connectionToken config;
           _userDid := None;
           _availableProfiles := [];
           _selectedProfileDid := None |}.
Proof.
  unfold constructor. intros (a & w1 & _ & Hc)%bind_Returned.
  unfold ret in Hc. injection Hc as <- <-. by eexists.
Qed.

Lemma existsb_JStr (d : string) (l : list json) :
  existsb (fun x => match x with JStr s => String.eqb s d | _ => false end) l = true
  ↔ JStr d ∈ l.
Proof.
  induction l as [|x l IH]; cbn [existsb].
  - split; [done|]. by intros ?%elem_of_nil.
  - rewrite orb_true_iff, IH, elem_of_cons. split.
    + intros [Hx|?]; [left|by right]. destruct x; try done.
      by apply String.eqb_eq in Hx as ->.
    + intros [<-|?]; [left|by right]. apply String.eqb_refl.
Qed.

Lemma validateGaugidDid_cases (did : string) :
  (validateGaugidDid did = (true, None) ∧ is_Some (parseDid did)) ∨
  (∃ message, validateGaugidDid did = (false, Some message) ∧ parseDid did = None).
Proof.
  destruct (parseDid did) as [p|] eqn:Hp.
  - left. split; [|by eexists]. apply validateGaugidDid_parseDid. by eexists.
  - right. eexists. split; [|done]. by apply validateGaugidDid_parseDid.
Qed.

Lemma selectProfile_Returned (this c' : t) (profileDid : string) :
  selectProfile this profileDid = Returned c' ↔
  is_Some (parseDid profileDid) ∧ JStr profileDid ∈ availableDids this ∧
  c' = {| storage := storage this;
          connectionToken := connectionToken this;
          _userDid := _userDid this;
          _availableProfiles := _availableProfiles this;
          _selectedProfileDid := Some (JStr profileDid) |}.
Proof.
  unfold selectProfile.
  destruct (validateGaugidDid_cases profileDid) as [[-> Hp]|(m & -> & Hp)]; cbn [negb].
  - destruct (existsb _ (availableDids this)) eqn:Hex; cbn [negb].
    + apply existsb_JStr in Hex. split; [by intros [= <-]|]. by intros (_ & _ & ->).
    + split; [done|]. intros (_ & Hin & _). apply existsb_JStr in Hin. congruence.
  - split; [done|]. rewrite Hp. by intros [[? ?] _].
Qed.



Lemma availableDids_truthy (c : t) (d : json) : d ∈ availableDids c → truthy d = true.
Proof.
  unfold availableDids. rewrite elem_of_app. intros [Hin|Hin].
  - apply list_elem_of_In, filter_In in Hin. tauto.
  - destruct (_userDid c) as [u|]; cbn [nonempty] in Hin; [|by apply elem_of_nil in Hin].
    destruct (String.eqb_spec u ""); [by apply elem_of_nil in Hin|].
    apply list_elem_of_singleton in Hin as ->. cbn [truthy].
    by destruct (String.eqb_spec u "").
Qed.

(** X26. Whatever calls made it, the profile a client has selected is one
    of the DIDs it may choose from (a [did] of a profile of the OAuth
    response, or the user DID) and is never an empty value: this holds
    after the constructor, after [fromOAuthResponse] with its automatic
    choice, and after every [selectProfile]. *)
Theorem selected_profile_is_available (c : t) :
  client_reachable c →
  ∀ d, _selectedProfileDid c = Some d → d ∈ availableDids c ∧ truthy d = true.
Proof.
  intros Hreach d Hsel.
  assert (Hin : d ∈ availableDids c); [|split; [done|by eapply availableDids_truthy]].
  revert d Hsel. induction Hreach as
    [config p c p' Hc
    |resp apiUrl agentDid namespace timeout p c p' Hc
    |c profileDid c' Hreach IH Hstep]; intros d Hsel.
  - apply constructor_Returned in Hc as (a & ->). discriminate Hsel.
  - unfold fromOAuthResponse in Hc. apply bind_Returned in Hc as (c0 & p'' & _ & Hc).
    unfold ret in Hc. injection Hc as <- <-.
    cbn [_selectedProfileDid] in Hsel. unfold availableDids.
    cbn [_availableProfiles _userDid].
    destruct (default [] (OAuthTokenResponse.profiles resp)) as [|only [|? ?]];
      try discriminate Hsel.
    destruct (assoc "did" only) as [x|] eqn:Hdid; [|discriminate Hsel].
    destruct (truthy x) eqn:Hx; [|discriminate Hsel]. injection Hsel as <-.
    cbn [flat_map]. rewrite Hdid. cbn [app List.filter]. rewrite Hx.
    apply elem_of_app. left. apply list_elem_of_here.
  - apply selectProfile_Returned in Hstep as (_ & Hav & ->).
    cbn [_selectedProfileDid] in Hsel. injection Hsel as <-. exact Hav.
Qed.

Lemma selected_profile_is_available_witness :
  ∃ c, client_reachable c ∧
       _selectedProfileDid c = Some (JStr "did:a2p:user:gaugid:work") ∧
       JStr "did:a2p:user:gaugid:work" ∈ availableDids c.
Proof.
  pose (made := fromOAuthResponse
      (OAuthTokenResponse.mk "tok" "Bearer" 3600 "a2p:preferences" None
         (Some "did:a2p:user:gaugid:alice")
         (Some [[("did", JStr "did:a2p:user:gaugid:work")]]))
      None None (Some "gaugid") None (mkProc None (fun n => n) 0)).
  assert (Hmade : ∃ c, made = (Returned c, mkProc None (fun n => n) 0) ∧
            _selectedProfileDid c = Some (JStr "did:a2p:user:gaugid:work"))
    by (eexists; split; reflexivity).
  destruct Hmade as (c & Hc & Hsel). exists c.
  assert (Hreach : client_reachable c) by exact (reach_fromOAuthResponse _ _ _ _ _ _ _ _ Hc).
  split; [done|]. split; [done|].
  exact (proj1 (selected_profile_is_available c Hreach _ Hsel)).
Defined.

(** ** Requests of the client and of the storage backend *)

Lemma fetch_with_timeout_run (req : Request) (env : Env) :
  fetch_with_timeout req env =
  (match server env req with
   | Responded r => Returned r
   | NetworkFailure e => Thrown (Native e)
   | TimedOut => Thrown (Native (mkNativeError "TimeoutError"
                           "The operation was aborted due to timeout"))
   end,
   {| server := server env; sent := sent env ++ [req];
      entropy := entropy env; drawn := drawn env |}).
Proof. unfold fetch_with_timeout. by destruct (server env req). Qed.

(** X27. When the server refuses a request of the client with an error
    object that has a text code and a message that is a string or is left
    out, [GaugidStorage.set] and the token mode of [requestAccess] throw
    the [GaugidAPIError] that [parseGaugidError] builds (its message ending
    with what the code stands for, when that is not in it yet: the
    description of the table, or the text of the member of
    [Object.prototype] of that name), but for one of the four
    authentication codes, where
    [parseGaugidError] builds a [GaugidAuthError], they throw a
    [GaugidConnectionError] with the message "Failed to connect to Gaugid
    API: GaugidAuthError: ..." that holds the authentication error as its
    original error: no [GaugidAuthError] comes out of these calls. *)
Theorem client_calls_wrap_auth_errors (this : t) (did : string) (profile : json)
    (scopes : list string) (purpose : option Purpose.t) (env : Env)
    (r : Response) (data : json) (o : list (string * json)) (c : string) :
  (∀ req, server env req = Responded r) →
  ok r = false → body r = Json data →
  prop "error" data = Some (JObj o) → assoc "code" o = Some (JStr c) →
  (∀ v, assoc "message" o = Some v → ∃ m, v = JStr m) →
  let message := described c (base_message r o) in
  let thrown :=
    if is_auth_code (Some (JStr c))
    then GaugidConnectionError
           ("Failed to connect to Gaugid API: GaugidAuthError: " +:+ message)
           (GaugidAuthError message (Some (JStr c)))
    else GaugidAPIError message (Some (JStr c)) (status r) (Some data) in
  result (GaugidStorage.set (storage this) did profile) env = Thrown thrown ∧
  result (requestAccess this scopes None purpose) env = Thrown thrown.
Proof.
  intros Hserver Hok Hbody Herr Hcode Hmsg message thrown.
  pose proof (parseGaugidError_run r data o c Herr Hcode Hmsg) as Hparse.
  fold message in Hparse.
  split.
  - unfold result, GaugidStorage.set, try_catch at 1, bind at 1.
    rewrite fetch_with_timeout_run, Hserver, Hok. cbn [negb].
    unfold bind, try_catch, lift, Response_json, ret, throw. rewrite Hbody, Hparse.
    subst thrown. by destruct (is_auth_code _).
  - unfold result, requestAccess. cbn [nonempty]. unfold try_catch at 1, bind at 1.
    rewrite fetch_with_timeout_run, Hserver, Hok. cbn [negb].
    unfold bind, try_catch, lift, Response_json, ret, throw. rewrite Hbody, Hparse.
    subst thrown. by destruct (is_auth_code _).
Qed.

Lemma client_calls_wrap_auth_errors_witness :
  let this :=
    GaugidClient.mk (GaugidStorage.mk "tok" "https://api.gaugid.com" None 30000 "v1")
      "tok" None [] None in
  let env := mkEnv
    (fun _ => Responded (mkResponse 401 "Unauthorized"
       (Json (JObj [("error", JObj [("code", JStr "A2P019");
                                   ("message", JStr "Token expired")])]))))
    [] (fun _ => Byte.x00) 0 in
  result (requestAccess this ["a2p:preferences"] None None) env =
  Thrown (GaugidConnectionError
            ("Failed to connect to Gaugid API: GaugidAuthError: " +:+
             described "A2P019" "Token expired")
            (GaugidAuthError (described "A2P019" "Token expired")
               (Some (JStr "A2P019")))).
Proof.
  intros this env.
  assert (Hmessage : ∀ v, assoc "message" [("code", JStr "A2P019");
                                           ("message", JStr "Token expired")] = Some v →
                          ∃ m, v = JStr m)
    by (intros v [= <-]; by eexists).
  exact (proj2 (client_calls_wrap_auth_errors this "" JNull ["a2p:preferences"] None env
            (mkResponse 401 "Unauthorized"
               (Json (JObj [("error", JObj [("code", JStr "A2P019");
                                           ("message", JStr "Token expired")])])))
            (JObj [("error", JObj [("code", JStr "A2P019");
                                   ("message", JStr "Token expired")])])
            [("code", JStr "A2P019"); ("message", JStr "Token expired")]
            "A2P019" (fun _ => eq_refl) eq_refl eq_refl eq_refl eq_refl Hmessage)).
Defined.

(** X28. The [timeout] of the client's configuration is in seconds and the
    requests are aborted after that many milliseconds, 30000 when it is
    left out or is 0: a request made through a constructed client carries
    that delay, and when it runs out [requestAccess] and
    [GaugidStorage.set] throw a [GaugidConnectionError] whose message is
    "Request timeout after <milliseconds>ms". *)
Theorem client_timeout_in_seconds (config : GaugidClientConfig.t) (p p' : Proc) (c : t)
    (did : string) (profile : json) (scopes : list string)
    (purpose : option Purpose.t) (env : Env) :
  constructor config p = (Returned c, p') →
  (∀ req, server env req = TimedOut) →
  let ms := match GaugidClientConfig.timeout config with
            | Some n => if n =? 0 then 30000 else n * 1000
            | None => 30000
            end in
  let thrown :=
    GaugidConnectionError ("Request timeout after " +:+ pretty ms +:+ "ms")
      (Native (mkNativeError "TimeoutError" "The operation was aborted due to timeout")) in
  (result (requestAccess c scopes None purpose) env = Thrown thrown ∧
   ∃ req, sent (after (requestAccess c scopes None purpose) env) = (sent env ++ [req])%list ∧
          req_abort_after req = ms) ∧
  (result (GaugidStorage.set (storage c) did profile) env = Thrown thrown ∧
   ∃ req, sent (after (GaugidStorage.set (storage c) did profile) env)
            = (sent env ++ [req])%list ∧
          req_abort_after req = ms).
Proof.
  intros Hc Hserver ms thrown.
  apply constructor_Returned in Hc as (a & ->). cbn [storage connectionToken].
  set (st := GaugidStorage.constructor _).
  assert (Hms : GaugidStorage.timeout st = ms).
  { subst ms st. unfold GaugidStorage.constructor.
    cbn [GaugidStorage.timeout GaugidStorageConfig.timeout].
    destruct (GaugidClientConfig.timeout config) as [n|]; [|done].
    destruct (Z.eqb_spec n 0) as [|Hn]; [done|].
    destruct (Z.eqb_spec (n * 1000) 0); [lia|done]. }
  clearbody st. split.
  - unfold result, after, requestAccess. cbn [nonempty storage].
    unfold try_catch, bind.
    rewrite !fetch_with_timeout_run, !Hserver. cbn [client_rethrow Exn_name err_name].
    rewrite Hms. split; [done|]. cbn [snd throw sent String.eqb Ascii.eqb Bool.eqb].
    eexists. split; [reflexivity|done].
  - unfold result, after, GaugidStorage.set.
    unfold try_catch, bind.
    rewrite !fetch_with_timeout_run, !Hserver. cbn [client_rethrow Exn_name err_name].
    rewrite Hms. split; [done|]. cbn [snd throw sent String.eqb Ascii.eqb Bool.eqb].
    eexists. split; [reflexivity|done].
Qed.

Lemma client_timeout_in_seconds_witness :
  ∃ c, constructor (GaugidClientConfig.mk "tok" None None (Some "gaugid") (Some 5))
         (mkProc None (fun n => n) 0) = (Returned c, mkProc None (fun n => n) 0) ∧
       result (requestAccess c ["a2p:preferences"] None None)
         (mkEnv (fun _ => TimedOut) [] (fun _ => Byte.x00) 0) =
       Thrown (GaugidConnectionError ("Request timeout after " +:+ pretty 5000 +:+ "ms")
                 (Native (mkNativeError "TimeoutError"
                            "The operation was aborted due to timeout"))).
Proof.
  eexists. split; [reflexivity|].
  exact (proj1 (proj1 (client_timeout_in_seconds
            (GaugidClientConfig.mk "tok" None None (Some "gaugid") (Some 5))
            (mkProc None (fun n => n) 0) _ _ "" JNull ["a2p:preferences"] None
            (mkEnv (fun _ => TimedOut) [] (fun _ => Byte.x00) 0)
            eq_refl (fun _ => eq_refl)))).
Defined.

(** X29. [requestAccess] with a user DID never sends a request: it throws
    a plain [Error], "Invalid user DID: ..." for a text [parseDid] does not
    read and "DID mode request_access not yet implemented" for every other.
    Without a user DID, a 2xx answer whose body is an object gives the
    body's [data] (an empty object when [data] is missing or falsy) when
    [success] is truthy; when [success] is missing or falsy and the body
    has no [error], the call throws a [GaugidAPIError] that carries the 2xx
    status and the status text as message. *)
Theorem requestAccess_outcomes (this : t) (scopes : list string)
    (purpose : option Purpose.t) (env : Env) :
  (∀ userDid, userDid ≠ "" →
     after (requestAccess this scopes (Some userDid) purpose) env = env ∧
     result (requestAccess this scopes (Some userDid) purpose) env =
       Thrown (Native (mkNativeError "Error"
         (match parseDid userDid with
          | Some _ => "DID mode request_access not yet implemented"
          | None =>
              "Invalid user DID: Invalid DID format: " +:+ userDid +:+
              ". Required format: did:a2p:<type>:<namespace>:<identifier>"
          end)))) ∧
  (∀ r fields,
     (∀ req, server env req = Responded r) → ok r = true → body r = Json (JObj fields) →
     (truthy_member (assoc "success" fields) = true →
      result (requestAccess this scopes None purpose) env =
        Returned (json_or_else (assoc "data" fields) (JObj []))) ∧
     (truthy_member (assoc "success" fields) = false → assoc "error" fields = None →
      result (requestAccess this scopes None purpose) env =
        Thrown (GaugidAPIError (or_else (statusText r) "Unknown error") None (status r)
                  (Some (JObj fields))))).
Proof.
  split.
  - intros userDid Hne. unfold result, after, requestAccess. cbn [nonempty].
    destruct (String.eqb_spec userDid ""); [done|].
    destruct (parseDid userDid) as [parsed|] eqn:Hp.
    + rewrite (proj1 (validateGaugidDid_parseDid userDid)) by (rewrite Hp; by eexists).
      done.
    + by rewrite (proj2 (validateGaugidDid_parseDid userDid) Hp).
  - intros r fields Hserver Hok Hbody.
    assert (Hrun : result (requestAccess this scopes None purpose) env =
                   fst (try_catch (unwrap_data r)
                          (client_rethrow (GaugidStorage.timeout (storage this))
                             "Failed to connect to Gaugid API")
                          {| server := server env;
                             sent := sent env ++
                               [{| req_url := GaugidStorage.apiUrl (storage this) +:+
                                              "/a2p/v1/profile/access";
                                   req_method := "POST";
                                   req_headers :=
                                     [("Authorization", "Bearer " +:+ connectionToken this);
                                      ("Content-Type", "application/json")];
                                   req_body :=
                                     JObj ([("scopes", JArr (map JStr scopes))] ++
                                       match purpose with
                                       | Some p =>
                                           [("purpose",
                                             JObj (match Purpose.type p with
                                                   | Some x => [("type", JStr x)]
                                                   | None => [] end ++
                                                   match Purpose.description p with
                                                   | Some x => [("description", JStr x)]
                                                   | None => [] end ++
                                                   match Purpose.legalBasis p with
                                                   | Some x => [("legalBasis", JStr x)]
                                                   | None => [] end))]
                                       | None => []
                                       end)%list;
                                   req_abort_after :=
                                     GaugidStorage.timeout (storage this) |}];
                             entropy := entropy env; drawn := drawn env |})).
    { unfold result, requestAccess. cbn [nonempty]. unfold try_catch, bind at 1.
      by rewrite fetch_with_timeout_run, Hserver, Hok. }
    rewrite Hrun. unfold try_catch, unwrap_data, bind, lift, Response_json, member.
    rewrite Hbody. cbn [prop]. split.
    + intros ->. done.
    + intros -> Herr. cbn [negb]. unfold parseGaugidError. cbn [mbind option_bind prop].
      rewrite Herr. done.
Qed.

Lemma requestAccess_outcomes_witness :
  let this :=
    GaugidClient.mk (GaugidStorage.mk "tok" "https://api.gaugid.com" None 30000 "v1")
      "tok" None [] None in
  let env := mkEnv
    (fun _ => Responded (mkResponse 200 "OK" (Json (JObj [("success", JBool false)]))))
    [] (fun _ => Byte.x00) 0 in
  after (requestAccess this [] (Some "did:a2p:user:gaugid:alice") None) env = env ∧
  result (requestAccess this [] None None) env =
    Thrown (GaugidAPIError "OK" None 200 (Some (JObj [("success", JBool false)]))).
Proof.
  intros this env. split.
  - by apply (proj1 (requestAccess_outcomes this [] None env) "did:a2p:user:gaugid:alice").
  - by apply (proj2 (requestAccess_outcomes this [] None env)
               (mkResponse 200 "OK" (Json (JObj [("success", JBool false)])))
               [("success", JBool false)]).
Defined.

(** X30. A client constructed without an agent DID gets the agent DID
    [did:a2p:agent:<namespace>:default], the namespace being the one of the
    configuration or else the environment variable; when neither is set the
    constructor throws "Namespace is required...". An agent DID that is
    given is kept as it is when [parseDid] reads it, and makes the
    constructor throw "Invalid agent DID: ..." when not. In no case does
    the constructor use the random source. *)
Theorem GaugidClient_constructor_agentDid (config : GaugidClientConfig.t) (p : Proc) :
  (nonempty (GaugidClientConfig.agentDid config) = None →
   match (match nonempty (GaugidClientConfig.namespace config) with
          | Some ns => Some ns
          | None => nonempty (GAUGID_NAMESPACE p)
          end) with
   | Some ns =>
       ∃ c, constructor config p = (Returned c, p) ∧
            GaugidStorage.agentDid (storage c) =
              Some ("did:a2p:agent:" +:+ ns +:+ ":default")
   | None => constructor config p = (Thrown namespace_required, p)
   end) ∧
  (∀ agentDid, nonempty (GaugidClientConfig.agentDid config) = Some agentDid →
   match parseDid agentDid with
   | Some _ =>
       ∃ c, constructor config p = (Returned c, p) ∧
            GaugidStorage.agentDid (storage c) = Some agentDid
   | None =>
       constructor config p =
         (Thrown (Native (mkNativeError "Error"
            ("Invalid agent DID: Invalid DID format: " +:+ agentDid +:+
             ". Required format: did:a2p:<type>:<namespace>:<identifier>"))), p)
   end).
Proof.
  split.
  - intros Hnone. unfold constructor. rewrite Hnone.
    unfold generateAgentDid. unfold bind, env_GAUGID_NAMESPACE. cbv beta iota.
    destruct (match nonempty (GaugidClientConfig.namespace config) with
              | Some ns => Some ns
              | None => nonempty (GAUGID_NAMESPACE p)
              end) as [ns|]; [|reflexivity].
    eexists. split; reflexivity.
  - intros agentDid Hsome. unfold constructor. rewrite Hsome.
    destruct (parseDid agentDid) as [parsed|] eqn:Hp.
    + rewrite (proj1 (validateGaugidDid_parseDid agentDid)) by (rewrite Hp; by eexists).
      eexists. split; reflexivity.
    + by rewrite (proj2 (validateGaugidDid_parseDid agentDid) Hp).
Qed.

Lemma GaugidClient_constructor_agentDid_witness :
  constructor (GaugidClientConfig.mk "tok" None None None None)
    (mkProc None (fun n => n) 0) =
  (Thrown namespace_required, mkProc None (fun n => n) 0).
Proof.
  exact (proj1 (GaugidClient_constructor_agentDid
           (GaugidClientConfig.mk "tok" None None None None)
           (mkProc None (fun n => n) 0)) eq_refl).
Defined.

End Client.
